(** * STCM2L script decompiler (release v1.1.26): shallow embedding and properties

    The Python class [STCM2LDecompiler] is embedded function by function.
    Python integers are [Z], a [bytes] object is a list of [byte], a [str] is
    the list of its Unicode code points.  Loops that Python writes with
    [while] are written with an explicit fuel argument and return [None] when
    the fuel runs out; each entry point is shown to be total. *)

From Stdlib Require Import ZArith List Bool Lia.
From Stdlib Require Import Strings.String Strings.Ascii Strings.Byte.
From Stdlib Require Import Permutation Sorted.
Import ListNotations.
Open Scope Z_scope.

(** ** Python values *)

Definition bytes := list byte.
Definition str := list Z.

Definition len {A : Type} (l : list A) : Z := Z.of_nat (List.length l).

Definition b2z (x : byte) : Z := Z.of_N (Byte.to_N x).

(** A [bytes] literal [b'...']. *)
Definition b (s : string) : bytes := list_byte_of_string s.

(** [seq[i]]: negative positions count from the end, a position outside the
    sequence raises [IndexError] ([None]). *)
Definition item {A : Type} (l : list A) (i : Z) : option A :=
  if i <? 0 then
    if len l + i <? 0 then None else nth_error l (Z.to_nat (len l + i))
  else nth_error l (Z.to_nat i).

(** [seq[lo:hi]] for the non-negative bounds the program uses; bounds past the
    end are clipped, as Python does. *)
Definition slice {A : Type} (l : list A) (lo hi : Z) : list A :=
  firstn (Z.to_nat (hi - lo)) (skipn (Z.to_nat lo) l).

Fixpoint bytes_eqb (x y : bytes) : bool :=
  match x, y with
  | [], [] => true
  | a :: x', c :: y' => Byte.eqb a c && bytes_eqb x' y'
  | _, _ => false
  end.

Fixpoint str_eqb (x y : str) : bool :=
  match x, y with
  | [], [] => true
  | a :: x', c :: y' => (a =? c) && str_eqb x' y'
  | _, _ => false
  end.

(** [struct.unpack('<I', s)[0]]: exactly four bytes, little endian;
    any other length raises [struct.error] ([None]). *)
Definition unpack_I (s : bytes) : option Z :=
  match s with
  | [b0; b1; b2; b3] =>
      Some (b2z b0 + 256 * b2z b1 + 65536 * b2z b2 + 16777216 * b2z b3)
  | _ => None
  end.

(** ** Characters and [str] methods *)

(** The code point of an ASCII character. *)
Definition ch (a : ascii) : Z := Z.of_N (N_of_ascii a).

Definition REPLACEMENT : Z := 0xFFFD.

Definition between (lo hi c : Z) : bool := (lo <=? c) && (c <=? hi).

(** [c.isspace()]: the white space that [str.strip()] and [str.split()]
    remove.  The set is finite and written out in full. *)
Definition isspace (c : Z) : bool :=
  between 0x09 0x0D c || between 0x1C 0x20 c || (c =? 0x85) || (c =? 0xA0) ||
  (c =? 0x1680) || between 0x2000 0x200A c || (c =? 0x2028) || (c =? 0x2029) ||
  (c =? 0x202F) || (c =? 0x205F) || (c =? 0x3000).

(** The large tables of Python's character database are an interface: every
    function below that consults them takes the database as a parameter, and
    the statements proved for all texts hold for every database. *)
Class UCD := {
  isalpha : Z -> bool;   (* c.isalpha() *)
  isupper : Z -> bool;   (* c.isupper() *)
  isdecimal : Z -> bool; (* the characters \d matches in a str pattern *)
  isword : Z -> bool     (* the characters \w matches in a str pattern *)
}.

(** The database on ASCII and on U+3000..U+9FFF (CJK punctuation, kana,
    ideographs), the two ranges the scripts of the game are written in; used
    to evaluate the program on concrete texts. *)
Definition jp_letter (c : Z) : bool :=
  between 0x3005 0x3006 c || between 0x3031 0x3035 c || between 0x303B 0x303C c ||
  between 0x3041 0x3096 c || between 0x309D 0x309F c || between 0x30A1 0x30FA c ||
  between 0x30FC 0x30FF c || between 0x3105 0x312F c || between 0x3131 0x318E c ||
  between 0x31A0 0x31BF c || between 0x31F0 0x31FF c || between 0x3400 0x4DBF c ||
  between 0x4E00 0x9FFF c.

Definition jp_number (c : Z) : bool :=
  (c =? 0x3007) || between 0x3021 0x3029 c || between 0x3038 0x303A c ||
  between 0x3192 0x3195 c || between 0x3220 0x3229 c || between 0x3248 0x324F c ||
  between 0x3251 0x325F c || between 0x3280 0x3289 c || between 0x32B1 0x32BF c.

Definition ascii_jp : UCD := {|
  isalpha c := between 0x41 0x5A c || between 0x61 0x7A c || jp_letter c;
  isupper c := between 0x41 0x5A c;
  isdecimal c := between 0x30 0x39 c;
  isword c := between 0x30 0x39 c || between 0x41 0x5A c || (c =? 0x5F) ||
              between 0x61 0x7A c || jp_letter c || jp_number c
|}.

(** [s.lower()].  The program only ever tests the result for membership in
    sets of lower-case ASCII and katakana words; for that test it is enough
    to map the characters whose lower case is an ASCII letter (A-Z and the
    Kelvin sign), which is what is done here. *)
Definition lower_char (c : Z) : Z :=
  if between 0x41 0x5A c then c + 32 else if c =? 0x212A then 0x6B else c.

Definition lower (s : str) : str := map lower_char s.

Fixpoint lstrip_by (p : Z -> bool) (s : str) : str :=
  match s with
  | c :: s' => if p c then lstrip_by p s' else s
  | [] => []
  end.

Definition rstrip_by (p : Z -> bool) (s : str) : str := rev (lstrip_by p (rev s)).

Definition strip_by (p : Z -> bool) (s : str) : str := rstrip_by p (lstrip_by p s).

(** [s.strip()], [s.rstrip()] and [s.strip(chars)]. *)
Definition strip : str -> str := strip_by isspace.
Definition rstrip : str -> str := rstrip_by isspace.
Definition strip_chars (chars : str) : str -> str :=
  strip_by (fun c => existsb (Z.eqb c) chars).

Fixpoint startswith (s prefix : str) {struct prefix} : bool :=
  match prefix, s with
  | [], _ => true
  | a :: prefix', c :: s' => (c =? a) && startswith s' prefix'
  | _ :: _, [] => false
  end.

Definition endswith (s suffix : str) : bool := startswith (rev s) (rev suffix).

(** [sub in s]. *)
Fixpoint contains (sub s : str) : bool :=
  startswith s sub || match s with [] => false | _ :: s' => contains sub s' end.

(** [s.count(c)] for a one-character [c]. *)
Definition count_char (c : Z) (s : str) : Z := len (filter (Z.eqb c) s).

(** [sep.join(parts)]. *)
Fixpoint join (sep : str) (parts : list str) : str :=
  match parts with
  | [] => []
  | [x] => x
  | x :: rest => x ++ sep ++ join sep rest
  end.

(** [s.split()]: the maximal runs of characters that are not white space. *)
Fixpoint split_acc (word : str) (s : str) : list str :=
  match s with
  | [] => match word with [] => [] | _ => [rev word] end
  | c :: s' =>
      if isspace c then
        match word with [] => split_acc [] s' | _ => rev word :: split_acc [] s' end
      else split_acc (c :: word) s'
  end.

Definition split (s : str) : list str := split_acc [] s.

(** [any('\u3000' <= c <= '\u9fff' for c in s)]. *)
Definition any_japanese (s : str) : bool := existsb (between 0x3000 0x9FFF) s.

(** ** Codecs *)

Definition is_continuation (x : byte) : bool := between 0x80 0xBF (b2z x).

(** [raw.decode('utf-8', errors='replace')]: CPython's decoder; every
    ill-formed sequence (its longest prefix that could start a code point) is
    replaced by U+FFFD.  The call never raises, so the [except] branch of
    [decode_utf8_string] is never taken. *)
Fixpoint utf8_decode (s : bytes) : str :=
  match s with
  | [] => []
  | x0 :: s1 =>
    let c0 := b2z x0 in
    if c0 <? 0x80 then c0 :: utf8_decode s1
    else if c0 <? 0xC2 then REPLACEMENT :: utf8_decode s1
    else if c0 <? 0xE0 then
      match s1 with
      | [] => [REPLACEMENT]
      | x1 :: s2 =>
          if is_continuation x1
          then (c0 - 0xC0) * 64 + (b2z x1 - 0x80) :: utf8_decode s2
          else REPLACEMENT :: utf8_decode s1
      end
    else if c0 <? 0xF0 then
      match s1 with
      | [] => [REPLACEMENT]
      | x1 :: s2 =>
          let c1 := b2z x1 in
          if negb (is_continuation x1) ||
             (if c1 <? 0xA0 then c0 =? 0xE0 else c0 =? 0xED)
          then REPLACEMENT :: utf8_decode s1
          else
            match s2 with
            | [] => [REPLACEMENT]
            | x2 :: s3 =>
                if is_continuation x2
                then (c0 - 0xE0) * 4096 + (c1 - 0x80) * 64 + (b2z x2 - 0x80)
                       :: utf8_decode s3
                else REPLACEMENT :: utf8_decode s2
            end
      end
    else if c0 <? 0xF5 then
      match s1 with
      | [] => [REPLACEMENT]
      | x1 :: s2 =>
          let c1 := b2z x1 in
          if negb (is_continuation x1) ||
             (if c1 <? 0x90 then c0 =? 0xF0 else c0 =? 0xF4)
          then REPLACEMENT :: utf8_decode s1
          else
            match s2 with
            | [] => [REPLACEMENT]
            | x2 :: s3 =>
                if negb (is_continuation x2) then REPLACEMENT :: utf8_decode s2
                else
                  match s3 with
                  | [] => [REPLACEMENT]
                  | x3 :: s4 =>
                      if is_continuation x3
                      then (c0 - 0xF0) * 262144 + (c1 - 0x80) * 4096 +
                           (b2z x2 - 0x80) * 64 + (b2z x3 - 0x80)
                             :: utf8_decode s4
                      else REPLACEMENT :: utf8_decode s3
                  end
            end
      end
    else REPLACEMENT :: utf8_decode s1
  end.

(** [len(c.encode('utf-8'))] for one character. *)
Definition utf8_width (c : Z) : Z :=
  if c <? 0x80 then 1 else if c <? 0x800 then 2 else if c <? 0x10000 then 3 else 4.

Definition utf8_len (s : str) : Z := fold_right (fun c n => utf8_width c + n) 0 s.

(** A [str] literal of the source, given by the UTF-8 text of the literal. *)
Definition u (s : string) : str := utf8_decode (b s).

(** [data.rstrip(b'\x00')]. *)
Fixpoint lstrip_nul (s : bytes) : bytes :=
  match s with
  | x :: s' => if Byte.eqb x x00 then lstrip_nul s' else s
  | [] => []
  end.

Definition rstrip_nul (s : bytes) : bytes := rev (lstrip_nul (rev s)).

(** [data.find(sub)] from the start: the first position where [sub] occurs,
    or -1. *)
Fixpoint bytes_startswith (s prefix : bytes) {struct prefix} : bool :=
  match prefix, s with
  | [], _ => true
  | a :: prefix', c :: s' => Byte.eqb c a && bytes_startswith s' prefix'
  | _ :: _, [] => false
  end.

Fixpoint find_from (sub s : bytes) (pos : Z) : Z :=
  if bytes_startswith s sub then pos
  else match s with
       | [] => -1
       | _ :: s' => find_from sub s' (pos + 1)
       end.

Definition find (s sub : bytes) : Z := find_from sub s 0.

(** ** Regular expressions

    The patterns of the program use literals, character sets, [\d], the
    anchors [^], [$] and [\b], grouping, alternation and bounded or unbounded
    repetition.  Only whether a pattern matches is ever asked, so a pattern
    denotes a set of strings and greedy or lazy choice does not matter. *)

Inductive cset := One (c : Z) | Range (lo hi : Z).

Inductive re :=
| Eps
| Chr (c : Z)
| In_ (items : list cset)
| Digit
| Bol
| Eol
| WordB
| Cat (r1 r2 : re)
| Alt (r1 r2 : re)
| Rep (r : re) (lo : nat) (hi : option nat).

Definition Star (r : re) : re := Rep r 0 None.
Definition Plus (r : re) : re := Rep r 1 None.

Fixpoint lit (s : str) : re :=
  match s with
  | [] => Eps
  | [c] => Chr c
  | c :: s' => Cat (Chr c) (lit s')
  end.

Fixpoint cat (rs : list re) : re :=
  match rs with
  | [] => Eps
  | [r] => r
  | r :: rs' => Cat r (cat rs')
  end.

Fixpoint alt (rs : list re) : re :=
  match rs with
  | [] => In_ []
  | [r] => r
  | r :: rs' => Alt r (alt rs')
  end.

Definition txt (s : string) : re := lit (u s).
Definition rng (lo hi : ascii) : cset := Range (ch lo) (ch hi).
Definition one (c : ascii) : cset := One (ch c).
Definition any_of (s : string) : re := In_ (map One (u s)).

(** [re.IGNORECASE]: two characters match when they have the same simple case
    folding.  All patterns compiled with the flag are ASCII; besides the ASCII
    letters of the other case, an ASCII letter then matches U+0130 and U+0131
    (as i), U+017F (as s) and U+212A (as k). *)
Definition fold_case (c : Z) : Z :=
  if between 0x41 0x5A c then c + 32
  else if (c =? 0x130) || (c =? 0x131) then 0x69
  else if c =? 0x17F then 0x73
  else if c =? 0x212A then 0x6B
  else c.

Definition upper_ascii (c : Z) : Z := if between 0x61 0x7A c then c - 32 else c.

Definition chr_match (ic : bool) (l x : Z) : bool :=
  if ic then fold_case l =? fold_case x else l =? x.

Definition item_in (x : Z) (it : cset) : bool :=
  match it with
  | One c => x =? c
  | Range lo hi => between lo hi x
  end.

Definition set_match (ic : bool) (items : list cset) (x : Z) : bool :=
  existsb (item_in x) items ||
  ic && (existsb (item_in (fold_case x)) items ||
         existsb (item_in (upper_ascii (fold_case x))) items).

Section Classifier.
Context {U : UCD}.

Definition word_at (c : option Z) : bool :=
  match c with Some x => isword x | None => false end.

(** [rmatch ic r prev s k]: some prefix of [s] matches [r] (the character
    before [s] being [prev]) and the continuation [k] accepts what follows. *)
Fixpoint rmatch (ic : bool) (r : re) (prev : option Z) (s : str)
    (k : option Z -> str -> bool) {struct r} : bool :=
  match r with
  | Eps => k prev s
  | Chr c =>
      match s with x :: s' => chr_match ic c x && k (Some x) s' | [] => false end
  | In_ items =>
      match s with x :: s' => set_match ic items x && k (Some x) s' | [] => false end
  | Digit =>
      match s with x :: s' => isdecimal x && k (Some x) s' | [] => false end
  | Bol => match prev with None => k prev s | Some _ => false end
  | Eol =>
      match s with
      | [] => k prev s
      | [c] => (c =? 10) && k prev s
      | _ => false
      end
  | WordB => xorb (word_at prev) (word_at (hd_error s)) && k prev s
  | Cat r1 r2 => rmatch ic r1 prev s (fun p' s' => rmatch ic r2 p' s' k)
  | Alt r1 r2 => rmatch ic r1 prev s k || rmatch ic r2 prev s k
  | Rep r' lo hi =>
      (fix rep (fuel n : nat) (p : option Z) (s0 : str) {struct fuel} : bool :=
         ((lo <=? n)%nat && k p s0) ||
         match fuel with
         | O => false
         | S fuel' =>
             match hi with Some h => (n <? h)%nat | None => true end &&
             rmatch ic r' p s0
               (fun p' s' =>
                  (List.length s' <? List.length s0)%nat && rep fuel' (S n) p' s')
         end) (List.length s) 0%nat prev s
  end.

(** [re.match(pattern, s)] and [re.search(pattern, s)], as booleans. *)
Definition re_match (ic : bool) (r : re) (s : str) : bool :=
  rmatch ic r None s (fun _ _ => true).

Fixpoint search_from (ic : bool) (r : re) (prev : option Z) (s : str) : bool :=
  rmatch ic r prev s (fun _ _ => true) ||
  match s with
  | [] => false
  | x :: s' => search_from ic r (Some x) s'
  end.

Definition re_search (ic : bool) (r : re) (s : str) : bool :=
  search_from ic r None s.

(** ** TextClassifier *)

Definition in_set (s : str) (words : list str) : bool := existsb (str_eqb s) words.

Definition ENGLISH_CHOICE_WORDS : list str :=
  map u ["yes"; "no"; "ok"; "cancel"; "accept"; "decline"; "close"]%string.

Definition BYTECODE_PATTERNS : list re :=
  [ txt "switch"; txt "case"; txt "default";
    Cat (txt "bg") (Plus (In_ [rng "0" "9"; rng "a" "f"]));
    Cat (txt "@") (Plus (In_ [rng "a" "z"; rng "A" "Z"; rng "0" "9"; one "_"]));
    cat [Bol;
         alt (map txt ["edga"; "her"; "zara"; "ness"; "pear"; "rich"; "rath";
                       "elza"; "haniy"; "zk"]%string);
         Plus (In_ [rng "0" "9"]); Star (In_ [rng "a" "z"])];
    Cat (txt "suma") Eol;
    Cat (txt "scene_play") Eol;
    Cat (txt "flg_memory") Eol;
    cat [Bol; txt "@";
         Plus (In_ [rng "a" "z"; rng "A" "Z"; rng "0" "9"; one "_"]); Eol] ].

Definition SPEAKER_NAMES : list str :=
  map u ["pearl"; "richie"; "nesso"; "zara"; "edgar"; "elza"; "rath";
         "guillan"; "arles"; "henrietta";
         "パール"; "リッチー"; "ネッソ"; "ザラ"; "エドガー"; "エルザ"; "ラス";
         "ギラン"; "アルル"; "ヘンリエッタ"]%string.

(** [r'^[a-z]{1,3}$'] and [r'^[a-z]+\d+$'], the word shapes counted by
    [is_bytecode]. *)
Definition SHORT_WORD : re := cat [Bol; Rep (In_ [rng "a" "z"]) 1 (Some 3%nat); Eol].
Definition CODE_WORD : re := cat [Bol; Plus (In_ [rng "a" "z"]); Plus Digit; Eol].

Definition looks_like_bytecode (word : str) : bool :=
  startswith word (u "@") || re_match false SHORT_WORD word ||
  re_match false CODE_WORD word || (len word <? 3).

(** [is_bytecode].  The source compares the float [bytecode_count / len(words)]
    with [0.85]; the comparison is the exact one, [100 * count > 85 * words],
    for every text of fewer than 10^14 words. *)
Definition is_bytecode (text : str) : bool :=
  let text := strip text in
  if in_set (lower text) ENGLISH_CHOICE_WORDS then false
  else if existsb (fun pattern => re_match true pattern text) BYTECODE_PATTERNS then true
  else
    let words := split text in
    if 5 <? len words then
      let bytecode_count := len (filter looks_like_bytecode words) in
      if 85 * len words <? 100 * bytecode_count then true else false
    else false.

(** [r'^#Name\[[0-9]+\]$'] *)
Definition NAME_INDICATOR : re :=
  cat [Bol; txt "#Name["; Plus (In_ [rng "0" "9"]); txt "]"; Eol].

Definition is_name_indicator (text : str) : bool :=
  re_match false NAME_INDICATOR (strip text).

Definition is_speaker_name (text : str) : bool :=
  let text := strip_chars [0] (strip text) in
  let text := lower text in
  in_set text SPEAKER_NAMES.

(** [sum(1 for c in s if c.isalpha())] *)
Definition count_alpha (s : str) : Z := len (filter isalpha s).

(** The set of closing marks searched for in [prev_text] (ideographic full
    stop, fullwidth and ASCII exclamation and question marks, ASCII full stop,
    the double quote, the closing corner bracket, the fullwidth closing
    parenthesis, the closing square bracket, the ellipsis), and
    [r'^[a-z(「『（]']. *)
Definition TERMINAL : re :=
  In_ (map One (u "。！？.!?" ++ [0x22] ++ u "』）]…")).
Definition CONTINUES : re :=
  cat [Bol; In_ (rng "a" "z" :: map One (u "(「『（"))].

(** [should_combine_entries]; the two dictionaries are only read at ['text']. *)
Definition should_combine_entries (prev_text curr_text : str) : bool :=
  if is_bytecode curr_text || is_name_indicator curr_text then false
  else if contains (u " [") prev_text && endswith (rstrip prev_text) (u "]") then false
  else
    let prev_has_japanese := any_japanese prev_text in
    let prev_has_english := 2 <? count_alpha prev_text in
    let curr_has_japanese := any_japanese curr_text in
    let curr_has_english := 2 <? count_alpha curr_text in
    if curr_has_japanese && curr_has_english then false
    else if prev_has_japanese && curr_has_english && negb curr_has_japanese then false
    else if prev_has_english && curr_has_japanese && negb curr_has_english then false
    else if (3 <? len prev_text) && negb (re_search false TERMINAL prev_text) then true
    else if re_match false CONTINUES curr_text then true
    else
      let open_parens := count_char (ch "(") prev_text + count_char 0xFF08 prev_text in
      let close_parens := count_char (ch ")") prev_text + count_char 0xFF09 prev_text in
      if close_parens <? open_parens then true else false.

(** ** Entries

    The dictionaries the stages pass along.  Extracted entries carry
    ['index'], ['type'], ['text'], ['size'] and (padded and compact only)
    ['offset']; assembled entries carry ['index'], ['text'], ['speaker'],
    ['type']; a grouped choice adds ['is_choice'], ['choice_count'] and
    ['choice_options'].  A key that is absent is [None]. *)
Record entry := mk_entry {
  index : Z;
  type : Z;
  text : str;
  size : option Z;
  offset : option Z;
  speaker : option str;
  is_choice : option bool;
  choice_count : option Z;
  choice_options : option (list str)
}.

Definition extracted (i t : Z) (s : str) (sz : Z) (off : option Z) : entry :=
  mk_entry i t s (Some sz) off None None None None.

Definition assembled (i : Z) (s : str) (who : str) (t : Z) : entry :=
  mk_entry i t s None None (Some who) None None None.

Definition mem (x : Z) (l : list Z) : bool := existsb (Z.eqb x) l.

(** [len(set(s))] *)
Definition set_size (s : str) : Z := len (nodup Z.eq_dec s).

(** [r'^[あいうえお]+$'], [r'^[。！？]+$'] and [r'[。！』）」]$'] *)
Definition VOWELS_ONLY : re := cat [Bol; Plus (any_of "あいうえお"); Eol].
Definition MARKS_ONLY : re := cat [Bol; Plus (any_of "。！？"); Eol].
Definition ENDS_SENTENCE : re := Cat (any_of "。！』）」") Eol.

Definition is_choice_candidate (e : entry) : bool :=
  let text := strip (text e) in
  let entry_type := type e in
  let text_len := len text in
  if (text_len <? 2) || (10 <? text_len) then false
  else if (entry_type =? 0x02) && negb (any_japanese text) then
    if in_set (lower text) ENGLISH_CHOICE_WORDS then true else false
  else
    let has_japanese := any_japanese text in
    if negb has_japanese then false
    else if is_speaker_name text then false
    else if is_bytecode text then false
    else if endswith text (u "？") || endswith text (u "か？") then false
    else if (2 <=? len text) && (set_size text =? 1) && re_match false VOWELS_ONLY text
    then false
    else if re_match false MARKS_ONLY text then false
    else if re_search false ENDS_SENTENCE text then false
    else true.

(** ** Sorting

    [list.sort(key=...)] is stable; so is insertion from the right, which
    puts an element before the elements of equal key that followed it. *)
Fixpoint insert_by {A : Type} (le : A -> A -> bool) (x : A) (l : list A) : list A :=
  match l with
  | [] => [x]
  | y :: l' => if le x y then x :: l else y :: insert_by le x l'
  end.

Definition sort_by {A : Type} (le : A -> A -> bool) (l : list A) : list A :=
  fold_right (insert_by le) [] l.

(** ** ChoiceGrouper *)

Definition index_le (x y : entry) : bool := index x <=? index y.

(** A candidate is remembered with its position in [entries]: the source
    marks the dictionary object itself with ['_remove']. *)
Definition candidate : Type := nat * entry.

Fixpoint enumerate_from {A : Type} (n : nat) (l : list A) : list (nat * A) :=
  match l with
  | [] => []
  | x :: l' => (n, x) :: enumerate_from (S n) l'
  end.

Definition enumerate {A : Type} (l : list A) : list (nat * A) := enumerate_from 0 l.

(** The inner [while j < len(choice_candidates)] loop: the candidates that
    follow [current] and are taken into its group, and the ones left. *)
Fixpoint nearby (current_index : Z) (cs : list candidate)
    : list candidate * list candidate :=
  match cs with
  | [] => ([], [])
  | next_choice :: cs' =>
      let next_index := index (snd next_choice) in
      if next_index - current_index <=? 50 then
        let (group, rest) := nearby current_index cs' in (next_choice :: group, rest)
      else ([], cs)
  end.

Definition combined_entry (first : candidate) (group : list candidate) : entry :=
  let choice_texts := map (fun e => strip (text (snd e))) group in
  let combined_text := join (u " / ") choice_texts in
  {| index := index (snd first);
     text := combined_text;
     speaker := Some [];
     type := 0x02;
     is_choice := Some true;
     choice_count := Some (len choice_texts);
     choice_options := Some choice_texts;
     size := None;
     offset := None |}.

(** The outer [while i < len(choice_candidates)] loop; [removed] collects the
    positions of the entries marked ['_remove'], [grouped] the combined
    entries. *)
Fixpoint group_loop (fuel : nat) (cs : list candidate)
    (removed : list nat) (grouped : list entry) : option (list nat * list entry) :=
  match cs with
  | [] => Some (removed, grouped)
  | current :: cs' =>
      match fuel with
      | O => None
      | S fuel' =>
          let current_index := index (snd current) in
          let (more, rest) := nearby current_index cs' in
          let group := current :: more in
          if (2 <=? len group) && (len group <=? 5) then
            group_loop fuel' rest (removed ++ map fst group)
                       (grouped ++ [combined_entry current group])
          else group_loop fuel' rest removed grouped
      end
  end.

Definition not_removed (removed : list nat) (pe : nat * entry) : bool :=
  negb (existsb (Nat.eqb (fst pe)) removed).

Definition group_related_choices (entries : list entry) : option (list entry) :=
  let choice_candidates :=
    filter (fun pe => is_choice_candidate (snd pe)) (enumerate entries) in
  match choice_candidates with
  | [] => Some entries
  | _ =>
      match group_loop (List.length choice_candidates) choice_candidates [] [] with
      | None => None
      | Some (removed, grouped) =>
          let result := map snd (filter (not_removed removed) (enumerate entries)) in
          let result := result ++ grouped in
          Some (sort_by index_le result)
      end
  end.

(** ** The admission filter *)

Definition VALID_TEXT_PATTERNS : list re :=
  [ cat [WordB; txt "Release_"]; cat [WordB; txt "Rute_count_"];
    cat [WordB; txt "Fav"; In_ [rng "A" "Z"]]; cat [WordB; txt "LH_sel_"];
    cat [WordB; txt "sure"; Plus Digit];
    cat [WordB; txt "suma"; WordB]; cat [WordB; txt "memory_"];
    cat [WordB; txt "COLLECTION_LINK"]; cat [WordB; txt "EXPORT_DATA"];
    cat [WordB; txt "switch"];
    cat [WordB; txt "scene_play"]; cat [WordB; txt "rathL"]; cat [WordB; txt "elzaL"];
    cat [WordB; txt "zara0"]; cat [WordB; txt "ness0"]; cat [WordB; txt "her"; Plus Digit];
    cat [WordB; txt "zk"; Plus Digit]; cat [WordB; txt "bg"; Plus Digit];
    cat [WordB; In_ [rng "A" "Z"]; Plus (In_ [rng "a" "z"]); txt "_";
         Alt (txt "bad") (txt "good"); txt "_end"; WordB];
    cat [WordB; txt "TrueEnd"; WordB];
    cat [Bol; In_ [rng "A" "Z"]; Plus (In_ [rng "a" "z"]); txt "_";
         Plus (In_ [rng "A" "Z"; rng "a" "z"; one "_"]); Eol];
    cat [WordB; txt "ef_"; Plus (In_ [rng "a" "z"; rng "0" "9"; one "_"]); WordB];
    cat [WordB; txt "select"; WordB];
    cat [WordB; txt "export_data"; WordB];
    cat [Bol; Plus (In_ [rng "a" "z"]); Plus Digit; Star (In_ [rng "a" "z"]);
         txt "_"; Plus (In_ [rng "a" "z"]); Eol];
    cat [Bol; Plus (In_ [rng "a" "z"]); Plus Digit; Eol];
    cat [Bol; Rep (In_ [rng "a" "z"]) 3 (Some 5%nat); Eol] ].

(** [any(0x3040 <= ord(c) <= 0x9FFF for c in text)] *)
Definition has_script (s : str) : bool := existsb (between 0x3040 0x9FFF) s.

Definition is_control (c : Z) : bool :=
  (c <? 32) && negb (existsb (Z.eqb c) [10; 13; 9]).

(** The [for pattern in bytecode_patterns] loop: [true] when it returns
    [False]. *)
Fixpoint rejected_as_code (patterns : list re) (text_stripped text : str) : bool :=
  match patterns with
  | [] => false
  | pattern :: patterns' =>
      if re_search true pattern text_stripped then
        if negb (has_script text) then true
        else rejected_as_code patterns' text_stripped text
      else rejected_as_code patterns' text_stripped text
  end.

(** [_is_valid_text].  [len(text) / 4] and [len(text) / 10] are floats in the
    source; the comparisons with an integer are the exact ones written here
    (for every text shorter than 2^50 characters). *)
Definition _is_valid_text (text : str) : bool :=
  match text with
  | [] => false
  | _ =>
    if len (strip text) <? 2 then false
    else if contains [REPLACEMENT] text then false
    else
      let control_count := len (filter is_control text) in
      if len text <? 4 * control_count then false
      else if startswith text (u "@") && (len text <? 5) then false
      else
        let at_count := count_char (ch "@") text in
        if (10 <? len text) && (len text <? 10 * at_count) then false
        else
          let text_stripped := strip text in
          if is_speaker_name text_stripped then true
          else if in_set (lower text_stripped) ENGLISH_CHOICE_WORDS then true
          else if rejected_as_code VALID_TEXT_PATTERNS text_stripped text then false
          else
            let has_japanese := has_script text in
            let has_english := 2 <=? count_alpha text in
            has_japanese || has_english
  end.

(** ** EntryExtractor *)

(** How one pass through the body of a scanning loop ends: at the end of the
    body or at [continue], at [break], or with an exception caught by the
    [except] clause (which then adds one to [pos]). *)
Inductive outcome :=
| Continue (pos : Z) (entries : list entry)
| Break (entries : list entry)
| Raise (pos : Z) (entries : list entry).

(** The common skeleton [while cond: try: body except: pos += 1]. *)
Fixpoint scan_loop (cond : Z -> bool) (body : Z -> list entry -> option outcome)
    (fuel : nat) (pos : Z) (entries : list entry) : option (list entry) :=
  match fuel with
  | O => None
  | S fuel' =>
      if cond pos then
        match body pos entries with
        | None => None
        | Some (Continue pos' entries') => scan_loop cond body fuel' pos' entries'
        | Some (Break entries') => Some entries'
        | Some (Raise pos' entries') => scan_loop cond body fuel' (pos' + 1) entries'
        end
      else Some entries
  end.

(** [data[p0] == 0 and data[p1] == 0 and ...], evaluated left to right;
    [None] is an [IndexError]. *)
Fixpoint all_zero (data : bytes) (ps : list Z) : option bool :=
  match ps with
  | [] => Some true
  | p :: ps' =>
      match item data p with
      | None => None
      | Some x => if b2z x =? 0 then all_zero data ps' else Some false
      end
  end.

(** The [for i in range(4)] count of zero bytes at [text_end .. text_end+3]. *)
Definition null_count (data : bytes) (text_end : Z) : Z :=
  len (filter (fun i => (text_end + i <? len data) &&
                        match item data (text_end + i) with
                        | Some x => b2z x =? 0
                        | None => false
                        end) [0; 1; 2; 3]).

(** The search for the end of a type 0x10 text, padded parser.  [n] is what
    is left of the 500 bytes the loop allows, [500 - (text_end - text_start)]. *)
Fixpoint padded_text_end (data : bytes) (n : nat) (text_end : Z) : option Z :=
  match n with
  | O => Some text_end
  | S n' =>
      if text_end <? len data then
        match item data text_end with
        | None => None
        | Some x =>
            if b2z x =? 0 then
              if 2 <=? null_count data text_end then Some text_end
              else padded_text_end data n' (text_end + 1)
            else padded_text_end data n' (text_end + 1)
        end
      else Some text_end
  end.

(** The same search in the compact parser, which looks at the following
    bytes only when twelve more bytes exist. *)
Fixpoint compact_text_end (data : bytes) (n : nat) (text_end : Z) : option Z :=
  match n with
  | O => Some text_end
  | S n' =>
      if text_end <? len data then
        match item data text_end with
        | None => None
        | Some x =>
            if b2z x =? 0 then
              if (text_end + 12 <? len data) && (2 <=? null_count data text_end)
              then Some text_end
              else compact_text_end data n' (text_end + 1)
            else compact_text_end data n' (text_end + 1)
        end
      else Some text_end
  end.

Definition PADDED_TYPES : list Z :=
  [0x01; 0x02; 0x03; 0x04; 0x05; 0x06; 0x07; 0x08; 0x09; 0x0A; 0x0B; 0x0C;
   0x0F; 0x10; 0x11; 0x12].

Definition RESYNC_TYPES : list Z :=
  [0x01; 0x02; 0x03; 0x04; 0x05; 0x06; 0x07; 0x08; 0x09; 0x0A; 0x0B; 0x0C;
   0x0D; 0x0E; 0x10; 0x11].

Definition COMPACT_TYPES : list Z :=
  [0x01; 0x02; 0x03; 0x04; 0x05; 0x06; 0x07; 0x08; 0x09; 0x0A; 0x0B; 0x0C;
   0x0D; 0x0E; 0x0F; 0x10; 0x11; 0x12].

(** Where a forward search for the next header stopped: at a position it
    accepted (or at the end of its range), or with an exception. *)
Inductive resync_result := Synced (pos : Z) | Unsynced (pos : Z).

(** [next_type] and [next_size] as the padded parser reads them while it looks
    for the next entry. *)
Definition resync_header (data : bytes) (pos : Z) : option (Z * Z) :=
  match unpack_I (slice data (pos + 4) (pos + 8)) with
  | None => None
  | Some next_type =>
  match unpack_I (slice data (pos + 12) (pos + 16)) with
  | None => None
  | Some next_size =>
  match (if pos + 8 <=? len data
         then all_zero data [pos + 4; pos + 5; pos + 6; pos + 7] else Some false) with
  | None => None
  | Some false => Some (next_type, next_size)
  | Some true =>
  match unpack_I (slice data (pos + 8) (pos + 12)) with
  | None => None
  | Some next_type =>
  match unpack_I (slice data (pos + 16) (pos + 20)) with
  | None => None
  | Some next_size => Some (next_type, next_size)
  end end end end end.

(** The padded parser's [while pos < len(self.data) - 24] search for the next
    zero padding followed by a known type and a sane size. *)
Fixpoint resync (data : bytes) (fuel : nat) (pos : Z) : option resync_result :=
  match fuel with
  | O => None
  | S fuel' =>
      if pos <? len data - 24 then
        match all_zero data [pos; pos + 1; pos + 2; pos + 3] with
        | None => Some (Unsynced pos)
        | Some false => resync data fuel' (pos + 1)
        | Some true =>
            match resync_header data pos with
            | None => Some (Unsynced pos)
            | Some (next_type, next_size) =>
                if mem next_type RESYNC_TYPES &&
                   ((next_type =? 0x10) || (1 <=? next_size) && (next_size <=? 10000))
                then Some (Synced pos)
                else resync data fuel' (pos + 1)
            end
        end
      else Some (Synced pos)
  end.

(** The header fields of the padded parser: [(padding_offset, entry_type,
    entry_index, entry_size)]. *)
Definition padded_header (data : bytes) (pos : Z) : option (Z * Z * Z * Z) :=
  match (if pos + 8 <=? len data
         then all_zero data [pos + 4; pos + 5; pos + 6; pos + 7] else Some false) with
  | None => None
  | Some eight =>
  let padding_offset := if eight then 8 else 4 in
  match unpack_I (slice data (pos + padding_offset) (pos + padding_offset + 4)) with
  | None => None
  | Some entry_type =>
  match unpack_I (slice data (pos + padding_offset + 4) (pos + padding_offset + 8)) with
  | None => None
  | Some entry_index =>
  match unpack_I (slice data (pos + padding_offset + 8) (pos + padding_offset + 12)) with
  | None => None
  | Some entry_size => Some (padding_offset, entry_type, entry_index, entry_size)
  end end end end.

(** The size of the text: recomputed for type 0x10, checked against its range
    otherwise.  [Some None] is a rejected size. *)
Definition padded_size (data : bytes) (text_start entry_type entry_size : Z)
    : option (option Z) :=
  if entry_type =? 0x10 then
    match padded_text_end data 500 text_start with
    | None => None
    | Some text_end =>
        let entry_size := text_end - text_start in
        if entry_size <? 1 then Some None else Some (Some entry_size)
    end
  else if (entry_size <? 1) || (10000 <? entry_size) then Some None
  else Some (Some entry_size).

Definition compact_size (data : bytes) (text_start entry_type entry_size : Z)
    : option (option Z) :=
  if entry_type =? 0x10 then
    match compact_text_end data 500 text_start with
    | None => None
    | Some text_end =>
        let entry_size := text_end - text_start in
        if entry_size <? 1 then Some None else Some (Some entry_size)
    end
  else if (entry_size <? 4) || (10000 <? entry_size) then Some None
  else Some (Some entry_size).

(** [if text and self._is_valid_text(text): entries.append({...})] *)
Definition add_entry (entries : list entry) (entry_index entry_type : Z)
    (text : str) (entry_size pos : Z) : list entry :=
  if negb (len text =? 0) && _is_valid_text text
  then entries ++ [extracted entry_index entry_type text entry_size (Some pos)]
  else entries.

(** The body of the [try] block of [_parse_padded_format]. *)
Definition padded_body (data : bytes) (pos : Z) (entries : list entry)
    : option outcome :=
  match all_zero data [pos; pos + 1; pos + 2; pos + 3] with
  | None => Some (Raise pos entries)
  | Some false => Some (Continue (pos + 1) entries)
  | Some true =>
  match padded_header data pos with
  | None => Some (Raise pos entries)
  | Some (padding_offset, entry_type, entry_index, entry_size) =>
  if negb (mem entry_type PADDED_TYPES) then Some (Continue (pos + 1) entries)
  else
  match padded_size data (pos + padding_offset + 12) entry_type entry_size with
  | None => Some (Raise pos entries)
  | Some None => Some (Continue (pos + 1) entries)
  | Some (Some entry_size) =>
  if 100000 <? entry_index then Some (Continue (pos + 1) entries)
  else
    let string_end := pos + padding_offset + 12 + entry_size in
    if len data <? string_end then Some (Break entries)
    else
      let string_data := slice data (pos + padding_offset + 12) string_end in
      let text := utf8_decode (rstrip_nul string_data) in
      let entries := add_entry entries entry_index entry_type text entry_size pos in
      match resync data (S (List.length data)) string_end with
      | None => None
      | Some (Synced pos) => Some (Continue pos entries)
      | Some (Unsynced pos) => Some (Raise pos entries)
      end
  end end end.

Definition _parse_padded_format (data : bytes) : option (list entry) :=
  scan_loop (fun pos => pos <? len data - 24) (padded_body data)
            (S (List.length data)) 0 [].

(** [while pos < len(self.data) - 16 and self.data[pos] == 0x00: pos += 1] *)
Fixpoint skip_padding (data : bytes) (fuel : nat) (pos : Z) : option resync_result :=
  match fuel with
  | O => None
  | S fuel' =>
      if pos <? len data - 16 then
        match item data pos with
        | None => Some (Unsynced pos)
        | Some x =>
            if b2z x =? 0 then skip_padding data fuel' (pos + 1)
            else Some (Synced pos)
        end
      else Some (Synced pos)
  end.

(** The body of the [try] block of [_parse_compact_format]. *)
Definition compact_body (data : bytes) (pos : Z) (entries : list entry)
    : option outcome :=
  match unpack_I (slice data pos (pos + 4)) with
  | None => Some (Raise pos entries)
  | Some entry_type =>
  if negb (mem entry_type COMPACT_TYPES) then Some (Continue (pos + 1) entries)
  else
  match unpack_I (slice data (pos + 4) (pos + 8)) with
  | None => Some (Raise pos entries)
  | Some entry_index =>
  if 100000 <? entry_index then Some (Continue (pos + 1) entries)
  else
  match unpack_I (slice data (pos + 8) (pos + 12)) with
  | None => Some (Raise pos entries)
  | Some entry_size =>
  match compact_size data (pos + 12) entry_type entry_size with
  | None => Some (Raise pos entries)
  | Some None => Some (Continue (pos + 1) entries)
  | Some (Some entry_size) =>
    let string_end := pos + 12 + entry_size in
    if len data <? string_end then Some (Break entries)
    else
      let string_data := slice data (pos + 12) string_end in
      let text := utf8_decode (rstrip_nul string_data) in
      let entries := add_entry entries entry_index entry_type text entry_size pos in
      match skip_padding data (S (List.length data)) string_end with
      | None => None
      | Some (Synced pos) => Some (Continue pos entries)
      | Some (Unsynced pos) => Some (Raise pos entries)
      end
  end end end end.

Definition _parse_compact_format (data : bytes) : option (list entry) :=
  scan_loop (fun pos => pos + 12 <=? len data) (compact_body data)
            (S (List.length data)) 0 [].

(** *** The legacy scan *)

Definition _find_code_start (data : bytes) : Z :=
  let offset := 0x2C in
  let global_data_offset := find data (b "GLOBAL_DATA") in
  let offset := if 0 <? global_data_offset then global_data_offset + 12 else offset in
  let code_start_offset := find data (b "CODE_START_") in
  let offset := if 0 <? code_start_offset then code_start_offset + 12 else offset in
  offset.

Fixpoint until_nul (s : bytes) : bytes :=
  match s with
  | [] => []
  | x :: s' => if b2z x =? 0 then [] else x :: until_nul s'
  end.

(** [decode_utf8_string(data, start)] for [start >= 0]: the text up to the
    next zero byte and the number of bytes consumed. *)
Definition decode_utf8_string (data : bytes) (start : Z) : str * Z :=
  let raw_bytes := until_nul (skipn (Z.to_nat start) data) in
  (utf8_decode raw_bytes, len raw_bytes + 1).

Fixpoint legacy_loop (data : bytes) (fuel : nat) (pos entry_count : Z)
    (entries : list entry) : option (list entry) :=
  match fuel with
  | O => None
  | S fuel' =>
      if pos <? len data - 4 then
        match item data pos with
        | None => legacy_loop data fuel' (pos + 1) entry_count entries
        | Some byte_val =>
            if (b2z byte_val =? 0x00) || (b2z byte_val =? 0xFF)
            then legacy_loop data fuel' (pos + 1) entry_count entries
            else
              let (text, bytes_consumed) := decode_utf8_string data pos in
              if 2 <=? len text then
                let entry_type := if is_speaker_name text then 0x02 else 0x04 in
                legacy_loop data fuel' (pos + bytes_consumed) (entry_count + 1)
                  (entries ++ [extracted entry_count entry_type text (utf8_len text) None])
              else legacy_loop data fuel' (pos + 1) entry_count entries
        end
      else Some entries
  end.

Definition _parse_legacy_utf8 (data : bytes) : option (list entry) :=
  let offset := _find_code_start data in
  legacy_loop data (S (List.length data)) offset 0 [].

(** ** EntryMerger *)

(** [e.get('offset', 0)] *)
Definition offset_key (e : entry) : Z :=
  match offset e with Some o => o | None => 0 end.

(** The order of the keys [(e['index'], e.get('offset', 0))]. *)
Definition index_offset_le (x y : entry) : bool :=
  (index x <? index y) || ((index x =? index y) && (offset_key x <=? offset_key y)).

(** The merge of [decompile_full_format], up to and with its filter. *)
Definition merge_entries (padded_entries compact_entries : list entry) : list entry :=
  let compact_indices := map index compact_entries in
  let entries :=
    compact_entries ++
    filter (fun e => negb (mem (index e) compact_indices)) padded_entries in
  let entries := sort_by index_offset_le entries in
  filter (fun e => _is_valid_text (text e)) entries.

(** ** DialogueAssembler *)

Definition QUOTE : Z := 0x22.

(** [combined_text += ' '] unless it is empty or ends with a space or a
    newline, then [combined_text += part]. *)
Definition add_part (combined_text part : str) : str :=
  match rev combined_text with
  | [] => combined_text ++ part
  | c :: _ =>
      if (c =? 32) || (c =? 10) then combined_text ++ part
      else combined_text ++ [32] ++ part
  end.

(** [s.endswith(('.', '!', '?', '。', '！', '／')) and not
    s.endswith('...') and not s.endswith('。。。')] for [s = t.rstrip()]. *)
Definition ends_with_punct (t : str) : bool :=
  let stripped_text := rstrip t in
  existsb (endswith stripped_text) [u "."; u "!"; u "?"; [0x3002]; [0xFF01]; [0xFF0F]] &&
  negb (endswith stripped_text (u "...")) &&
  negb (endswith stripped_text (u "。。。")).

(** The double quotes of [' '.join(dialogue_parts)] are odd in number. *)
Definition unclosed_quote (dialogue_parts : list str) : bool :=
  count_char QUOTE (join [32] dialogue_parts) mod 2 =? 1.

Definition first_isupper (t : str) : bool :=
  match t with c :: _ => isupper c | [] => false end.

(** The look-ahead for the closing quote.  [rest] is [entries[i:]]. *)
Fixpoint quote_lookahead (rest : list entry) (i : Z) (dialogue_parts : list str)
    : Z * list str :=
  match rest with
  | [] => (i, dialogue_parts)
  | e :: rest' =>
      let next_type := type e in
      let next_text_check := text e in
      if mem next_type [0x0C; 0x0D] then
        quote_lookahead rest' (i + 1) (dialogue_parts ++ [next_text_check])
      else if mem next_type [0x04; 0x06; 0x03; 0x0F] then
        if 0 <? count_char QUOTE next_text_check then
          let dialogue_parts := dialogue_parts ++ [next_text_check] in
          if count_char QUOTE (join [32] dialogue_parts) mod 2 =? 0
          then (i + 1, dialogue_parts)
          else quote_lookahead rest' (i + 1) dialogue_parts
        else if negb (len next_text_check =? 0) && negb (first_isupper next_text_check)
        then quote_lookahead rest' (i + 1) (dialogue_parts ++ [next_text_check])
        else (i, dialogue_parts)
      else (i, dialogue_parts)
  end.

Definition RUN_TYPES : list Z :=
  [0x01; 0x03; 0x04; 0x05; 0x06; 0x08; 0x09; 0x0A; 0x0B; 0x0C; 0x0D; 0x0E;
   0x0F; 0x10; 0x11].

(** The inner [while i < len(entries)] loop after a speaker name: the
    position reached and the parts collected.  [rest] is [entries[i:]]. *)
Fixpoint speaker_run (rest : list entry) (i : Z) (dialogue_parts : list str)
    : Z * list str :=
  match rest with
  | [] => (i, dialogue_parts)
  | next_entry :: rest' =>
      let next_type := type next_entry in
      let next_text := text next_entry in
      if negb (mem next_type RUN_TYPES) then (i, dialogue_parts)
      else if is_name_indicator next_text then (i, dialogue_parts)
      else if startswith (strip next_text) ([QUOTE] ++ u "--") then (i, dialogue_parts)
      else if ends_with_punct next_text then
        let dialogue_parts := dialogue_parts ++ [next_text] in
        if unclosed_quote dialogue_parts
        then quote_lookahead rest' (i + 1) dialogue_parts
        else (i + 1, dialogue_parts)
      else if is_bytecode next_text then speaker_run rest' (i + 1) dialogue_parts
      else
        let next_has_japanese := any_japanese next_text in
        let next_has_english := 2 <? count_alpha next_text in
        if next_has_japanese && next_has_english then (i, dialogue_parts)
        else
          let combined_so_far := join [32] dialogue_parts in
          let combined_has_japanese := any_japanese combined_so_far in
          let combined_has_english := 2 <? count_alpha combined_so_far in
          if negb (len dialogue_parts =? 0) &&
             ((combined_has_japanese && next_has_english && negb next_has_japanese) ||
              (combined_has_english && next_has_japanese && negb next_has_english))
          then (i, dialogue_parts)
          else if negb (len dialogue_parts =? 0) && negb (len next_text =? 0) &&
                  ends_with_punct (last dialogue_parts []) &&
                  negb (unclosed_quote dialogue_parts) &&
                  first_isupper next_text &&
                  negb (startswith next_text (u "I'm")) &&
                  negb (startswith next_text (u "I "))
          then (i, dialogue_parts)
          else speaker_run rest' (i + 1) (dialogue_parts ++ [next_text])
  end.

(** The combined text of a speaker run. *)
Definition join_parts (dialogue_parts : list str) : str :=
  match dialogue_parts with
  | [] => []
  | first :: parts => fold_left add_part parts first
  end.

(** The backward search of a type 0x07 entry for its speaker; [before] is
    [entries[i-1], entries[i-2], ...]. *)
Fixpoint speaker_before (before : list entry) : option str :=
  match before with
  | [] => None
  | prev_entry :: before' =>
      let prev_type := type prev_entry in
      if mem prev_type [0x02; 0x03] then
        if is_speaker_name (text prev_entry) then Some (text prev_entry) else None
      else if mem prev_type [0x04; 0x05; 0x06; 0x07; 0x0D; 0x0E; 0x12] then None
      else speaker_before before'
  end.

(** The forward loop of a type 0x07 entry; [rest] is [entries[j:]].  The
    result is [(i, combined_text)]: [i] moves only when a text is taken. *)
Fixpoint absorb_07 (rest : list entry) (current_index i : Z) (combined_text : str)
    : Z * str :=
  match rest with
  | [] => (i, combined_text)
  | next_entry :: rest' =>
      let next_type := type next_entry in
      let next_text := text next_entry in
      let next_index := index next_entry in
      if negb (mem next_type [0x03; 0x04; 0x05; 0x06; 0x07; 0x08; 0x09; 0x0A;
                              0x0B; 0x0C; 0x0D; 0x0E])
      then (i, combined_text)
      else if (next_type =? 0x07) && negb (next_index =? current_index)
      then (i, combined_text)
      else if is_name_indicator next_text then (i, combined_text)
      else if is_bytecode next_text then absorb_07 rest' current_index i combined_text
      else absorb_07 rest' current_index (i + 1) (add_part combined_text next_text)
  end.

Definition FAMILY : list Z :=
  [0x04; 0x05; 0x06; 0x07; 0x08; 0x09; 0x0A; 0x0B; 0x0C; 0x0D; 0x0E; 0x0F;
   0x10; 0x11].

Definition ABSORBED : list Z :=
  [0x01; 0x03; 0x04; 0x05; 0x06; 0x07; 0x08; 0x09; 0x0A; 0x0B; 0x0C; 0x0D;
   0x0E; 0x0F; 0x10; 0x11].

(** The backward search for [#Name[X]] indicators; [before] is
    [entries[i-1], entries[i-2], ...]. *)
Fixpoint name_before (before : list entry) (name_indicator : option str)
    : option str :=
  match before with
  | [] => name_indicator
  | prev_entry :: before' =>
      if is_name_indicator (text prev_entry)
      then name_before before' (Some (text prev_entry))
      else if mem (type prev_entry) FAMILY then name_indicator
      else name_before before' name_indicator
  end.

(** [sum(1 for c in s if c.isalpha() and ord(c) < 128) > 2] *)
Definition has_ascii_english (s : str) : bool :=
  2 <? len (filter (fun c => isalpha c && (c <? 128)) s).

(** The forward loop of a dialogue entry; [rest] is [entries[j:]].  The
    result is [(j, combined_text)]. *)
Fixpoint absorb (rest : list entry) (j : Z) (combined_text : str) : Z * str :=
  match rest with
  | [] => (j, combined_text)
  | next_entry :: rest' =>
      let next_type := type next_entry in
      let next_text := text next_entry in
      if negb (mem next_type ABSORBED) then (j, combined_text)
      else if is_name_indicator next_text then (j, combined_text)
      else if negb (mem next_type [0x03; 0x0A]) && is_bytecode next_text
      then absorb rest' (j + 1) combined_text
      else
        let combined_has_japanese := any_japanese combined_text in
        let combined_has_english := has_ascii_english combined_text in
        let next_has_japanese := any_japanese next_text in
        let next_has_english := has_ascii_english next_text in
        if combined_has_japanese && next_has_english && negb next_has_japanese
        then (j, combined_text)
        else if combined_has_english && next_has_japanese && negb next_has_english
        then (j, combined_text)
        else if should_combine_entries combined_text next_text
        then absorb rest' (j + 1) (add_part combined_text next_text)
        else (j, combined_text)
  end.

Definition truthy (name_indicator : option str) : bool :=
  match name_indicator with Some (_ :: _) => true | _ => false end.

(** One pass through the body of the main loop of [combine_dialogue_entries],
    for [current = entries[i]], [before = entries[i-1], entries[i-2], ...] and
    [rest = entries[i+1:]]: the next [i] and what is appended to [combined]. *)
Definition assemble_step (before : list entry) (current : entry) (rest : list entry)
    (i : Z) : Z * list entry :=
  let current_text := text current in
  let current_type := type current in
  if mem current_type [0x02; 0x03] then
    if is_speaker_name current_text then
      let speaker := current_text in
      let (i, dialogue_parts) := speaker_run rest (i + 1) [] in
      match dialogue_parts with
      | [] => (i, [])
      | _ => (i, [assembled (index current) (join_parts dialogue_parts) speaker 0x04])
      end
    else
      let text_len := len (strip current_text) in
      let has_japanese := any_japanese current_text in
      if (2 <=? text_len) && has_japanese && negb (is_bytecode current_text)
      then (i + 1, [assembled (index current) current_text [] current_type])
      else if is_name_indicator current_text then (i + 1, [])
      else if negb (is_bytecode current_text)
      then (i + 1, [assembled (index current) current_text [] current_type])
      else (i + 1, [])
  else if current_type =? 0x12 then
    if is_bytecode current_text then (i + 1, [])
    else (i + 1, [assembled (index current) current_text [] 0x12])
  else if current_type =? 0x01 then
    if negb (in_set (lower current_text) ENGLISH_CHOICE_WORDS) then (i + 1, [])
    else (i + 1, [assembled (index current) current_text [] 0x02])
  else if current_type =? 0x07 then
    if is_bytecode current_text then (i + 1, [])
    else
      let speaker_name := speaker_before before in
      let (i, combined_text) := absorb_07 rest (index current) i current_text in
      match speaker_name with
      | Some speaker_name =>
          (i + 1, [assembled (index current) combined_text speaker_name 0x07])
      | None => (i + 1, [assembled (index current) combined_text [] 0x07])
      end
  else if mem current_type FAMILY then
    let name_indicator := name_before before None in
    if is_bytecode current_text then (i + 1, [])
    else
      let text_len := len (strip current_text) in
      let has_japanese := any_japanese current_text in
      if (text_len <? 3) && negb ((2 <=? text_len) && has_japanese) then (i + 1, [])
      else
        let (j, combined_text) := absorb rest (i + 1) current_text in
        let i := j - 1 in
        let combined_text :=
          match name_indicator with
          | Some name => if truthy name_indicator then name ++ [10] ++ combined_text
                         else combined_text
          | None => combined_text
          end in
        let has_japanese := any_japanese combined_text in
        let has_english := 3 <? count_alpha combined_text in
        if has_japanese || has_english then
          (i + 1, [assembled (index current) combined_text
                     (match name_indicator with
                      | Some name => if truthy name_indicator then name else []
                      | None => []
                      end)
                     current_type])
        else (i + 1, [])
  else if is_bytecode current_text then (i + 1, [])
  else
    let text_len := len (strip current_text) in
    let has_japanese := any_japanese current_text in
    if (3 <=? text_len) || ((2 <=? text_len) && has_japanese)
    then (i + 1, [assembled (index current) current_text [] current_type])
    else (i + 1, []).

(** The main [while i < len(entries)] loop.  [None]: out of fuel, or a
    position outside [entries] (an [IndexError]). *)
Fixpoint assemble_loop (entries : list entry) (fuel : nat) (i : Z)
    (combined : list entry) : option (list entry) :=
  match fuel with
  | O => None
  | S fuel' =>
      if i <? len entries then
        match skipn (Z.to_nat i) entries with
        | [] => None
        | current :: rest =>
            let before := rev (firstn (Z.to_nat i) entries) in
            let (i', out) := assemble_step before current rest i in
            assemble_loop entries fuel' i' (combined ++ out)
        end
      else Some combined
  end.

Definition combine_dialogue_entries (entries : list entry) : option (list entry) :=
  match assemble_loop entries (S (List.length entries)) 0 [] with
  | None => None
  | Some combined => group_related_choices combined
  end.

(** [decompile_full_format] *)
Definition decompile_full_format (data : bytes) : option (list entry) :=
  match _parse_padded_format data with
  | None => None
  | Some padded_entries =>
      match _parse_compact_format data with
      | None => None
      | Some compact_entries =>
          combine_dialogue_entries (merge_entries padded_entries compact_entries)
      end
  end.

End Classifier.

(** ** FormatDetector *)

Inductive format := full | dialogue | unknown.

Definition MAGIC : bytes := b "STCM2L".

(** [detect_format]; [None] would be an exception leaving the method. *)
Definition detect_format (data : bytes) : option format :=
  match data with
  | [] => Some unknown
  | _ =>
    if bytes_eqb (slice data 0 6) MAGIC then Some full
    else if 8 <=? len data then
      match unpack_I (slice data 0 4) with
      | None => None
      | Some entry_count =>
          if entry_count <? 10000 then Some dialogue else Some unknown
      end
    else Some unknown
  end.

(** The detector's contract, in the words of the specification. *)
Definition begins_with (m data : bytes) : Prop := exists rest, data = m ++ rest.

Definition plausible_count (data : bytes) : Prop :=
  8 <= len data /\
  exists b0 b1 b2 b3 rest,
    data = b0 :: b1 :: b2 :: b3 :: rest /\
    b2z b0 + 256 * b2z b1 + 65536 * b2z b2 + 16777216 * b2z b3 < 10000.

(** ** OutputFormatter *)

(** [text.replace('#n', '\n')]: the occurrences are replaced from left to
    right, without overlap. *)
Fixpoint replace_hash_n (s : str) : str :=
  match s with
  | [] => []
  | a :: t =>
      match t with
      | c :: s' => if (a =? 35) && (c =? 110) then 10 :: replace_hash_n s'
                   else a :: replace_hash_n t
      | [] => [a]
      end
  end.

(** [re.sub(r'\n+', '\n', text)]: every run of line feeds becomes one line
    feed, that is, a line feed followed by a line feed is dropped. *)
Fixpoint squeeze_newlines (s : str) : str :=
  match s with
  | [] => []
  | a :: t =>
      match t with
      | c :: _ => if (a =? 10) && (c =? 10) then squeeze_newlines t
                  else a :: squeeze_newlines t
      | [] => [a]
      end
  end.

Definition format_text (text : str) : str :=
  let text := replace_hash_n text in
  let text := squeeze_newlines text in
  strip text.

(** ** DialogueFormat *)

(** [struct.unpack('<H', s)[0]]: exactly two bytes, little endian. *)
Definition unpack_H (s : bytes) : option Z :=
  match s with
  | [b0; b1] => Some (b2z b0 + 256 * b2z b1)
  | _ => None
  end.

(** [raw.decode('ascii', errors='replace')]: a byte above 0x7F becomes
    U+FFFD. *)
Definition ascii_decode (s : bytes) : str :=
  map (fun x => if b2z x <? 128 then b2z x else REPLACEMENT) s.

(** [data.rstrip(b'\xff')], for any one byte. *)
Fixpoint lstrip_byte (z : Z) (s : bytes) : bytes :=
  match s with
  | x :: s' => if b2z x =? z then lstrip_byte z s' else s
  | [] => []
  end.

Definition rstrip_byte (z : Z) (s : bytes) : bytes := rev (lstrip_byte z (rev s)).

(** [sorted(set(l))] *)
Definition sorted_set (l : list Z) : list Z := sort_by Z.leb (nodup Z.eq_dec l).

Definition SPEAKER_PREFIXES : list bytes :=
  map b ["yougo"; "her01"; "zara0"; "ness0"; "pear0"; "rich0"; "rath0"; "elza0";
         "tiara"]%string.

(** The body of [for i in range(len(self.data) - 12)], after its [break]:
    whether [i] is appended to [entry_offsets].  [None] is an exception. *)
Definition entry_header_at (data : bytes) (max_entries i : Z) : option bool :=
  match all_zero data [i + 1; i + 3] with
  | None => None
  | Some false => Some false
  | Some true =>
  match unpack_H (slice data i (i + 2)) with
  | None => None
  | Some entry_type =>
  match unpack_H (slice data (i + 2) (i + 4)) with
  | None => None
  | Some entry_index =>
      if (1 <=? entry_type) && (entry_type <=? 100) &&
         (1 <=? entry_index) && (entry_index <=? max_entries) then
        if i + 9 <? len data then
          let speaker_prefix := slice data (i + 4) (i + 9) in
          Some (existsb (bytes_eqb speaker_prefix) SPEAKER_PREFIXES)
        else Some false
      else Some false
  end end end.

(** The [for] loop itself; [n] is the number of values of [i] left. *)
Fixpoint find_entry_offsets (data : bytes) (max_entries : Z) (n : nat) (i : Z)
    (entry_offsets : list Z) : option (list Z) :=
  match n with
  | O => Some entry_offsets
  | S n' =>
      if len data <=? i + 4 then Some entry_offsets
      else
        match entry_header_at data max_entries i with
        | None => None
        | Some true =>
            find_entry_offsets data max_entries n' (i + 1) (entry_offsets ++ [i])
        | Some false => find_entry_offsets data max_entries n' (i + 1) entry_offsets
        end
  end.

(** [while search_pos < next_offset and self.data[search_pos] in (0x00, 0xFF):
    search_pos += 1] *)
Fixpoint skip_fill (data : bytes) (next_offset : Z) (fuel : nat) (search_pos : Z)
    : option Z :=
  match fuel with
  | O => None
  | S fuel' =>
      if search_pos <? next_offset then
        match item data search_pos with
        | None => None
        | Some x =>
            if (b2z x =? 0x00) || (b2z x =? 0xFF)
            then skip_fill data next_offset fuel' (search_pos + 1)
            else Some search_pos
        end
      else Some search_pos
  end.

(** [while text_end_local < next_offset: ...]: the end of the run of bytes
    that are neither 0x00 nor 0xFF. *)
Fixpoint segment_end (data : bytes) (next_offset : Z) (fuel : nat) (text_end_local : Z)
    : option Z :=
  match fuel with
  | O => None
  | S fuel' =>
      if text_end_local <? next_offset then
        match item data text_end_local with
        | None => None
        | Some byte_val =>
            if (b2z byte_val =? 0x00) || (b2z byte_val =? 0xFF)
            then Some text_end_local
            else segment_end data next_offset fuel' (text_end_local + 1)
        end
      else Some text_end_local
  end.

Definition SEGMENT_CODES : list str :=
  map u ["memory_init"; "memory_exit"; "COLLECTION_LINK"; "scene_play"; "suma"]%string.

(** The segments that are kept: more than two characters, no instruction
    name, no [@] or [#] in front. *)
Definition keep_segment (segment_text : str) : bool :=
  (2 <? len segment_text) && negb (in_set segment_text SEGMENT_CODES) &&
  negb (startswith segment_text (u "@")) && negb (startswith segment_text (u "#")).

(** [while search_pos < next_offset: ...]: the text segments between
    [search_pos] and [next_offset]. *)
Fixpoint collect_segments (data : bytes) (next_offset : Z) (fuel : nat)
    (search_pos : Z) (text_segments : list str) : option (list str) :=
  match fuel with
  | O => None
  | S fuel' =>
      if search_pos <? next_offset then
        match skip_fill data next_offset (S (List.length data)) search_pos with
        | None => None
        | Some search_pos =>
            if next_offset <=? search_pos then Some text_segments
            else
              let text_start_local := search_pos in
              match segment_end data next_offset (S (List.length data)) text_start_local with
              | None => None
              | Some text_end_local =>
                  let text_segments :=
                    if text_start_local + 1 <? text_end_local then
                      let segment_bytes := slice data text_start_local text_end_local in
                      let segment_text := utf8_decode segment_bytes in
                      if keep_segment segment_text
                      then text_segments ++ [segment_text]
                      else text_segments
                    else text_segments in
                  collect_segments data next_offset fuel' (text_end_local + 1) text_segments
              end
        end
      else Some text_segments
  end.

(** The text of an entry: the longest segment (the first of them, since
    [sort] is stable), and the other segments of more than five characters
    as notes in brackets. *)
Definition segments_text (text_segments : list str) : str :=
  match sort_by (fun x y => len y <=? len x) text_segments with
  | [] => []
  | text :: others =>
      let notes := filter (fun s => 5 <? len s) others in
      match notes with
      | [] => text
      | _ => text ++ u " [" ++ join (u ", ") notes ++ u "]"
      end
  end.

(** [for idx, offset in enumerate(entry_offsets)]: [later] holds the
    offsets after [offset]. *)
Fixpoint parse_dialogue_entries (data : bytes) (entry_offsets : list Z)
    (entries : list entry) : option (list entry) :=
  match entry_offsets with
  | [] => Some entries
  | offset :: later =>
      if len data <? offset + 8 then Some entries
      else
        match unpack_H (slice data offset (offset + 2)) with
        | None => None
        | Some entry_type =>
        match unpack_H (slice data (offset + 2) (offset + 4)) with
        | None => None
        | Some entry_index =>
          let next_offset := match later with next :: _ => next | [] => len data end in
          let speaker_offset := offset + 4 in
          let speaker_data := slice data speaker_offset next_offset in
          let null_pos := find speaker_data [x00] in
          let (speaker, text_start) :=
            if 0 <=? null_pos then
              (ascii_decode (slice speaker_data 0 null_pos), speaker_offset + null_pos + 1)
            else
              let speaker := ascii_decode (rstrip_byte 0xFF speaker_data) in
              (speaker, speaker_offset + len speaker + 1) in
          match collect_segments data next_offset (S (List.length data)) text_start [] with
          | None => None
          | Some text_segments =>
              let text := segments_text text_segments in
              let entries :=
                if negb (len speaker =? 0) ||
                   (negb (len text =? 0) && (0 <? len (strip text)))
                then entries ++ [assembled entry_index text speaker entry_type]
                else entries in
              parse_dialogue_entries data later entries
          end
        end end
  end.

(** [decompile_dialogue_format].  (The method also stores in the object
    whether the second header word is 8, for [write_output].) *)
Definition decompile_dialogue_format (data : bytes) : option (list entry) :=
  if len data <? 8 then Some []
  else
    match unpack_I (slice data 0 4) with
    | None => None
    | Some entry_count =>
    match unpack_I (slice data 4 8) with
    | None => None
    | Some entry_type_header =>
        let max_entries := entry_count in
        match find_entry_offsets data max_entries (Z.to_nat (len data - 12)) 0 [] with
        | None => None
        | Some entry_offsets =>
            parse_dialogue_entries data (sorted_set entry_offsets) []
        end
    end end.

(** [decompile]; the file is [None] when [read_file] fails. *)
Definition decompile {U : UCD} (file : option bytes) : option (list entry) :=
  match file with
  | None => Some []
  | Some data =>
      match detect_format data with
      | None => None
      | Some dialogue => decompile_dialogue_format data
      | Some full => decompile_full_format data
      | Some unknown => decompile_dialogue_format data
      end
  end.

(** ** Specification vocabulary

    The notions the properties are stated with: the contracts in the words
    of the specification, the invariants of the loops, and the buffers and
    sequences the program is evaluated on. *)

(** [le x y] holds. *)
Definition holds {A : Type} (le : A -> A -> bool) (x y : A) : Prop := le x y = true.

(** The clustering in the words of the specification: going through the
    candidates in order, a candidate joins the forming cluster when its key
    is within 50 of the key of the cluster's first candidate, and opens a new
    cluster otherwise. *)
Section Clustering.
Context {A : Type}.
Variable key : A -> Z.

Definition within (first : Z) (x : A) : bool := key x - first <=? 50.

(** The candidates of [l] that still join the cluster opened at [first], and
    the clusters that follow. *)
Fixpoint clusters_after (first : Z) (l : list A) : list A * list (list A) :=
  match l with
  | [] => ([], [])
  | x :: l' =>
      if within first x then
        let (g, cs) := clusters_after first l' in (x :: g, cs)
      else
        let (g, cs) := clusters_after (key x) l' in ([], (x :: g) :: cs)
  end.

Definition clusters (l : list A) : list (list A) :=
  match l with
  | [] => []
  | x :: l' => let (g, cs) := clusters_after (key x) l' in (x :: g) :: cs
  end.

(** Clusters that follow one another greedily: every member is within 50 of
    the first member of its cluster, and the first member of the next
    cluster is not. *)
Definition opens_beyond (first : Z) (bs : list (list A)) : Prop :=
  match bs with
  | [] => True
  | [] :: _ => False
  | (y :: _) :: _ => within first y = false
  end.

Inductive greedy : list (list A) -> Prop :=
| greedy_nil : greedy []
| greedy_cons x g bs :
    Forall (fun y => within (key x) y = true) g ->
    opens_beyond (key x) bs ->
    greedy bs ->
    greedy ((x :: g) :: bs).

End Clustering.


Ltac split_ifs :=
  repeat match goal with
  | |- context [if ?c then _ else _] => let E := fresh "E" in destruct c eqn:E
  end.

Ltac to_prop :=
  repeat match goal with
  | H : _ && _ = true |- _ => apply andb_true_iff in H; destruct H
  | H : _ && _ = false |- _ => apply andb_false_iff in H; destruct H
  | H : _ || _ = true |- _ => apply orb_true_iff in H; destruct H
  | H : _ || _ = false |- _ => apply orb_false_iff in H; destruct H
  | H : negb _ = true |- _ => apply negb_true_iff in H
  | H : negb _ = false |- _ => apply negb_false_iff in H
  | H : (_ <=? _) = true |- _ => apply Z.leb_le in H
  | H : (_ <=? _) = false |- _ => apply Z.leb_gt in H
  | H : (_ <? _) = true |- _ => apply Z.ltb_lt in H
  | H : (_ <? _) = false |- _ => apply Z.ltb_ge in H
  | H : (_ =? _) = true |- _ => apply Z.eqb_eq in H
  | H : (_ =? _) = false |- _ => apply Z.eqb_neq in H
  end.





(** The offsets recorded by one scan, from each entry to the next. *)
Definition offset_lt (x y : entry) : Prop :=
  match offset x, offset y with
  | Some a, Some c => a < c
  | _, _ => False
  end.

Definition before_pos (mark : Z -> Prop) (pos : Z) (e : entry) : Prop :=
  exists o, offset e = Some o /\ o < pos /\ mark o.

(** What a scan has established when its cursor is at [pos]: the entries are
    in increasing order of offset, each was read at an offset below [pos]
    that satisfies [mark], and each text passed the admission filter. *)
Definition scanned {U : UCD} (mark : Z -> Prop) (pos : Z) (es : list entry) : Prop :=
  0 <= pos /\
  StronglySorted offset_lt es /\
  Forall (before_pos mark pos) es /\
  Forall (fun e => _is_valid_text (text e) = true) es.

(** The byte at an offset, as the two parsers tell it: the padded parser
    reads an entry where the zero padding starts, the compact parser where a
    type between 1 and 18 starts. *)
Definition zero_at (data : bytes) (o : Z) : Prop :=
  exists x, item data o = Some x /\ b2z x = 0.

Definition nonzero_at (data : bytes) (o : Z) : Prop :=
  exists x, item data o = Some x /\ b2z x <> 0.

(** What one pass through a body may do to the list: nothing, or append one
    entry read at [pos], where [mark] holds. *)
Definition grown {U : UCD} (mark : Z -> Prop) (pos : Z) (es es' : list entry) : Prop :=
  es' = es \/
  (mark pos /\ exists entry_index entry_type text entry_size,
     es' = add_entry es entry_index entry_type text entry_size pos).

(** The order of the merged list: by index, then by byte offset. *)
Definition by_index_then_offset (x y : entry) : Prop :=
  index x < index y \/ (index x = index y /\ offset_key x <= offset_key y).

(** The padded entries that pass the merge: those whose index no compact
    entry has. *)
Definition padded_only (padded compact : list entry) : list entry :=
  filter (fun e => negb (mem (index e) (map index compact))) padded.

(** [struct.pack('<I', n)], to write buffers down. *)
Definition byte_of (z : Z) : byte :=
  match Byte.of_N (Z.to_N (z mod 256)) with Some x => x | None => x00 end.

Definition pack_I (n : Z) : bytes :=
  [byte_of n; byte_of (n / 256); byte_of (n / 65536); byte_of (n / 16777216)].

Definition zeros (n : nat) : bytes := repeat x00 n.

(** A compact header [(type, index, size)] followed by its text. *)
Definition compact_entry (t i : Z) (s : string) : bytes :=
  pack_I t ++ pack_I i ++ pack_I (len (b s)) ++ b s.

(** A header of type 4 that declares [size] bytes of text, placed in front
    of a well-formed entry; no buffer here has room for 10000 bytes. *)
Definition compact_candidate (size : Z) : bytes :=
  pack_I 4 ++ pack_I 0 ++ pack_I size ++ compact_entry 4 1 "Hello there!".

Definition padded_candidate (size : Z) : bytes :=
  zeros 4 ++ pack_I 4 ++ pack_I 0 ++ pack_I size ++
  zeros 4 ++ compact_entry 4 1 "Hello there!" ++ zeros 28.




(** A cluster of two to five candidates becomes a choice. *)
Definition convertible {A : Type} (g : list A) : bool :=
  (2 <=? len g) && (len g <=? 5).

(** The text of a candidate is its trimmed text: the text
    [is_choice_candidate] tests and the text that becomes an option. *)
Definition option_text (e : entry) : str := strip (text e).

(** The Choice entry that stands for a cluster: its options are the
    candidate texts in order, its text their join with [" / "]. *)
Definition choice_of (g : list entry) : entry :=
  {| index := match g with first :: _ => index first | [] => 0 end;
     type := 0x02;
     text := join (u " / ") (map option_text g);
     size := None;
     offset := None;
     speaker := Some [];
     is_choice := Some true;
     choice_count := Some (len g);
     choice_options := Some (map option_text g) |}.

(** The key the source clusters by. *)
Definition candidate_index (c : candidate) : Z := index (snd c).

(** The order of an assembled sequence: by index. *)
Definition index_sorted (l : list entry) : Prop :=
  Sorted (fun x y => index x <= index y) l.

(** Every member of a cluster lies within 50 positions after its first. *)
Definition window_of_first (g : list entry) : Prop :=
  match g with
  | [] => False
  | first :: more => Forall (fun y => 0 <= index y - index first <= 50) more
  end.

(** The clusters of the choice candidates of a sequence. *)
Definition choice_clusters {U : UCD} (entries : list entry) : list (list entry) :=
  clusters index (filter is_choice_candidate entries).

(** Blocks after thinning: a block is kept, reduced to its first member, or
    dropped. *)
Inductive thinned : list (list Z) -> list (list Z) -> Prop :=
| thinned_nil : thinned [] []
| thinned_keep x g bs bs' : thinned bs bs' -> thinned ((x :: g) :: bs) ((x :: g) :: bs')
| thinned_first x g bs bs' : thinned bs bs' -> thinned ((x :: g) :: bs) ([x] :: bs')
| thinned_drop g bs bs' : thinned bs bs' -> thinned (g :: bs) bs'.

(** What a cluster leaves among the candidates of the next pass: itself when
    it was not converted, else its Choice entry if that is a candidate. *)
Definition next_candidates {U : UCD} (g : list entry) : list entry :=
  if convertible g then filter is_choice_candidate [choice_of g] else g.

Definition nonempty {A : Type} (l : list A) : bool :=
  match l with [] => false | _ => true end.

Definition yes_no_scene : list entry :=
  [ assembled 1 (u "はい") [] 0x04;
    assembled 2 (u "いいえ") [] 0x04;
    assembled 90 (u "He left the room.") (u "Pearl") 0x04 ].

(** Six candidates, the first with the largest index: a sequence that is
    not in index order. *)
Definition six_candidates : list entry :=
  assembled 100 (u "いいえ") [] 0x04 :: repeat (assembled 0 (u "はい") [] 0x04) 5.

Definition six_candidates_once : list entry :=
  repeat (assembled 0 (u "はい") [] 0x04) 5 ++ [assembled 100 (u "いいえ") [] 0x04].

Definition six_candidates_twice : list entry :=
  [ choice_of (repeat (assembled 0 (u "はい") [] 0x04) 5);
    assembled 100 (u "いいえ") [] 0x04 ].

(** One pass of the main loop moves forward and appends at most one entry,
    under the index of the entry it started from. *)
Definition one_step (current : entry) (i : Z) (r : Z * list entry) : Prop :=
  i < fst r /\
  (snd r = [] \/ exists e, snd r = [e] /\ index e = index current).

(** The entries an outcome carries. *)
Definition outcome_entries (o : outcome) : list entry :=
  match o with
  | Continue _ es => es
  | Break es => es
  | Raise _ es => es
  end.

(** What an entry of the compact parser says about the buffer: at its offset
    stands a header of a known type, an index of at most 100000 and (unless
    the type is 0x10, whose size is searched for) the recorded size; the
    text that follows lies inside the buffer, and the text of the entry is
    its decoding, the zero bytes at its end apart. *)
Definition compact_record (data : bytes) (e : entry) : Prop :=
  exists o sz,
    offset e = Some o /\ size e = Some sz /\
    0 <= o /\ o + 12 + sz <= len data /\
    unpack_I (slice data o (o + 4)) = Some (type e) /\ In (type e) COMPACT_TYPES /\
    unpack_I (slice data (o + 4) (o + 8)) = Some (index e) /\ index e <= 100000 /\
    (if type e =? 0x10 then 1 <= sz <= 500
     else unpack_I (slice data (o + 8) (o + 12)) = Some sz /\ 4 <= sz <= 10000) /\
    text e = utf8_decode (rstrip_nul (slice data (o + 12) (o + 12 + sz))) /\
    text e <> [].

(** The same for the padded parser: the offset is where the zero padding
    starts, the header stands 4 or 8 bytes further. *)
Definition padded_record (data : bytes) (e : entry) : Prop :=
  exists o padding_offset sz,
    offset e = Some o /\ size e = Some sz /\
    0 <= o < len data - 24 /\ (padding_offset = 4 \/ padding_offset = 8) /\
    all_zero data [o; o + 1; o + 2; o + 3] = Some true /\
    (padding_offset = 8 <->
     all_zero data [o + 4; o + 5; o + 6; o + 7] = Some true) /\
    o + padding_offset + 12 + sz <= len data /\
    unpack_I (slice data (o + padding_offset) (o + padding_offset + 4)) = Some (type e) /\
    In (type e) PADDED_TYPES /\
    unpack_I (slice data (o + padding_offset + 4) (o + padding_offset + 8)) =
      Some (index e) /\
    index e <= 100000 /\
    (if type e =? 0x10 then 1 <= sz <= 500
     else unpack_I (slice data (o + padding_offset + 8) (o + padding_offset + 12)) =
            Some sz /\ 1 <= sz <= 10000) /\
    text e = utf8_decode (rstrip_nul (slice data (o + padding_offset + 12)
                                            (o + padding_offset + 12 + sz))) /\
    text e <> [].

(** A record as the compact layout stores it: a header of three little
    endian words, type, index and size, then [size] bytes of text. *)
Definition compact_bytes (r : Z * Z * bytes) : bytes :=
  let '(t, i, s) := r in pack_I t ++ pack_I i ++ pack_I (len s) ++ s.

(** The header fields the compact parser accepts (type 0x10, whose size
    field is a placeholder, apart). *)
Definition compact_header_ok (r : Z * Z * bytes) : Prop :=
  let '(t, i, s) := r in
  In t COMPACT_TYPES /\ t <> 0x10 /\ 0 <= i <= 100000 /\ 4 <= len s <= 10000.

(** The entries of a sequence of records laid out from offset [o] on: one
    for every record whose text is not empty and passes the admission
    filter. *)
Fixpoint records_at {U : UCD} (o : Z) (rs : list (Z * Z * bytes)) : list entry :=
  match rs with
  | [] => []
  | (t, i, s) :: rs' =>
      let text := utf8_decode (rstrip_nul s) in
      (if negb (len text =? 0) && _is_valid_text text
       then [extracted i t text (len s) (Some o)] else []) ++
      records_at (o + 12 + len s) rs'
  end.

(** The loop of a repetition, as [rmatch] runs it. *)
Definition rep_loop {U : UCD} (ic : bool) (r' : re) (lo : nat) (hi : option nat)
    (k : option Z -> str -> bool) : nat -> nat -> option Z -> str -> bool :=
  fix rep (fuel n : nat) (p : option Z) (s0 : str) {struct fuel} : bool :=
    ((lo <=? n)%nat && k p s0) ||
    match fuel with
    | O => false
    | S fuel' =>
        match hi with Some h => (n <? h)%nat | None => true end &&
        rmatch ic r' p s0
          (fun p' s' =>
             (List.length s' <? List.length s0)%nat && rep fuel' (S n) p' s')
    end.

(** The character before the cursor once [ds] has been read. *)
Definition last_seen (p : option Z) (ds : str) : option Z :=
  match rev ds with [] => p | c :: _ => Some c end.

Definition is_digit (c : Z) : Prop := 0x30 <= c <= 0x39.

(** The characters a text recognised as a speaker name is made of: white
    space, zero characters, and the letters of the names in either case. *)
Definition name_letter (c : Z) : bool :=
  existsb (Z.eqb (lower_char c)) (List.concat SPEAKER_NAMES).

(** A Choice entry as the grouping pass builds it: tagged 0x02, marked as a
    choice, with two to five options. *)
Definition is_choice_entry (r : entry) : Prop :=
  type r = 0x02 /\ is_choice r = Some true /\ speaker r = Some [] /\
  exists options,
    choice_options r = Some options /\ choice_count r = Some (len options) /\
    2 <= len options <= 5 /\ text r = join (u " / ") options.

(** Patterns whose matching under [re.IGNORECASE] does not tell a text from
    its lower case: no [\d], no [\b], and no character set that holds the
    Kelvin sign. *)
Fixpoint case_closed (r : re) : bool :=
  match r with
  | Eps | Chr _ | Bol | Eol => true
  | In_ items => negb (existsb (item_in 0x212A) items)
  | Digit | WordB => false
  | Cat r1 r2 | Alt r1 r2 => case_closed r1 && case_closed r2
  | Rep r' _ _ => case_closed r'
  end.

(** What the legacy scan says of each entry: a text of two characters or
    more without a zero character, tagged 0x02 when it is a speaker name and
    0x04 otherwise, sized as its UTF-8 encoding, with no offset. *)
Definition legacy_entry (e : entry) : Prop :=
  2 <= len (text e) /\ ~ In 0 (text e) /\
  type e = (if is_speaker_name (text e) then 0x02 else 0x04) /\
  size e = Some (utf8_len (text e)) /\ offset e = None.

(** The indices are 0, 1, 2, ... in order. *)
Definition numbered_from_0 (es : list entry) : Prop :=
  map index es = map Z.of_nat (seq 0 (List.length es)).

(** The case analysis of the UTF-8 decoder. *)
Ltac decode_cases :=
  repeat first
    [ progress cbv match beta
    | match goal with
      | |- context [if ?c then _ else _] => destruct c eqn:?
      | |- context [match ?l with [] => _ | _ :: _ => _ end] => is_var l; destruct l
      end ].



(** A small file in dialogue format: a header that declares five entries,
    then two entry headers with their speaker and texts. *)
Definition dialogue_buffer : bytes :=
  pack_I 5 ++ pack_I 8 ++
  [x01; x00; x02; x00] ++ b "yougo_a" ++ [x00] ++ b "Hello there" ++ [x00; xff; xff] ++
  b "a longer note" ++ [x00] ++ b "@cmd" ++ [x00] ++
  [x02; x00; x03; x00] ++ b "tiara" ++ [xff; xff; xff; x00] ++ zeros 16.

(** An offset that the first pass of [decompile_dialogue_format] takes for
    an entry header. *)
Definition header_offset (data : bytes) (max_entries o : Z) : Prop :=
  0 <= o < len data - 12 /\ entry_header_at data max_entries o = Some true.

(** What [decompile_dialogue_format] says of each entry, [entry_count] being
    the first word of the file: a type from 1 to 100, an index from 1 to the
    count and of one byte, a speaker that is not empty, and a text that is
    empty or has more than two characters and neither [@] nor [#] in
    front. *)
Definition dialogue_entry (entry_count : Z) (e : entry) : Prop :=
  1 <= type e <= 100 /\ 1 <= index e <= entry_count /\ index e <= 255 /\
  (exists s, speaker e = Some s /\ s <> []) /\
  (text e = [] \/
   (2 < len (text e) /\ startswith (text e) (u "@") = false /\
    startswith (text e) (u "#") = false)) /\
  size e = None /\ offset e = None.

(** ** Properties *)

Lemma bytes_eqb_eq x y : bytes_eqb x y = true <-> x = y.
Proof.
  revert y; induction x as [|a x IH]; intros [|c y]; simpl; split;
    try congruence; try discriminate.
  - intros H. apply andb_true_iff in H as [H1 H2].
    apply Byte.byte_dec_bl in H1. apply IH in H2. congruence.
  - intros H. injection H as -> ->. apply andb_true_iff. split.
    + now apply Byte.byte_dec_lb.
    + now apply IH.
Qed.

Lemma firstn_prefix {A} (m l : list A) :
  firstn (List.length m) l = m <-> exists rest, l = m ++ rest.
Proof.
  split.
  - intros H. exists (skipn (List.length m) l).
    rewrite <- H at 1. symmetry. apply firstn_skipn.
  - intros [rest ->]. rewrite firstn_app, Nat.sub_diag, firstn_all. simpl.
    now rewrite app_nil_r.
Qed.

Lemma magic_slice data : bytes_eqb (slice data 0 6) MAGIC = true <-> begins_with MAGIC data.
Proof.
  rewrite bytes_eqb_eq. unfold slice, begins_with.
  change (Z.to_nat (6 - 0)) with (List.length MAGIC).
  change (Z.to_nat 0) with 0%nat. rewrite skipn_O.
  apply firstn_prefix.
Qed.

Lemma detect_format_nonempty data :
  data <> [] ->
  detect_format data =
    if bytes_eqb (slice data 0 6) MAGIC then Some full
    else if 8 <=? len data then
      match unpack_I (slice data 0 4) with
      | None => None
      | Some entry_count =>
          if entry_count <? 10000 then Some dialogue else Some unknown
      end
    else Some unknown.
Proof. destruct data; [congruence | reflexivity]. Qed.

(** C2: [detect_format] answers [full] exactly on the buffers that begin with
    the six-byte magic tag; otherwise [dialogue] exactly when the buffer has at
    least eight bytes and its first four bytes, little endian, are below
    10000; and [unknown] in every other case.  It never raises. *)
Theorem detect_format_classifies (data : bytes) :
  (detect_format data = Some full <-> begins_with MAGIC data) /\
  (detect_format data = Some dialogue <->
     ~ begins_with MAGIC data /\ plausible_count data) /\
  (detect_format data = Some unknown <->
     ~ begins_with MAGIC data /\ ~ plausible_count data).
Proof.
  assert (Hempty : ~ begins_with MAGIC []).
  { intros [rest H]. discriminate H. }
  assert (Hcount0 : ~ plausible_count []).
  { intros [H _]. unfold len in H. simpl in H. lia. }
  destruct (list_eq_dec Byte.byte_eq_dec data []) as [->|Hne].
  { simpl. split; [|split]; split; intros H; try discriminate H; try reflexivity; tauto. }
  rewrite (detect_format_nonempty data Hne).
  destruct (bytes_eqb (slice data 0 6) MAGIC) eqn:Emagic.
  { apply magic_slice in Emagic.
    split; [|split]; split; intros H; try discriminate H; try reflexivity; tauto. }
  assert (Hno : ~ begins_with MAGIC data).
  { intros H. apply magic_slice in H. congruence. }
  destruct (8 <=? len data) eqn:Elen.
  - apply Z.leb_le in Elen.
    assert (Hfour : exists b0 b1 b2 b3 rest, data = b0 :: b1 :: b2 :: b3 :: rest).
    { unfold len in Elen. destruct data as [|b0 [|b1 [|b2 [|b3 rest]]]];
        simpl in Elen; try lia. now exists b0, b1, b2, b3, rest. }
    destruct Hfour as (b0 & b1 & b2 & b3 & rest & Hd).
    assert (Hslice : slice data 0 4 = [b0; b1; b2; b3]) by (rewrite Hd; reflexivity).
    rewrite Hslice. unfold unpack_I. cbv beta iota.
    set (n := b2z b0 + 256 * b2z b1 + 65536 * b2z b2 + 16777216 * b2z b3).
    assert (Hpc : plausible_count data <-> n < 10000).
    { split.
      - intros (_ & c0 & c1 & c2 & c3 & r & Hd' & Hlt).
        rewrite Hd in Hd'. injection Hd' as -> -> -> -> _. exact Hlt.
      - intros Hlt. split; [exact Elen|]. now exists b0, b1, b2, b3, rest. }
    destruct (n <? 10000) eqn:En.
    + apply Z.ltb_lt in En.
      split; [|split]; split; intros H; try discriminate H; try reflexivity; tauto.
    + apply Z.ltb_ge in En.
      assert (Hn : ~ n < 10000) by lia.
      split; [|split]; split; intros H; try discriminate H; try reflexivity; tauto.
  - apply Z.leb_gt in Elen.
    assert (Hpc : ~ plausible_count data) by (intros [H _]; lia).
    split; [|split]; split; intros H; try discriminate H; try reflexivity; tauto.
Qed.


(** *** The admission filter and the replacement character *)

Lemma contains_char (c : Z) (t : str) : In c t -> contains [c] t = true.
Proof.
  induction t as [|x t IH]; intros H; [destruct H|].
  simpl. destruct H as [->|H].
  - now rewrite Z.eqb_refl.
  - rewrite (IH H). apply orb_true_r.
Qed.

(** C3: a text that contains U+FFFD, the mark a failed decoding leaves, is
    refused by [_is_valid_text], whatever else it is: the test comes before
    the ones that let speaker names and UI choice words through. *)
Theorem replacement_char_is_rejected {U : UCD} (t : str) :
  In REPLACEMENT t -> _is_valid_text t = false.
Proof.
  intros H. unfold _is_valid_text.
  destruct t as [|c t']; [reflexivity|].
  destruct (len (strip (c :: t')) <? 2); [reflexivity|].
  now rewrite (contains_char _ _ H).
Qed.

Lemma replacement_char_is_rejected_witness :
  In REPLACEMENT (u "Pearl" ++ [REPLACEMENT]) /\
  @_is_valid_text ascii_jp (u "Pearl" ++ [REPLACEMENT]) = false.
Proof.
  assert (H : In REPLACEMENT (u "Pearl" ++ [REPLACEMENT])).
  { apply in_or_app. right. now left. }
  split; [exact H|].
  exact (@replacement_char_is_rejected ascii_jp _ H).
Defined.

(** *** Keywords at the start of a text *)

Lemma fold_case_lower (c : Z) : fold_case (lower_char c) = fold_case c.
Proof.
  unfold lower_char.
  destruct (between 0x41 0x5A c) eqn:E1;
    [|destruct (c =? 0x212A) eqn:E2; [|reflexivity]].
  - unfold fold_case. rewrite E1. unfold between in *.
    split_ifs; to_prop; lia.
  - apply Z.eqb_eq in E2. subst c. reflexivity.
Qed.



Lemma lit_cons {U : UCD} ic (a : Z) (kw : str) prev s k :
  rmatch ic (lit (a :: kw)) prev s k =
  rmatch ic (Chr a) prev s (fun p' s' => rmatch ic (lit kw) p' s' k).
Proof. destruct kw; reflexivity. Qed.





(** The same keyword further inside the text does not make it bytecode. *)
Example keyword_inside_is_not_bytecode :
  @is_bytecode ascii_jp (u "Rare cases exist.") = false.
Proof. vm_compute. reflexivity. Qed.

(** *** A quotation split over two fragments *)



(** *** The scanning loops *)

Section ScanLoop.
Variable cond : Z -> bool.
Variable body : Z -> list entry -> option outcome.
Variable limit : Z.
Variable Inv : Z -> list entry -> Prop.
Hypothesis cond_limit : forall pos, cond pos = true -> pos < limit.
Hypothesis body_step : forall pos es,
  Inv pos es -> cond pos = true ->
  match body pos es with
  | Some (Continue pos' es') => pos < pos' /\ Inv pos' es'
  | Some (Break es') => exists p, Inv p es'
  | Some (Raise pos' es') => pos <= pos' /\ Inv (pos' + 1) es'
  | None => False
  end.

(** A scan whose body moves forward ends, with fuel for one pass per byte,
    and keeps what its body keeps. *)
Lemma scan_loop_total : forall fuel pos es,
  Inv pos es -> (Z.to_nat (limit - pos) < fuel)%nat ->
  exists es' p, scan_loop cond body fuel pos es = Some es' /\ Inv p es'.
Proof.
  induction fuel as [|fuel IH]; intros pos es HI Hfuel; [lia|].
  cbn [scan_loop]. destruct (cond pos) eqn:C; [|now exists es, pos].
  pose proof (cond_limit _ C) as Hlt.
  pose proof (body_step _ _ HI C) as Hb.
  destruct (body pos es) as [[pos' es'|es'|pos' es']|]; try contradiction.
  - destruct Hb as [Hp HI']. apply IH; [exact HI'|lia].
  - destruct Hb as [p HI']. now exists es', p.
  - destruct Hb as [Hp HI']. apply IH; [exact HI'|lia].
Qed.

End ScanLoop.

Lemma scanned_later {U : UCD} mark pos pos' es :
  scanned mark pos es -> pos <= pos' -> scanned mark pos' es.
Proof.
  intros (H0 & Hs & Hb & Hv) Hle. repeat split; try assumption; [lia|].
  eapply Forall_impl; [|exact Hb]. intros e (o & Ho & Hlt & Hm). exists o.
  repeat split; [exact Ho|lia|exact Hm].
Qed.

Lemma StronglySorted_snoc {A} (R : A -> A -> Prop) (l : list A) (x : A) :
  StronglySorted R l -> Forall (fun y => R y x) l -> StronglySorted R (l ++ [x]).
Proof.
  induction l as [|a l IH]; intros Hs Hf; simpl.
  - constructor; constructor.
  - apply StronglySorted_inv in Hs as [Hs Ha].
    inversion Hf as [|? ? Hax Hf']; subst.
    constructor; [now apply IH|].
    apply Forall_app. split; [exact Ha|]. now constructor.
Qed.

Lemma scanned_add_entry {U : UCD} mark pos pos' es entry_index entry_type text entry_size :
  scanned mark pos es -> pos < pos' -> mark pos ->
  scanned mark pos' (add_entry es entry_index entry_type text entry_size pos).
Proof.
  intros HI Hlt Hmark. unfold add_entry.
  destruct (negb (len text =? 0) && _is_valid_text text) eqn:E;
    [|apply (scanned_later mark pos); [exact HI|lia]].
  apply andb_true_iff in E as [_ Hvalid].
  destruct HI as (H0 & Hs & Hb & Hv).
  repeat split.
  - lia.
  - apply StronglySorted_snoc; [exact Hs|].
    eapply Forall_impl; [|exact Hb]. intros e (o & Ho & Hlo & _).
    unfold offset_lt. rewrite Ho. simpl. exact Hlo.
  - apply Forall_app. split.
    + eapply Forall_impl; [|exact Hb]. intros e (o & Ho & Hlo & Hm). exists o.
      repeat split; [exact Ho|lia|exact Hm].
    + constructor; [|constructor]. exists pos. repeat split; [exact Hlt|exact Hmark].
  - apply Forall_app. split; [exact Hv|]. constructor; [exact Hvalid|constructor].
Qed.


Lemma all_zero_first data p ps : all_zero data (p :: ps) = Some true -> zero_at data p.
Proof.
  cbn [all_zero]. destruct (item data p) as [x|] eqn:Ei; [|discriminate].
  destruct (b2z x =? 0) eqn:E; [|discriminate].
  intros _. exists x. split; [exact Ei|now apply Z.eqb_eq].
Qed.

Lemma b2z_range x : 0 <= b2z x <= 255.
Proof.
  unfold b2z. pose proof (Byte.to_N_bounded x) as H. lia.
Qed.

Lemma skipn_cons_nth {A} (l : list A) n x rest :
  skipn n l = x :: rest -> nth_error l n = Some x.
Proof.
  revert l. induction n as [|n IH]; intros [|a l]; simpl; try discriminate.
  - now intros [= -> _].
  - apply IH.
Qed.

Lemma unpack_I_four b0 b1 b2 b3 :
  unpack_I [b0; b1; b2; b3] =
  Some (b2z b0 + 256 * b2z b1 + 65536 * b2z b2 + 16777216 * b2z b3).
Proof. reflexivity. Qed.

Lemma unpack_first data pos t :
  0 <= pos -> unpack_I (slice data pos (pos + 4)) = Some t -> 1 <= t <= 255 ->
  nonzero_at data pos.
Proof.
  intros H0 Hu Ht. unfold slice in Hu.
  destruct (skipn (Z.to_nat pos) data) as [|b0 rest] eqn:Es.
  { rewrite firstn_nil in Hu. discriminate Hu. }
  replace (Z.to_nat (pos + 4 - pos)) with 4%nat in Hu by lia.
  destruct rest as [|b1 [|b2 [|b3 rest]]]; try discriminate Hu.
  cbn [firstn] in Hu. rewrite unpack_I_four in Hu.
  assert (Hv : b2z b0 + 256 * b2z b1 + 65536 * b2z b2 + 16777216 * b2z b3 = t)
    by congruence.
  pose proof (b2z_range b0). pose proof (b2z_range b1).
  pose proof (b2z_range b2). pose proof (b2z_range b3).
  exists b0. split; [|lia].
  unfold item. destruct (pos <? 0) eqn:E; [apply Z.ltb_lt in E; lia|].
  eapply skipn_cons_nth. exact Es.
Qed.

Lemma mem_In x l : mem x l = true <-> In x l.
Proof.
  unfold mem. rewrite existsb_exists. split.
  - intros (y & Hy & E). apply Z.eqb_eq in E. now subst.
  - intros H. exists x. split; [exact H|apply Z.eqb_refl].
Qed.

Lemma compact_type_range t : mem t COMPACT_TYPES = true -> 1 <= t <= 255.
Proof.
  intros H. apply mem_In in H. simpl in H.
  repeat (destruct H as [<-|H]; [lia|]). contradiction.
Qed.

Lemma resync_total data : forall fuel pos,
  (Z.to_nat (len data - 24 - pos) < fuel)%nat ->
  exists pos', pos <= pos' /\
    (resync data fuel pos = Some (Synced pos') \/
     resync data fuel pos = Some (Unsynced pos')).
Proof.
  induction fuel as [|fuel IH]; intros pos Hfuel; [lia|].
  cbn [resync]. destruct (pos <? len data - 24) eqn:C;
    [|exists pos; split; [lia|now left]].
  apply Z.ltb_lt in C.
  assert (Hnext : exists pos', pos <= pos' /\
            (resync data fuel (pos + 1) = Some (Synced pos') \/
             resync data fuel (pos + 1) = Some (Unsynced pos'))).
  { destruct (IH (pos + 1)) as (p & Hp & Hr); [lia|]. exists p. split; [lia|exact Hr]. }
  destruct (all_zero data [pos; pos + 1; pos + 2; pos + 3]) as [[|]|];
    [|exact Hnext|exists pos; split; [lia|now right]].
  destruct (resync_header data pos) as [[next_type next_size]|];
    [|exists pos; split; [lia|now right]].
  destruct (mem next_type RESYNC_TYPES &&
            ((next_type =? 16) || (1 <=? next_size) && (next_size <=? 10000)));
    [exists pos; split; [lia|now left]|exact Hnext].
Qed.

Lemma skip_padding_total data : forall fuel pos,
  (Z.to_nat (len data - 16 - pos) < fuel)%nat ->
  exists pos', pos <= pos' /\
    (skip_padding data fuel pos = Some (Synced pos') \/
     skip_padding data fuel pos = Some (Unsynced pos')).
Proof.
  induction fuel as [|fuel IH]; intros pos Hfuel; [lia|].
  cbn [skip_padding]. destruct (pos <? len data - 16) eqn:C;
    [|exists pos; split; [lia|now left]].
  apply Z.ltb_lt in C.
  destruct (item data pos) as [x|]; [|exists pos; split; [lia|now right]].
  destruct (b2z x =? 0); [|exists pos; split; [lia|now left]].
  destruct (IH (pos + 1)) as (p & Hp & Hr); [lia|]. exists p. split; [lia|exact Hr].
Qed.

Lemma padded_header_offset data pos padding_offset entry_type entry_index entry_size :
  padded_header data pos = Some (padding_offset, entry_type, entry_index, entry_size) ->
  padding_offset = 4 \/ padding_offset = 8.
Proof.
  unfold padded_header.
  destruct (if pos + 8 <=? len data then _ else _) as [eight|]; [|discriminate].
  repeat match goal with
  | |- context [match unpack_I ?s with _ => _ end] => destruct (unpack_I s); [|discriminate]
  end.
  intros H. injection H as <- _ _ _. destruct eight; auto.
Qed.

Lemma padded_size_positive data text_start entry_type entry_size sz :
  padded_size data text_start entry_type entry_size = Some (Some sz) -> 1 <= sz.
Proof.
  unfold padded_size. destruct (entry_type =? 16).
  - destruct (padded_text_end data 500 text_start) as [text_end|]; [|discriminate].
    destruct (text_end - text_start <? 1) eqn:E; [discriminate|].
    intros H. injection H as <-. apply Z.ltb_ge in E. lia.
  - destruct ((entry_size <? 1) || (10000 <? entry_size)) eqn:E; [discriminate|].
    intros H. injection H as <-. apply orb_false_iff in E as [E _].
    apply Z.ltb_ge in E. lia.
Qed.

Lemma compact_size_positive data text_start entry_type entry_size sz :
  compact_size data text_start entry_type entry_size = Some (Some sz) -> 1 <= sz.
Proof.
  unfold compact_size. destruct (entry_type =? 16).
  - destruct (compact_text_end data 500 text_start) as [text_end|]; [|discriminate].
    destruct (text_end - text_start <? 1) eqn:E; [discriminate|].
    intros H. injection H as <-. apply Z.ltb_ge in E. lia.
  - destruct ((entry_size <? 4) || (10000 <? entry_size)) eqn:E; [discriminate|].
    intros H. injection H as <-. apply orb_false_iff in E as [E _].
    apply Z.ltb_ge in E. lia.
Qed.

Lemma len_length {A} (l : list A) : Z.to_nat (len l) = List.length l.
Proof. unfold len. apply Nat2Z.id. Qed.

Lemma scanned_grown {U : UCD} mark pos pos' es es' :
  scanned mark pos es -> grown mark pos es es' -> pos < pos' -> scanned mark pos' es'.
Proof.
  intros HI [->|(Hm & i & t & txt & sz & ->)] Hlt.
  - apply (scanned_later _ pos); [exact HI|lia].
  - now apply scanned_add_entry.
Qed.


Lemma padded_body_cases {U : UCD} data pos es :
  0 <= pos -> (pos <? len data - 24) = true ->
  match padded_body data pos es with
  | Some (Continue pos' es') => pos < pos' /\ grown (zero_at data) pos es es'
  | Some (Break es') => es' = es
  | Some (Raise pos' es') => pos <= pos' /\ grown (zero_at data) pos es es'
  | None => False
  end.
Proof.
  intros H0 C. apply Z.ltb_lt in C.
  assert (Hraise : pos <= pos /\ grown (zero_at data) pos es es) by (split; [lia|now left]).
  assert (Hnext : pos < pos + 1 /\ grown (zero_at data) pos es es) by (split; [lia|now left]).
  unfold padded_body.
  destruct (all_zero data [pos; pos + 1; pos + 2; pos + 3]) as [[|]|] eqn:Ez;
    [|exact Hnext|exact Hraise].
  apply all_zero_first in Ez.
  destruct (padded_header data pos) as [[[[padding_offset entry_type] entry_index] entry_size]|] eqn:Eh;
    [|exact Hraise].
  apply padded_header_offset in Eh.
  destruct (negb (mem entry_type PADDED_TYPES)); [exact Hnext|].
  destruct (padded_size data (pos + padding_offset + 12) entry_type entry_size)
    as [[sz|]|] eqn:Es; [|exact Hnext|exact Hraise].
  apply padded_size_positive in Es.
  destruct (100000 <? entry_index); [exact Hnext|].
  destruct (len data <? pos + padding_offset + 12 + sz) eqn:Eend; [reflexivity|].
  set (string_end := pos + padding_offset + 12 + sz) in *.
  assert (Hadd : grown (zero_at data) pos es (add_entry es entry_index entry_type
              (utf8_decode (rstrip_nul (slice data (pos + padding_offset + 12) string_end)))
              sz pos)).
  { right. split; [exact Ez|]. now eexists _, _, _, _. }
  destruct (resync_total data (S (List.length data)) string_end) as (p & Hp & [Hr|Hr]).
  { rewrite <- (len_length data). unfold string_end. lia. }
  - rewrite Hr. split; [unfold string_end in Hp; lia|exact Hadd].
  - rewrite Hr. split; [unfold string_end in Hp; lia|exact Hadd].
Qed.

Lemma compact_body_cases {U : UCD} data pos es :
  0 <= pos -> (pos + 12 <=? len data) = true ->
  match compact_body data pos es with
  | Some (Continue pos' es') => pos < pos' /\ grown (nonzero_at data) pos es es'
  | Some (Break es') => es' = es
  | Some (Raise pos' es') => pos <= pos' /\ grown (nonzero_at data) pos es es'
  | None => False
  end.
Proof.
  intros H0 C. apply Z.leb_le in C.
  assert (Hraise : pos <= pos /\ grown (nonzero_at data) pos es es) by (split; [lia|now left]).
  assert (Hnext : pos < pos + 1 /\ grown (nonzero_at data) pos es es) by (split; [lia|now left]).
  unfold compact_body.
  destruct (unpack_I (slice data pos (pos + 4))) as [entry_type|] eqn:Et; [|exact Hraise].
  destruct (negb (mem entry_type COMPACT_TYPES)) eqn:Em; [exact Hnext|].
  apply negb_false_iff in Em.
  pose proof (unpack_first _ _ _ H0 Et (compact_type_range _ Em)) as Hmark.
  destruct (unpack_I (slice data (pos + 4) (pos + 8))) as [entry_index|]; [|exact Hraise].
  destruct (100000 <? entry_index); [exact Hnext|].
  destruct (unpack_I (slice data (pos + 8) (pos + 12))) as [entry_size|]; [|exact Hraise].
  destruct (compact_size data (pos + 12) entry_type entry_size)
    as [[sz|]|] eqn:Es; [|exact Hnext|exact Hraise].
  apply compact_size_positive in Es.
  destruct (len data <? pos + 12 + sz) eqn:Eend; [reflexivity|].
  set (string_end := pos + 12 + sz) in *.
  assert (Hadd : grown (nonzero_at data) pos es (add_entry es entry_index entry_type
              (utf8_decode (rstrip_nul (slice data (pos + 12) string_end))) sz pos)).
  { right. split; [exact Hmark|]. now eexists _, _, _, _. }
  destruct (skip_padding_total data (S (List.length data)) string_end) as (p & Hp & [Hr|Hr]).
  { rewrite <- (len_length data). unfold string_end. lia. }
  - rewrite Hr. split; [unfold string_end in Hp; lia|exact Hadd].
  - rewrite Hr. split; [unfold string_end in Hp; lia|exact Hadd].
Qed.

Lemma padded_body_step {U : UCD} data pos es :
  scanned (zero_at data) pos es -> (pos <? len data - 24) = true ->
  match padded_body data pos es with
  | Some (Continue pos' es') => pos < pos' /\ scanned (zero_at data) pos' es'
  | Some (Break es') => exists p, scanned (zero_at data) p es'
  | Some (Raise pos' es') => pos <= pos' /\ scanned (zero_at data) (pos' + 1) es'
  | None => False
  end.
Proof.
  intros HI C.
  pose proof (padded_body_cases data pos es (proj1 HI) C) as H.
  destruct (padded_body data pos es) as [[pos' es'|es'|pos' es']|]; [| | |exact H].
  - destruct H as [Hp Hg]. split; [exact Hp|]. now apply (scanned_grown _ pos _ es).
  - subst es'. now exists pos.
  - destruct H as [Hp Hg]. split; [exact Hp|].
    apply (scanned_grown _ pos _ es); [exact HI|exact Hg|lia].
Qed.

Lemma compact_body_step {U : UCD} data pos es :
  scanned (nonzero_at data) pos es -> (pos + 12 <=? len data) = true ->
  match compact_body data pos es with
  | Some (Continue pos' es') => pos < pos' /\ scanned (nonzero_at data) pos' es'
  | Some (Break es') => exists p, scanned (nonzero_at data) p es'
  | Some (Raise pos' es') => pos <= pos' /\ scanned (nonzero_at data) (pos' + 1) es'
  | None => False
  end.
Proof.
  intros HI C.
  pose proof (compact_body_cases data pos es (proj1 HI) C) as H.
  destruct (compact_body data pos es) as [[pos' es'|es'|pos' es']|]; [| | |exact H].
  - destruct H as [Hp Hg]. split; [exact Hp|]. now apply (scanned_grown _ pos _ es).
  - subst es'. now exists pos.
  - destruct H as [Hp Hg]. split; [exact Hp|].
    apply (scanned_grown _ pos _ es); [exact HI|exact Hg|lia].
Qed.

Lemma scanned_start {U : UCD} mark : scanned mark 0 [].
Proof. repeat split; try constructor; lia. Qed.

(** Both structured parsers return, and what they return is in strictly
    increasing order of offset and made of admitted texts. *)
Lemma padded_format_scanned {U : UCD} data :
  exists es p, _parse_padded_format data = Some es /\ scanned (zero_at data) p es.
Proof.
  unfold _parse_padded_format.
  apply (scan_loop_total _ _ (len data) (scanned (zero_at data))).
  - intros pos C. apply Z.ltb_lt in C. lia.
  - intros pos es HI C. now apply padded_body_step.
  - apply scanned_start.
  - rewrite Z.sub_0_r, len_length. lia.
Qed.

Lemma compact_format_scanned {U : UCD} data :
  exists es p, _parse_compact_format data = Some es /\ scanned (nonzero_at data) p es.
Proof.
  unfold _parse_compact_format.
  apply (scan_loop_total _ _ (len data) (scanned (nonzero_at data))).
  - intros pos C. apply Z.leb_le in C. lia.
  - intros pos es HI C. now apply compact_body_step.
  - apply scanned_start.
  - rewrite Z.sub_0_r, len_length. lia.
Qed.

(** C9: each structured strategy returns a list, and in it the recorded byte
    offset grows strictly from each entry to the next. *)
Theorem offsets_strictly_increase {U : UCD} (data : bytes) :
  (exists es, _parse_padded_format data = Some es /\ Sorted offset_lt es) /\
  (exists es, _parse_compact_format data = Some es /\ Sorted offset_lt es).
Proof.
  split.
  - destruct (padded_format_scanned data) as (es & p & He & _ & Hs & _).
    exists es. split; [exact He|]. now apply StronglySorted_Sorted.
  - destruct (compact_format_scanned data) as (es & p & He & _ & Hs & _).
    exists es. split; [exact He|]. now apply StronglySorted_Sorted.
Qed.

(** *** Stable sorting *)

Section Sorting.
Context {A : Type}.
Variable le : A -> A -> bool.
Hypothesis le_total : forall x y, le x y = false -> le y x = true.

Lemma insert_by_perm x l : Permutation (insert_by le x l) (x :: l).
Proof.
  induction l as [|y l IH]; simpl; [reflexivity|].
  destruct (le x y); [reflexivity|].
  rewrite IH. apply perm_swap.
Qed.

Lemma sort_by_perm l : Permutation (sort_by le l) l.
Proof.
  induction l as [|x l IH]; simpl; [reflexivity|].
  rewrite insert_by_perm. now constructor.
Qed.

Lemma insert_by_sorted x l : Sorted (holds le) l -> Sorted (holds le) (insert_by le x l).
Proof.
  induction l as [|y l IH]; intros Hs; simpl.
  - repeat constructor.
  - destruct (le x y) eqn:E.
    + constructor; [exact Hs|]. now constructor.
    + apply Sorted_inv in Hs as [Hs Hy].
      constructor; [now apply IH|].
      destruct l as [|z l]; simpl.
      * constructor. now apply le_total.
      * destruct (le x z); constructor.
        -- now apply le_total.
        -- now apply HdRel_inv in Hy.
Qed.

Lemma sort_by_sorted l : Sorted (holds le) (sort_by le l).
Proof.
  induction l as [|x l IH]; simpl; [constructor|].
  now apply insert_by_sorted.
Qed.

(** Sorting a list that is in order leaves it as it is. *)
Lemma sort_by_sorted_id l : Sorted (holds le) l -> sort_by le l = l.
Proof.
  induction l as [|x l IH]; intros Hs; [reflexivity|].
  apply Sorted_inv in Hs as [Hs Hx].
  simpl. rewrite (IH Hs).
  destruct l as [|y l]; [reflexivity|].
  apply HdRel_inv in Hx. simpl. unfold holds in Hx. now rewrite Hx.
Qed.

End Sorting.

Lemma filter_all {A} (f : A -> bool) l : Forall (fun x => f x = true) l -> filter f l = l.
Proof.
  induction 1 as [|x l Hx _ IH]; simpl; [reflexivity|].
  now rewrite Hx, IH.
Qed.

(** *** The merge of the two strategies *)

Lemma index_offset_le_spec x y :
  index_offset_le x y = true <-> by_index_then_offset x y.
Proof.
  unfold index_offset_le, by_index_then_offset.
  rewrite orb_true_iff, andb_true_iff, Z.ltb_lt, Z.eqb_eq, Z.leb_le. tauto.
Qed.

Lemma index_offset_le_total x y :
  index_offset_le x y = false -> index_offset_le y x = true.
Proof.
  intros H. apply index_offset_le_spec.
  assert (Hn : ~ by_index_then_offset x y).
  { intros Hc. apply index_offset_le_spec in Hc. congruence. }
  unfold by_index_then_offset in *. lia.
Qed.

Lemma by_index_then_offset_trans x y z :
  by_index_then_offset x y -> by_index_then_offset y z -> by_index_then_offset x z.
Proof. unfold by_index_then_offset. lia. Qed.

Lemma sorted_by_index_then_offset l :
  StronglySorted by_index_then_offset (sort_by index_offset_le l).
Proof.
  apply Sorted_StronglySorted.
  - intros x y z. apply by_index_then_offset_trans.
  - pose proof (sort_by_sorted index_offset_le index_offset_le_total l) as H.
    induction H as [|x s Hs IH Hx]; constructor; [exact IH|].
    destruct Hx as [|y s' Hxy]; constructor. now apply index_offset_le_spec.
Qed.

Lemma merge_entries_sorted {U : UCD} padded compact :
  Forall (fun e => _is_valid_text (text e) = true) padded ->
  Forall (fun e => _is_valid_text (text e) = true) compact ->
  merge_entries padded compact =
  sort_by index_offset_le (compact ++ padded_only padded compact).
Proof.
  intros Hp Hc. unfold merge_entries. apply filter_all.
  eapply Permutation_Forall.
  - symmetry. apply sort_by_perm.
  - apply Forall_app. split; [exact Hc|].
    apply Forall_forall. intros e He. apply filter_In in He as [He _].
    rewrite Forall_forall in Hp. now apply Hp.
Qed.

Lemma offsets_disjoint {U : UCD} data p q padded compact e :
  scanned (zero_at data) p padded -> scanned (nonzero_at data) q compact ->
  In e padded -> In e compact -> False.
Proof.
  intros (_ & _ & Hp & _) (_ & _ & Hc & _) Hip Hic.
  rewrite Forall_forall in Hp, Hc.
  destruct (Hp _ Hip) as (o & Ho & _ & x & Hx & Hx0).
  destruct (Hc _ Hic) as (o' & Ho' & _ & x' & Hx' & Hx0').
  rewrite Ho in Ho'. injection Ho' as <-. rewrite Hx in Hx'. injection Hx' as <-.
  contradiction.
Qed.

(** C1: for every buffer both strategies return, and the merged list
    contains every compact entry; contains no padded entry whose index some
    compact entry has; contains every padded entry whose index no compact
    entry has; consists of exactly these entries; and is in order of
    (index, byte offset). *)
Theorem merge_prefers_compact {U : UCD} (data : bytes) :
  exists padded compact,
    _parse_padded_format data = Some padded /\
    _parse_compact_format data = Some compact /\
    (forall c, In c compact -> In c (merge_entries padded compact)) /\
    (forall p, In p padded -> In (index p) (map index compact) ->
               ~ In p (merge_entries padded compact)) /\
    (forall p, In p padded -> ~ In (index p) (map index compact) ->
               In p (merge_entries padded compact)) /\
    Permutation (merge_entries padded compact)
                (compact ++ padded_only padded compact) /\
    StronglySorted by_index_then_offset (merge_entries padded compact).
Proof.
  destruct (padded_format_scanned data) as (padded & p & Ep & Hp).
  destruct (compact_format_scanned data) as (compact & q & Ec & Hc).
  exists padded, compact.
  assert (Hm : merge_entries padded compact =
               sort_by index_offset_le (compact ++ padded_only padded compact)).
  { apply merge_entries_sorted; [apply Hp|apply Hc]. }
  assert (Hperm : Permutation (merge_entries padded compact)
                    (compact ++ padded_only padded compact)).
  { rewrite Hm. apply sort_by_perm. }
  repeat split; try assumption.
  - intros c Hin. eapply Permutation_in; [symmetry; exact Hperm|].
    apply in_or_app. now left.
  - intros e Hin Hidx Hmerged.
    apply (Permutation_in _ Hperm) in Hmerged.
    apply in_app_or in Hmerged as [Hic|Hif].
    + exact (offsets_disjoint _ _ _ _ _ _ Hp Hc Hin Hic).
    + apply filter_In in Hif as [_ Hneg]. apply negb_true_iff in Hneg.
      apply mem_In in Hidx. congruence.
  - intros e Hin Hidx. eapply Permutation_in; [symmetry; exact Hperm|].
    apply in_or_app. right. apply filter_In. split; [exact Hin|].
    apply negb_true_iff. destruct (mem (index e) (map index compact)) eqn:E; [|reflexivity].
    apply mem_In in E. contradiction.
  - rewrite Hm. apply sorted_by_index_then_offset.
Qed.

(** *** A declared span that does not fit *)

(** The rejections that the source answers with [pos += 1; continue]. *)
Lemma compact_bad_type_advances {U : UCD} data pos es entry_type :
  unpack_I (slice data pos (pos + 4)) = Some entry_type ->
  mem entry_type COMPACT_TYPES = false ->
  compact_body data pos es = Some (Continue (pos + 1) es).
Proof. intros H1 H2. unfold compact_body. now rewrite H1, H2. Qed.

Lemma compact_bad_index_advances {U : UCD} data pos es entry_type entry_index :
  unpack_I (slice data pos (pos + 4)) = Some entry_type ->
  mem entry_type COMPACT_TYPES = true ->
  unpack_I (slice data (pos + 4) (pos + 8)) = Some entry_index ->
  100000 < entry_index ->
  compact_body data pos es = Some (Continue (pos + 1) es).
Proof.
  intros H1 H2 H3 H4. unfold compact_body. rewrite H1, H2, H3. simpl.
  apply Z.ltb_lt in H4. now rewrite H4.
Qed.

Lemma compact_bad_size_advances {U : UCD} data pos es entry_type entry_index entry_size :
  unpack_I (slice data pos (pos + 4)) = Some entry_type ->
  mem entry_type COMPACT_TYPES = true -> entry_type <> 0x10 ->
  unpack_I (slice data (pos + 4) (pos + 8)) = Some entry_index ->
  entry_index <= 100000 ->
  unpack_I (slice data (pos + 8) (pos + 12)) = Some entry_size ->
  entry_size < 4 \/ 10000 < entry_size ->
  compact_body data pos es = Some (Continue (pos + 1) es).
Proof.
  intros H1 H2 Hn H3 H4 H5 H6. unfold compact_body. rewrite H1, H2, H3, H5. simpl.
  apply Z.leb_le in H4. rewrite Z.leb_antisym in H4. apply negb_true_iff in H4.
  rewrite H4. unfold compact_size.
  apply Z.eqb_neq in Hn. rewrite Hn.
  assert (E : (entry_size <? 4) || (10000 <? entry_size) = true).
  { apply orb_true_iff. destruct H6 as [H6|H6]; [left|right]; now apply Z.ltb_lt. }
  now rewrite E.
Qed.

(** The one that it answers with [break]: the text would end past the end
    of the buffer. *)
Lemma compact_span_past_end_breaks {U : UCD} data pos es entry_type entry_index entry_size :
  unpack_I (slice data pos (pos + 4)) = Some entry_type ->
  mem entry_type COMPACT_TYPES = true -> entry_type <> 0x10 ->
  unpack_I (slice data (pos + 4) (pos + 8)) = Some entry_index ->
  entry_index <= 100000 ->
  unpack_I (slice data (pos + 8) (pos + 12)) = Some entry_size ->
  4 <= entry_size <= 10000 ->
  len data < pos + 12 + entry_size ->
  compact_body data pos es = Some (Break es).
Proof.
  intros H1 H2 Hn H3 H4 H5 H6 H7. unfold compact_body. rewrite H1, H2, H3, H5. simpl.
  apply Z.leb_le in H4. rewrite Z.leb_antisym in H4. apply negb_true_iff in H4.
  rewrite H4. unfold compact_size.
  apply Z.eqb_neq in Hn. rewrite Hn.
  assert (E : (entry_size <? 4) || (10000 <? entry_size) = false).
  { apply orb_false_iff. split; apply Z.ltb_ge; lia. }
  rewrite E. apply Z.ltb_lt in H7. now rewrite H7.
Qed.

(** C5 (the code departs from it): a candidate header whose size is in range
    but whose text would end past the buffer ends the whole scan.  With the
    declared size 10000 neither parser returns the well-formed entry that
    follows the candidate; with 10001, a size out of range, the cursor moves
    by one byte at the candidate and the entry is found. *)
Theorem span_past_end_ends_scan :
  @_parse_compact_format ascii_jp (compact_candidate 10000) = Some [] /\
  @_parse_compact_format ascii_jp (compact_candidate 10001) =
    Some [extracted 1 4 (u "Hello there!") 12 (Some 12)] /\
  @_parse_padded_format ascii_jp (padded_candidate 10000) = Some [] /\
  @_parse_padded_format ascii_jp (padded_candidate 10001) =
    Some [extracted 1 4 (u "Hello there!") 12 (Some 16)].
Proof. repeat split; vm_compute; reflexivity. Qed.

(** *** Where each strategy starts *)





Lemma find_from_range sub : forall s pos, -1 <= pos -> -1 <= find_from sub s pos.
Proof.
  induction s as [|x s IH]; intros pos Hpos; simpl.
  - destruct (bytes_startswith [] sub); lia.
  - destruct (bytes_startswith (x :: s) sub); [lia|]. apply IH. lia.
Qed.

Lemma find_code_start_positive data : 12 < _find_code_start data.
Proof.
  unfold _find_code_start.
  destruct (0 <? find data (b "CODE_START_")) eqn:E1; [apply Z.ltb_lt in E1; lia|].
  destruct (0 <? find data (b "GLOBAL_DATA")) eqn:E2; [apply Z.ltb_lt in E2; lia|].
  lia.
Qed.









(** *** Clusters of choice candidates *)

Section Clusters.
Context {A : Type}.
Variable key : A -> Z.

Lemma clusters_after_spec : forall l first g cs,
  clusters_after key first l = (g, cs) ->
  l = g ++ List.concat cs /\
  Forall (fun y => within key first y = true) g /\
  opens_beyond key first cs /\ greedy key cs.
Proof.
  induction l as [|x l IH]; intros first g cs H; simpl in H.
  - injection H as <- <-. repeat split; constructor.
  - destruct (within key first x) eqn:E.
    + destruct (clusters_after key first l) as [g' cs'] eqn:E'.
      injection H as <- <-.
      destruct (IH _ _ _ E') as (-> & Hg & Ho & Hgr).
      repeat split; try assumption. now constructor.
    + destruct (clusters_after key (key x) l) as [g' cs'] eqn:E'.
      injection H as <- <-.
      destruct (IH _ _ _ E') as (-> & Hg & Ho & Hgr).
      repeat split; try constructor; assumption.
Qed.

Lemma clusters_concat l : List.concat (clusters key l) = l.
Proof.
  destruct l as [|x l]; [reflexivity|]. unfold clusters.
  destruct (clusters_after key (key x) l) as [g cs] eqn:E.
  apply clusters_after_spec in E as (-> & _). reflexivity.
Qed.

Lemma clusters_greedy l : greedy key (clusters key l).
Proof.
  destruct l as [|x l]; [constructor|]. unfold clusters.
  destruct (clusters_after key (key x) l) as [g cs] eqn:E.
  apply clusters_after_spec in E as (_ & Hg & Ho & Hgr). now constructor.
Qed.

(** Greedy clusters are what the clustering of their concatenation gives. *)
Lemma clusters_after_greedy bs :
  greedy key bs -> forall g first,
  Forall (fun y => within key first y = true) g ->
  opens_beyond key first bs ->
  clusters_after key first (g ++ List.concat bs) = (g, bs).
Proof.
  induction 1 as [|x h bs Hh Hx Hgr IH]; intros g; induction g as [|y g IHg];
    intros first Hg Ho.
  - reflexivity.
  - inversion Hg as [|? ? Hy Hg']; subst.
    change ((y :: g) ++ List.concat []) with (y :: (g ++ List.concat [])).
    cbn [clusters_after]. rewrite Hy. now rewrite (IHg first Hg' Ho).
  - simpl in Ho |- *. rewrite Ho. now rewrite (IH h (key x) Hh Hx).
  - inversion Hg as [|? ? Hy Hg']; subst.
    change ((y :: g) ++ List.concat ((x :: h) :: bs)) with (y :: (g ++ List.concat ((x :: h) :: bs))).
    cbn [clusters_after]. rewrite Hy. now rewrite (IHg first Hg' Ho).
Qed.

Lemma clusters_of_greedy bs : greedy key bs -> clusters key (List.concat bs) = bs.
Proof.
  intros H. destruct H as [|x g bs Hg Ho Hgr]; [reflexivity|].
  simpl. now rewrite (clusters_after_greedy bs Hgr g (key x) Hg Ho).
Qed.

End Clusters.

Lemma clusters_after_map {A B} (f : A -> B) (keyA : A -> Z) (keyB : B -> Z) :
  (forall x, keyB (f x) = keyA x) ->
  forall l first,
  clusters_after keyB first (map f l) =
  (map f (fst (clusters_after keyA first l)),
   map (map f) (snd (clusters_after keyA first l))).
Proof.
  intros Hkey. induction l as [|x l IH]; intros first; [reflexivity|].
  simpl. unfold within. rewrite Hkey.
  destruct (keyA x - first <=? 50).
  - rewrite IH. now destruct (clusters_after keyA first l).
  - rewrite IH. now destruct (clusters_after keyA (keyA x) l).
Qed.

Lemma clusters_map {A B} (f : A -> B) (keyA : A -> Z) (keyB : B -> Z) :
  (forall x, keyB (f x) = keyA x) ->
  forall l, clusters keyB (map f l) = map (map f) (clusters keyA l).
Proof.
  intros Hkey [|x l]; [reflexivity|]. simpl.
  rewrite (clusters_after_map f keyA keyB Hkey), Hkey.
  now destruct (clusters_after keyA (keyA x) l).
Qed.

Lemma len_map {A B} (f : A -> B) l : len (map f l) = len l.
Proof. unfold len. now rewrite length_map. Qed.

Lemma combined_entry_choice first more :
  combined_entry first (first :: more) = choice_of (map snd (first :: more)).
Proof.
  unfold combined_entry, choice_of. cbn [map]. f_equal.
  - now rewrite !map_map.
  - f_equal. cbn [len List.length]. unfold len. cbn [List.length].
    now rewrite !length_map.
  - now rewrite !map_map.
Qed.

(** The inner loop of the source computes the rest of the forming cluster. *)
Lemma nearby_clusters : forall cs first,
  clusters_after candidate_index first cs =
  (fst (nearby first cs), clusters candidate_index (snd (nearby first cs))).
Proof.
  induction cs as [|c cs IH]; intros first; [reflexivity|].
  cbn [clusters_after nearby]. unfold within, candidate_index at 1.
  destruct (index (snd c) - first <=? 50).
  - rewrite IH. now destruct (nearby first cs).
  - cbn [fst snd clusters].
    now destruct (clusters_after candidate_index (candidate_index c) cs).
Qed.

Lemma nearby_shorter : forall cs first,
  (List.length (snd (nearby first cs)) <= List.length cs)%nat.
Proof.
  induction cs as [|c cs IH]; intros first; [reflexivity|].
  cbn [nearby]. destruct (index (snd c) - first <=? 50).
  - specialize (IH first). destruct (nearby first cs). simpl in *. lia.
  - reflexivity.
Qed.

Lemma clusters_cons_nearby c cs :
  clusters candidate_index (c :: cs) =
  (c :: fst (nearby (index (snd c)) cs)) ::
  clusters candidate_index (snd (nearby (index (snd c)) cs)).
Proof.
  cbn [clusters]. now rewrite (nearby_clusters cs (candidate_index c)).
Qed.

(** The outer loop, with fuel for one pass per candidate, converts the
    convertible clusters and only them. *)
Lemma group_loop_clusters : forall fuel cs removed grouped,
  (List.length cs <= fuel)%nat ->
  group_loop fuel cs removed grouped =
  Some (removed ++ List.concat (map (map fst) (filter convertible (clusters candidate_index cs))),
        grouped ++ map (fun g => choice_of (map snd g))
                       (filter convertible (clusters candidate_index cs))).
Proof.
  induction fuel as [|fuel IH]; intros cs removed grouped Hfuel.
  - destruct cs; [|simpl in Hfuel; lia]. simpl. now rewrite !app_nil_r.
  - destruct cs as [|c cs]; [simpl; now rewrite !app_nil_r|].
    rewrite clusters_cons_nearby. cbn [group_loop].
    pose proof (nearby_shorter cs (index (snd c))) as Hshort.
    destruct (nearby (index (snd c)) cs) as [more rest]. cbn [fst snd filter] in *.
    change ((2 <=? len (c :: more)) && (len (c :: more) <=? 5))
      with (convertible (c :: more)).
    simpl in Hfuel.
    destruct (convertible (c :: more)).
    + rewrite IH by lia. cbn [map List.concat].
      rewrite combined_entry_choice. now rewrite <- !app_assoc.
    + now rewrite IH by lia.
Qed.

(** *** Positions in a list *)

Lemma map_snd_enumerate {A} (l : list A) : forall n, map snd (enumerate_from n l) = l.
Proof. induction l as [|x l IH]; intros n; simpl; [reflexivity|]. now rewrite IH. Qed.

Lemma map_fst_enumerate {A} (l : list A) : forall n,
  map fst (enumerate_from n l) = seq n (List.length l).
Proof. induction l as [|x l IH]; intros n; simpl; [reflexivity|]. now rewrite IH. Qed.

Lemma enumerate_NoDup {A} (l : list A) : NoDup (map fst (enumerate l)).
Proof. unfold enumerate. rewrite map_fst_enumerate. apply seq_NoDup. Qed.

Lemma filter_snd_enumerate {A} (p : A -> bool) (l : list A) : forall n,
  map snd (filter (fun pe => p (snd pe)) (enumerate_from n l)) = filter p l.
Proof.
  induction l as [|x l IH]; intros n; simpl; [reflexivity|].
  destruct (p x); simpl; now rewrite IH.
Qed.

Lemma same_position {A} (l : list (nat * A)) x y :
  NoDup (map fst l) -> In x l -> In y l -> fst x = fst y -> x = y.
Proof.
  induction l as [|a l IH]; intros Hnd Hx Hy E; [destruct Hx|].
  simpl in Hnd. apply NoDup_cons_iff in Hnd as [Ha Hnd].
  destruct Hx as [->|Hx], Hy as [->|Hy]; auto.
  - exfalso. apply Ha. rewrite E. now apply in_map.
  - exfalso. apply Ha. rewrite <- E. now apply in_map.
Qed.

Lemma NoDup_filter_fst {A} (p : nat * A -> bool) (l : list (nat * A)) :
  NoDup (map fst l) -> NoDup (map fst (filter p l)).
Proof.
  induction l as [|a l IH]; intros Hnd; simpl; [constructor|].
  apply NoDup_cons_iff in Hnd as [Ha Hnd].
  destruct (p a); simpl; [|now apply IH].
  constructor; [|now apply IH].
  intros Hin. apply Ha. apply in_map_iff in Hin as (y & Ey & Hy).
  apply filter_In in Hy as [Hy _]. rewrite <- Ey. now apply in_map.
Qed.

(** Two blocks that hold the same position are the same block. *)
Lemma same_block {A} (bs : list (list (nat * A))) g g' c c' :
  NoDup (map fst (List.concat bs)) ->
  In g bs -> In g' bs -> In c g -> In c' g' -> fst c = fst c' -> g = g'.
Proof.
  induction bs as [|b0 bs IH]; intros Hnd Hg Hg' Hc Hc' E; [destruct Hg|].
  simpl in Hnd. rewrite map_app in Hnd.
  assert (Hdisj : forall x y, In x b0 -> In y (List.concat bs) -> fst x <> fst y).
  { intros x y Hx Hy Exy.
    apply NoDup_app_remove_l in Hnd as Hnd'.
    revert Hnd. generalize (in_map fst _ _ Hx), (in_map fst _ _ Hy). rewrite Exy.
    intros H1 H2 Hnd. clear - H1 H2 Hnd.
    induction (map fst b0) as [|z zs IHz]; [destruct H1|].
    simpl in Hnd. apply NoDup_cons_iff in Hnd as [Hz Hnd].
    destruct H1 as [->|H1]; [|now apply IHz].
    apply Hz. apply in_or_app. now right. }
  destruct Hg as [->|Hg], Hg' as [->|Hg']; auto.
  - exfalso. apply (Hdisj c c' Hc); [|exact E].
    apply in_concat. now exists g'.
  - exfalso. apply (Hdisj c' c Hc'); [|now symmetry].
    apply in_concat. now exists g.
  - apply NoDup_app_remove_l in Hnd. now apply (IH Hnd).
Qed.

Lemma removed_position {A} (p : list (nat * A) -> bool) (bs : list (list (nat * A))) n :
  In n (List.concat (map (map fst) (filter p bs))) <->
  exists g c, In g bs /\ p g = true /\ In c g /\ fst c = n.
Proof.
  rewrite in_concat. split.
  - intros (ps & Hps & Hn). apply in_map_iff in Hps as (g & <- & Hg).
    apply filter_In in Hg as [Hg Hp]. apply in_map_iff in Hn as (c & <- & Hc).
    now exists g, c.
  - intros (g & c & Hg & Hp & Hc & <-). exists (map fst g). split.
    + apply in_map. apply filter_In. now split.
    + now apply in_map.
Qed.

Lemma existsb_position n (removed : list nat) :
  existsb (Nat.eqb n) removed = true <-> In n removed.
Proof.
  rewrite existsb_exists. split.
  - intros (m & Hm & E). apply Nat.eqb_eq in E. now subst.
  - intros H. exists n. split; [exact H|apply Nat.eqb_refl].
Qed.

Lemma filter_none {A} (f : A -> bool) l :
  (forall x, In x l -> f x = false) -> filter f l = [].
Proof.
  induction l as [|x l IH]; intros H; simpl; [reflexivity|].
  rewrite (H x) by now left. apply IH. intros y Hy. apply H. now right.
Qed.

(** Taking away the positions of the blocks that satisfy [p] leaves the
    other blocks. *)
Lemma filter_not_removed_blocks (p : list candidate -> bool) (all bs : list (list candidate)) :
  NoDup (map fst (List.concat all)) -> incl bs all ->
  filter (not_removed (List.concat (map (map fst) (filter p all)))) (List.concat bs) =
  List.concat (filter (fun g => negb (p g)) bs).
Proof.
  intros Hnd. induction bs as [|g bs IH]; intros Hincl; [reflexivity|].
  assert (IH' := IH (fun x Hx => Hincl x (or_intror Hx))). clear IH.
  cbn [List.concat filter]. rewrite filter_app. unfold candidate in *. rewrite IH'.
  assert (Hg : In g all) by (apply Hincl; now left).
  destruct (p g) eqn:Ep; cbn [negb List.concat].
  - rewrite filter_none; [reflexivity|].
    intros c Hc. unfold not_removed.
    apply negb_false_iff. apply existsb_position.
    apply removed_position. now exists g, c.
  - f_equal. apply filter_all. apply Forall_forall. intros c Hc. unfold not_removed.
    apply negb_true_iff. destruct (existsb _ _) eqn:E; [|reflexivity].
    apply existsb_position, removed_position in E as (g' & c' & Hg' & Hp' & Hc' & E).
    rewrite (same_block all g' g c' c Hnd Hg' Hg Hc' Hc E) in Hp'. congruence.
Qed.

(** *** What the grouping returns *)

Lemma index_le_total x y : index_le x y = false -> index_le y x = true.
Proof. unfold index_le. intros H. apply Z.leb_gt in H. apply Z.leb_le. lia. Qed.

Lemma index_sorted_holds l : index_sorted l <-> Sorted (holds index_le) l.
Proof.
  unfold index_sorted.
  split; intros H; induction H as [|x l Hs IH Hx]; constructor; try assumption;
    destruct Hx as [|y l' Hxy]; constructor; unfold holds, index_le in *;
    now apply Z.leb_le.
Qed.

Lemma index_sorted_strongly l :
  index_sorted l -> StronglySorted (fun x y => index x <= index y) l.
Proof.
  apply Sorted_StronglySorted. intros x y z. lia.
Qed.

Lemma filter_partition {A} (p : A -> bool) (l : list A) :
  Permutation l (filter p l ++ filter (fun x => negb (p x)) l).
Proof.
  induction l as [|x l IH]; simpl; [reflexivity|].
  destruct (p x); simpl.
  - now constructor.
  - rewrite <- Permutation_middle. now constructor.
Qed.

Lemma filter_filter_comm {A} (p q : A -> bool) (l : list A) :
  filter p (filter q l) = filter q (filter p l).
Proof.
  induction l as [|x l IH]; simpl; [reflexivity|].
  destruct (p x) eqn:Ep, (q x) eqn:Eq; simpl; rewrite ?Ep, ?Eq, IH; reflexivity.
Qed.

Lemma convertible_map {A B} (f : A -> B) (g : list A) :
  convertible (map f g) = convertible g.
Proof. unfold convertible. now rewrite len_map. Qed.

Lemma filter_convertible_map {A B} (f : A -> B) (bs : list (list A)) :
  filter convertible (map (map f) bs) = map (map f) (filter convertible bs).
Proof.
  induction bs as [|g bs IH]; simpl; [reflexivity|].
  rewrite convertible_map. destruct (convertible g); simpl; now rewrite IH.
Qed.

Lemma filter_unconvertible_map {A B} (f : A -> B) (bs : list (list A)) :
  filter (fun g => negb (convertible g)) (map (map f) bs) =
  map (map f) (filter (fun g => negb (convertible g)) bs).
Proof.
  induction bs as [|g bs IH]; simpl; [reflexivity|].
  rewrite convertible_map. destruct (convertible g); simpl; now rewrite IH.
Qed.

Lemma StronglySorted_app_l {A} (R : A -> A -> Prop) l1 l2 :
  StronglySorted R (l1 ++ l2) -> StronglySorted R l1.
Proof.
  induction l1 as [|x l1 IH]; intros H; [constructor|].
  simpl in H. apply StronglySorted_inv in H as [Hs Hx].
  constructor; [now apply IH|]. apply Forall_app in Hx. apply Hx.
Qed.

Lemma StronglySorted_app_r {A} (R : A -> A -> Prop) l1 l2 :
  StronglySorted R (l1 ++ l2) -> StronglySorted R l2.
Proof.
  induction l1 as [|x l1 IH]; intros H; [exact H|].
  simpl in H. apply StronglySorted_inv in H as [Hs _]. now apply IH.
Qed.

Lemma StronglySorted_block {A} (R : A -> A -> Prop) bs g :
  StronglySorted R (List.concat bs) -> In g bs -> StronglySorted R g.
Proof.
  induction bs as [|b0 bs IH]; intros Hs Hin; [destruct Hin|].
  simpl in Hs. destruct Hin as [->|Hin].
  - now apply StronglySorted_app_l in Hs.
  - apply IH; [|exact Hin]. now apply StronglySorted_app_r in Hs.
Qed.

Lemma StronglySorted_filter {A} (R : A -> A -> Prop) (p : A -> bool) l :
  StronglySorted R l -> StronglySorted R (filter p l).
Proof.
  induction 1 as [|x l Hs IH Hx]; simpl; [constructor|].
  destruct (p x); [|exact IH].
  constructor; [exact IH|].
  apply Forall_forall. intros y Hy. apply filter_In in Hy as [Hy _].
  rewrite Forall_forall in Hx. now apply Hx.
Qed.

Lemma index_sorted_filter (p : entry -> bool) l :
  index_sorted l -> index_sorted (filter p l).
Proof.
  intros H. apply StronglySorted_Sorted, StronglySorted_filter.
  now apply index_sorted_strongly.
Qed.

(** In a sequence sorted by index the clusters are windows of width 50. *)
Lemma clusters_windows (l : list entry) :
  index_sorted l -> Forall window_of_first (clusters index l).
Proof.
  intros Hs. apply index_sorted_strongly in Hs.
  pose proof (clusters_greedy index l) as Hgr.
  rewrite <- (clusters_concat index l) in Hs.
  apply Forall_forall. intros g Hg.
  pose proof (StronglySorted_block _ _ _ Hs Hg) as Hsg.
  assert (Hmem : forall bs, greedy index bs -> In g bs ->
            exists x more, g = x :: more /\ Forall (fun y => within index (index x) y = true) more).
  { intros bs H. induction H as [|x more bs' Hmore _ _ IH]; intros Hin; [destruct Hin|].
    destruct Hin as [<-|Hin]; [now exists x, more|now apply IH]. }
  destruct (Hmem _ Hgr Hg) as (x & more & -> & Hmore).
  apply StronglySorted_inv in Hsg as [_ Hx].
  simpl. apply Forall_forall. intros y Hy.
  rewrite Forall_forall in Hx, Hmore.
  specialize (Hx y Hy). specialize (Hmore y Hy).
  unfold within in Hmore. apply Z.leb_le in Hmore. lia.
Qed.

(** What is kept of [entries]: the entries that are no candidates, and the
    candidates of the clusters that are not converted. *)
Lemma kept_entries {U : UCD} (entries : list entry) :
  let cands := filter (fun pe => is_choice_candidate (snd pe)) (enumerate entries) in
  let removed := List.concat (map (map fst)
                   (filter convertible (clusters candidate_index cands))) in
  Permutation
    (map snd (filter (not_removed removed) (enumerate entries)))
    (filter (fun e => negb (is_choice_candidate e)) entries ++
     List.concat (filter (fun g => negb (convertible g)) (choice_clusters entries))).
Proof.
  intros cands removed.
  set (enum := enumerate entries).
  set (isc := fun pe : nat * entry => is_choice_candidate (snd pe)).
  assert (Hnd : NoDup (map fst enum)) by apply enumerate_NoDup.
  assert (Hcl : List.concat (clusters candidate_index cands) = cands)
    by apply clusters_concat.
  assert (Hndc : NoDup (map fst (List.concat (clusters candidate_index cands)))).
  { rewrite Hcl. now apply NoDup_filter_fst. }
  (* the candidates that stay *)
  assert (Hcand : filter isc (filter (not_removed removed) enum) =
                  List.concat (filter (fun g => negb (convertible g))
                                 (clusters candidate_index cands))).
  { rewrite filter_filter_comm. change (filter isc enum) with cands.
    transitivity (filter (not_removed removed)
                    (List.concat (clusters candidate_index cands)));
      [now rewrite Hcl|].
    apply filter_not_removed_blocks; [exact Hndc|apply incl_refl]. }
  (* the others all stay *)
  assert (Hother : filter (fun pe => negb (isc pe)) (filter (not_removed removed) enum) =
                   filter (fun pe => negb (isc pe)) enum).
  { rewrite filter_filter_comm. apply filter_all. apply Forall_forall.
    intros pe Hpe. apply filter_In in Hpe as [Hpe Hno]. apply negb_true_iff in Hno.
    unfold not_removed. apply negb_true_iff.
    destruct (existsb _ _) eqn:E; [|reflexivity].
    apply existsb_position, removed_position in E as (g & c & Hg & _ & Hc & E).
    assert (Hcc : In c cands).
    { rewrite <- Hcl. apply in_concat. now exists g. }
    apply filter_In in Hcc as [Hce Hci].
    rewrite (same_position enum c pe Hnd Hce Hpe E) in Hci.
    unfold isc in Hno. congruence. }
  rewrite (Permutation_map snd (filter_partition isc (filter (not_removed removed) enum))).
  rewrite map_app, Hcand, Hother, Permutation_app_comm.
  apply Permutation_app.
  - unfold isc, enum, enumerate.
    now rewrite (filter_snd_enumerate (fun e => negb (is_choice_candidate e))).
  - unfold choice_clusters.
    rewrite <- (filter_snd_enumerate is_choice_candidate entries 0).
    fold (enumerate entries). fold enum. fold isc. fold cands.
    rewrite (clusters_map snd candidate_index index) by reflexivity.
    rewrite filter_unconvertible_map, concat_map. reflexivity.
Qed.

(** What the pass returns, for any sequence: the entries that are no
    candidates, the candidates of the clusters left as they are, and one
    Choice entry per converted cluster; in index order when the sequence
    was. *)
Lemma group_related_choices_result {U : UCD} (entries : list entry) :
  exists result,
    group_related_choices entries = Some result /\
    Permutation result
      (filter (fun e => negb (is_choice_candidate e)) entries ++
       List.concat (filter (fun g => negb (convertible g)) (choice_clusters entries)) ++
       map choice_of (filter convertible (choice_clusters entries))) /\
    (index_sorted entries -> index_sorted result).
Proof.
  unfold group_related_choices.
  set (cands := filter (fun pe => is_choice_candidate (snd pe)) (enumerate entries)).
  assert (Hcands : map snd cands = filter is_choice_candidate entries)
    by apply filter_snd_enumerate.
  assert (Hcl : choice_clusters entries = map (map snd) (clusters candidate_index cands)).
  { unfold choice_clusters. rewrite <- Hcands.
    now apply (clusters_map snd candidate_index index). }
  destruct cands as [|c cands'] eqn:Ec.
  - exists entries. split; [reflexivity|]. split; [|auto].
    unfold choice_clusters. rewrite <- Hcands. simpl. rewrite app_nil_r.
    rewrite filter_all; [reflexivity|].
    apply Forall_forall. intros e He. apply negb_true_iff.
    destruct (is_choice_candidate e) eqn:E; [|reflexivity].
    assert (Hin : In e (filter is_choice_candidate entries)) by (apply filter_In; now split).
    rewrite <- Hcands in Hin. destruct Hin.
  - rewrite <- Ec in *. rewrite group_loop_clusters by reflexivity.
    cbn [app]. eexists. split; [reflexivity|]. split.
    + rewrite sort_by_perm. rewrite app_assoc. apply Permutation_app.
      * subst cands. apply kept_entries.
      * rewrite Hcl, filter_convertible_map, map_map. reflexivity.
    + intros _. apply index_sorted_holds. apply sort_by_sorted. apply index_le_total.
Qed.

(** C8: on a sequence in index order, as the assembler produces it, the
    choice candidates fall into clusters, each made of the candidates within
    50 positions after its first one and followed by a candidate further
    away; the pass returns, in index order, the entries that are no
    candidates, the candidates of the clusters of one or of more than five
    members, and one Choice entry for each cluster of two to five members,
    whose options are the (trimmed) candidate texts in order and whose text
    is their join with the separator. *)
Theorem choice_grouping {U : UCD} (entries : list entry) :
  index_sorted entries ->
  List.concat (choice_clusters entries) = filter is_choice_candidate entries /\
  greedy index (choice_clusters entries) /\
  Forall window_of_first (choice_clusters entries) /\
  exists result,
    group_related_choices entries = Some result /\
    Permutation result
      (filter (fun e => negb (is_choice_candidate e)) entries ++
       List.concat (filter (fun g => negb (convertible g)) (choice_clusters entries)) ++
       map choice_of (filter convertible (choice_clusters entries))) /\
    index_sorted result.
Proof.
  intros Hsorted.
  split; [apply clusters_concat|]. split; [apply clusters_greedy|].
  split; [apply clusters_windows; now apply index_sorted_filter|].
  destruct (group_related_choices_result entries) as (result & Hr & Hp & Hs).
  exists result. auto.
Qed.

(** *** Grouping twice *)

Lemma Permutation_filter' {A} (p : A -> bool) (l l' : list A) :
  Permutation l l' -> Permutation (filter p l) (filter p l').
Proof.
  induction 1 as [|x l l' _ IH|x y l|l l' l'' _ IH1 _ IH2]; simpl.
  - constructor.
  - destruct (p x); [now constructor|exact IH].
  - destruct (p x), (p y); try reflexivity. apply perm_swap.
  - now transitivity (filter p l').
Qed.

Lemma StronglySorted_app {A} (R : A -> A -> Prop) l1 l2 :
  StronglySorted R l1 -> StronglySorted R l2 ->
  (forall x y, In x l1 -> In y l2 -> R x y) ->
  StronglySorted R (l1 ++ l2).
Proof.
  induction l1 as [|a l1 IH]; intros H1 H2 Hc; [exact H2|].
  apply StronglySorted_inv in H1 as [H1 Ha]. simpl. constructor.
  - apply IH; [exact H1|exact H2|]. intros x y Hx Hy. apply Hc; [now right|exact Hy].
  - apply Forall_app. split; [exact Ha|].
    apply Forall_forall. intros y Hy. apply Hc; [now left|exact Hy].
Qed.

Lemma StronglySorted_app_cross {A} (R : A -> A -> Prop) l1 l2 :
  StronglySorted R (l1 ++ l2) -> forall x y, In x l1 -> In y l2 -> R x y.
Proof.
  induction l1 as [|a l1 IH]; intros H x y Hx Hy; [destruct Hx|].
  simpl in H. apply StronglySorted_inv in H as [H Ha].
  destruct Hx as [->|Hx].
  - rewrite Forall_forall in Ha. apply Ha. apply in_or_app. now right.
  - now apply IH.
Qed.

(** Two sorted lists of integers with the same elements are equal. *)
Lemma sorted_perm_eq (l1 l2 : list Z) :
  StronglySorted Z.le l1 -> StronglySorted Z.le l2 -> Permutation l1 l2 -> l1 = l2.
Proof.
  revert l2. induction l1 as [|x l1 IH]; intros l2 H1 H2 Hp.
  - apply Permutation_nil in Hp. now subst.
  - destruct l2 as [|y l2]; [apply Permutation_sym, Permutation_nil in Hp; discriminate|].
    apply StronglySorted_inv in H1 as [H1 Hx]. apply StronglySorted_inv in H2 as [H2 Hy].
    rewrite Forall_forall in Hx, Hy.
    assert (E : x = y).
    { assert (Hyx : In y (x :: l1)) by (apply (Permutation_in _ (Permutation_sym Hp)); now left).
      assert (Hxy : In x (y :: l2)) by (apply (Permutation_in _ Hp); now left).
      destruct Hyx as [->|Hyx]; [reflexivity|].
      destruct Hxy as [->|Hxy]; [reflexivity|].
      specialize (Hx _ Hyx). specialize (Hy _ Hxy). lia. }
    subst y. f_equal. apply IH; try assumption.
    now apply Permutation_cons_inv in Hp.
Qed.

Lemma thinned_incl bs bs' :
  thinned bs bs' -> forall y, In y (List.concat bs') -> In y (List.concat bs).
Proof.
  induction 1 as [|x g bs bs' _ IH|x g bs bs' _ IH|g bs bs' _ IH]; intros y Hy.
  - exact Hy.
  - simpl in *. destruct Hy as [Hy|Hy]; [now left|]. right.
    apply in_app_or in Hy as [Hy|Hy]; apply in_or_app; [now left|right; now apply IH].
  - simpl in *. destruct Hy as [Hy|Hy]; [now left|]. right.
    apply in_or_app. right. now apply IH.
  - simpl. apply in_or_app. right. now apply IH.
Qed.

Lemma thinned_sorted bs bs' :
  thinned bs bs' -> StronglySorted Z.le (List.concat bs) ->
  StronglySorted Z.le (List.concat bs').
Proof.
  induction 1 as [|x g bs bs' Ht IH|x g bs bs' Ht IH|g bs bs' Ht IH]; intros Hs.
  - exact Hs.
  - cbn [List.concat] in *.
    apply StronglySorted_app.
    + now apply StronglySorted_app_l in Hs.
    + apply IH. now apply StronglySorted_app_r in Hs.
    + intros a c Ha Hc. apply (StronglySorted_app_cross _ _ _ Hs); [exact Ha|].
      now apply (thinned_incl _ _ Ht).
  - cbn [List.concat] in *.
    apply (StronglySorted_app _ [x]).
    + repeat constructor.
    + apply IH. now apply StronglySorted_app_r in Hs.
    + intros a c [<-|[]] Hc. apply (StronglySorted_app_cross _ _ _ Hs); [now left|].
      now apply (thinned_incl _ _ Ht).
  - cbn [List.concat] in Hs. apply IH. now apply StronglySorted_app_r in Hs.
Qed.

(** The first member of what follows a block is still too far from the
    block's first member after thinning. *)
Lemma thinned_opens_beyond first bs bs' :
  thinned bs bs' -> greedy id bs -> StronglySorted Z.le (List.concat bs) ->
  opens_beyond id first bs -> opens_beyond id first bs'.
Proof.
  intros Ht Hgr Hs Ho.
  destruct bs' as [|[|y' g'] bs'']; [exact I| |].
  - exfalso. clear - Ht. remember ([] :: bs'') as t eqn:E. revert E.
    induction Ht; intros E; try discriminate; auto.
  - simpl. unfold within, id.
    assert (Hy' : In y' (List.concat bs)).
    { apply (thinned_incl _ _ Ht). simpl. now left. }
    destruct Hgr as [|x g bs0 Hg Hx Hgr]; [destruct Hy'|].
    simpl in Ho. unfold within, id in Ho. apply Z.leb_gt in Ho.
    cbn [List.concat app] in Hs, Hy'.
    apply StronglySorted_inv in Hs as [_ Hx'].
    rewrite Forall_forall in Hx'.
    apply Z.leb_gt. destruct Hy' as [<-|Hy']; [lia|].
    specialize (Hx' _ Hy'). lia.
Qed.

Lemma thinned_greedy bs bs' :
  thinned bs bs' -> greedy id bs -> StronglySorted Z.le (List.concat bs) ->
  greedy id bs'.
Proof.
  induction 1 as [|x g bs bs' Ht IH|x g bs bs' Ht IH|g bs bs' Ht IH]; intros Hgr Hs.
  - constructor.
  - inversion Hgr as [|? ? ? Hg Ho Hgr']; subst.
    cbn [List.concat] in Hs.
    pose proof (StronglySorted_app_r _ _ _ Hs) as Hs'.
    constructor; [exact Hg| |now apply IH].
    apply (thinned_opens_beyond (id x) bs bs' Ht Hgr' Hs' Ho).
  - inversion Hgr as [|? ? ? Hg Ho Hgr']; subst.
    cbn [List.concat] in Hs.
    pose proof (StronglySorted_app_r _ _ _ Hs) as Hs'.
    constructor; [constructor| |now apply IH].
    apply (thinned_opens_beyond (id x) bs bs' Ht Hgr' Hs' Ho).
  - inversion Hgr as [|? ? ? Hg Ho Hgr']; subst.
    cbn [List.concat] in Hs. apply IH; [exact Hgr'|].
    now apply StronglySorted_app_r in Hs.
Qed.

Lemma concat_nonempty {A} (bs : list (list A)) :
  List.concat (filter nonempty bs) = List.concat bs.
Proof.
  induction bs as [|[|x g] bs IH]; simpl; [reflexivity|exact IH|now rewrite IH].
Qed.

Lemma filter_filter_negb {A} (p : A -> bool) (l : list A) :
  filter p (filter (fun x => negb (p x)) l) = [].
Proof.
  apply filter_none. intros x Hx. apply filter_In in Hx as [_ Hx].
  now apply negb_true_iff in Hx.
Qed.

Lemma filter_concat_all {A} (p : A -> bool) (q : list A -> bool) (bs : list (list A)) :
  Forall (fun x => p x = true) (List.concat bs) ->
  filter p (List.concat (filter q bs)) = List.concat (filter q bs).
Proof.
  intros H. apply filter_all. apply Forall_forall. intros x Hx.
  rewrite Forall_forall in H. apply H.
  apply in_concat in Hx as (g & Hg & Hx). apply filter_In in Hg as [Hg _].
  apply in_concat. now exists g.
Qed.

(** The candidates of the second pass, cluster by cluster. *)
Lemma candidates_by_cluster {U : UCD} (cl : list (list entry)) :
  Permutation
    (List.concat (filter (fun g => negb (convertible g)) cl) ++
     filter is_choice_candidate (map choice_of (filter convertible cl)))
    (List.concat (map next_candidates cl)).
Proof.
  induction cl as [|g cl IH]; [reflexivity|].
  cbn [map filter List.concat]. unfold next_candidates at 1.
  destruct (convertible g); cbn [negb map List.concat].
  - change (filter is_choice_candidate (choice_of g :: map choice_of (filter convertible cl)))
      with (filter is_choice_candidate ([choice_of g] ++ map choice_of (filter convertible cl))).
    rewrite filter_app, Permutation_app_swap_app.
    now apply Permutation_app_head.
  - rewrite <- app_assoc. now apply Permutation_app_head.
Qed.

Lemma second_pass_candidates {U : UCD} (entries result : list entry) :
  Permutation result
    (filter (fun e => negb (is_choice_candidate e)) entries ++
     List.concat (filter (fun g => negb (convertible g)) (choice_clusters entries)) ++
     map choice_of (filter convertible (choice_clusters entries))) ->
  Permutation (filter is_choice_candidate result)
              (List.concat (map next_candidates (choice_clusters entries))).
Proof.
  intros Hp. rewrite (Permutation_filter' is_choice_candidate _ _ Hp).
  rewrite !filter_app, filter_filter_negb. cbn [app].
  rewrite filter_concat_all.
  - apply candidates_by_cluster.
  - unfold choice_clusters. rewrite clusters_concat.
    apply Forall_forall. intros x Hx. now apply filter_In in Hx.
Qed.

Lemma greedy_thinned {U : UCD} (cl : list (list entry)) :
  greedy index cl ->
  thinned (map (map index) cl)
          (filter nonempty (map (map index) (map next_candidates cl))).
Proof.
  induction 1 as [|x g bs Hg Ho Hgr IH]; [constructor|].
  cbn [map]. unfold next_candidates at 1.
  destruct (convertible (x :: g)).
  - cbn [filter]. destruct (is_choice_candidate (choice_of (x :: g))); cbn [map filter nonempty].
    + now apply thinned_first.
    + now apply thinned_drop.
  - cbn [map filter nonempty]. now apply thinned_keep.
Qed.

Lemma greedy_map_index (cl : list (list entry)) :
  greedy index cl -> greedy id (map (map index) cl).
Proof.
  intros H. rewrite <- (clusters_of_greedy index cl H).
  rewrite <- (clusters_map index index id) by reflexivity.
  apply clusters_greedy.
Qed.

Lemma StronglySorted_map_index (l : list entry) :
  index_sorted l -> StronglySorted Z.le (map index l).
Proof.
  intros H. apply index_sorted_strongly in H.
  induction H as [|x l Hs IH Hx]; simpl; constructor; [exact IH|].
  apply Forall_forall. intros y Hy. apply in_map_iff in Hy as (e & <- & He).
  rewrite Forall_forall in Hx. now apply Hx.
Qed.

Lemma next_candidates_not_convertible {U : UCD} (cl : list (list entry)) :
  filter convertible (filter nonempty (map (map index) (map next_candidates cl))) = [].
Proof.
  apply filter_none. intros b0 Hb. apply filter_In in Hb as [Hb _].
  apply in_map_iff in Hb as (b1 & <- & Hb). apply in_map_iff in Hb as (g & <- & Hg).
  rewrite convertible_map. unfold next_candidates.
  destruct (convertible g) eqn:E; [|exact E].
  simpl. now destruct (is_choice_candidate (choice_of g)).
Qed.

(** After one pass over a sequence in index order no cluster of candidates
    has two to five members. *)
Lemma second_pass_converts_nothing {U : UCD} (entries result : list entry) :
  index_sorted entries -> index_sorted result ->
  Permutation result
    (filter (fun e => negb (is_choice_candidate e)) entries ++
     List.concat (filter (fun g => negb (convertible g)) (choice_clusters entries)) ++
     map choice_of (filter convertible (choice_clusters entries))) ->
  filter convertible (choice_clusters result) = [].
Proof.
  intros Hse Hsr Hp.
  set (cl := choice_clusters entries).
  set (blocks := filter nonempty (map (map index) (map next_candidates cl))).
  assert (Hgr : greedy index cl) by apply clusters_greedy.
  assert (Hs0 : StronglySorted Z.le (List.concat (map (map index) cl))).
  { rewrite <- concat_map. unfold cl, choice_clusters. rewrite clusters_concat.
    apply StronglySorted_map_index. now apply index_sorted_filter. }
  pose proof (greedy_thinned cl Hgr) as Ht. fold blocks in Ht.
  pose proof (thinned_greedy _ _ Ht (greedy_map_index cl Hgr) Hs0) as Hgb.
  pose proof (thinned_sorted _ _ Ht Hs0) as Hsb.
  assert (Hidx : map index (filter is_choice_candidate result) = List.concat blocks).
  { apply sorted_perm_eq.
    - apply StronglySorted_map_index. now apply index_sorted_filter.
    - exact Hsb.
    - unfold blocks. rewrite concat_nonempty, <- concat_map.
      apply Permutation_map. now apply second_pass_candidates. }
  assert (Hcl : map (map index) (choice_clusters result) = blocks).
  { unfold choice_clusters.
    rewrite <- (clusters_map index index id) by reflexivity.
    rewrite Hidx. now apply clusters_of_greedy. }
  assert (Hnone : filter convertible (map (map index) (choice_clusters result)) = []).
  { rewrite Hcl. apply next_candidates_not_convertible. }
  rewrite filter_convertible_map in Hnone. now apply map_eq_nil in Hnone.
Qed.

(** A pass that converts no cluster returns a sequence in index order as it
    is. *)
Lemma pass_without_conversion {U : UCD} (entries : list entry) :
  index_sorted entries ->
  filter convertible (choice_clusters entries) = [] ->
  group_related_choices entries = Some entries.
Proof.
  intros Hs Hnone. unfold group_related_choices.
  set (cands := filter (fun pe => is_choice_candidate (snd pe)) (enumerate entries)).
  assert (Hcands : map snd cands = filter is_choice_candidate entries)
    by apply filter_snd_enumerate.
  assert (Hcl : filter convertible (clusters candidate_index cands) = []).
  { unfold choice_clusters in Hnone. rewrite <- Hcands in Hnone.
    rewrite (clusters_map snd candidate_index index) in Hnone by reflexivity.
    rewrite filter_convertible_map in Hnone. now apply map_eq_nil in Hnone. }
  destruct cands as [|c cands'] eqn:Ec; [reflexivity|].
  rewrite <- Ec in *. rewrite group_loop_clusters by reflexivity.
  rewrite Hcl. cbn [map List.concat app]. rewrite app_nil_r.
  rewrite filter_all by (apply Forall_forall; intros; reflexivity).
  unfold enumerate. rewrite map_snd_enumerate.
  f_equal. apply sort_by_sorted_id. now apply index_sorted_holds.
Qed.

(** C4, amended: on a sequence in index order, which is what the assembler
    hands to it, the grouping pass is idempotent: the pass returns, and a
    second pass over its result returns that result unchanged. *)
Theorem choice_grouping_idempotent {U : UCD} (entries : list entry) :
  index_sorted entries ->
  exists result,
    group_related_choices entries = Some result /\
    group_related_choices result = Some result.
Proof.
  intros Hs.
  destruct (group_related_choices_result entries) as (result & Hr & Hp & Hsr).
  exists result. split; [exact Hr|].
  apply pass_without_conversion; [now apply Hsr|].
  apply (second_pass_converts_nothing entries); auto.
Qed.

(** *** Grouping on concrete sequences *)

Lemma yes_no_scene_sorted : index_sorted yes_no_scene.
Proof. unfold index_sorted, yes_no_scene. repeat constructor; simpl; lia. Qed.

(** The two answers become one Choice entry; the dialogue line stays. *)
Example yes_no_scene_grouped :
  @group_related_choices ascii_jp yes_no_scene =
  Some [ choice_of [assembled 1 (u "はい") [] 0x04; assembled 2 (u "いいえ") [] 0x04];
         assembled 90 (u "He left the room.") (u "Pearl") 0x04 ].
Proof. vm_compute. reflexivity. Qed.

Lemma choice_grouping_witness :
  index_sorted yes_no_scene /\
  exists result,
    @group_related_choices ascii_jp yes_no_scene = Some result /\
    index_sorted result.
Proof.
  split; [exact yes_no_scene_sorted|].
  destruct (@choice_grouping ascii_jp yes_no_scene yes_no_scene_sorted)
    as (_ & _ & _ & result & Hr & _ & Hs).
  exists result. split; [exact Hr|exact Hs].
Defined.

Lemma choice_grouping_idempotent_witness :
  index_sorted yes_no_scene /\
  exists result,
    @group_related_choices ascii_jp yes_no_scene = Some result /\
    @group_related_choices ascii_jp result = Some result.
Proof.
  split; [exact yes_no_scene_sorted|].
  exact (@choice_grouping_idempotent ascii_jp yes_no_scene yes_no_scene_sorted).
Defined.

(** The claim as stated fails: the first pass sees one cluster of six and
    only sorts; the second pass sees a cluster of five and converts it. *)
Lemma grouping_twice_differs :
  @group_related_choices ascii_jp six_candidates = Some six_candidates_once /\
  @group_related_choices ascii_jp six_candidates_once = Some six_candidates_twice /\
  List.length six_candidates_once = 6%nat /\
  List.length six_candidates_twice = 2%nat.
Proof. repeat split; vm_compute; reflexivity. Qed.

(** *** The assembler keeps the index order *)

Lemma quote_lookahead_forward {U : UCD} : forall rest i parts,
  i <= fst (quote_lookahead rest i parts).
Proof.
  induction rest as [|e rest IH]; intros i parts; cbn [quote_lookahead fst]; [lia|].
  split_ifs; cbn [fst]; try lia;
    match goal with
    | |- _ <= fst (quote_lookahead _ ?j ?p) => specialize (IH j p); lia
    end.
Qed.

Lemma speaker_run_forward {U : UCD} : forall rest i parts,
  i <= fst (speaker_run rest i parts).
Proof.
  induction rest as [|e rest IH]; intros i parts; cbn [speaker_run fst]; [lia|].
  split_ifs; cbn [fst]; try lia;
    match goal with
    | |- _ <= fst (speaker_run _ ?j ?p) => specialize (IH j p); lia
    | |- _ <= fst (quote_lookahead ?r ?j ?p) =>
        pose proof (quote_lookahead_forward r j p); lia
    end.
Qed.

Lemma absorb_07_forward {U : UCD} : forall rest current_index i combined_text,
  i <= fst (absorb_07 rest current_index i combined_text).
Proof.
  induction rest as [|e rest IH]; intros ci i t; cbn [absorb_07 fst]; [lia|].
  split_ifs; cbn [fst]; try lia;
    match goal with
    | |- _ <= fst (absorb_07 _ ?c ?j ?p) => specialize (IH c j p); lia
    end.
Qed.

Lemma absorb_forward {U : UCD} : forall rest j combined_text,
  j <= fst (absorb rest j combined_text).
Proof.
  induction rest as [|e rest IH]; intros j t; cbn [absorb fst]; [lia|].
  split_ifs; cbn [fst]; try lia;
    match goal with
    | |- _ <= fst (absorb _ ?k ?p) => specialize (IH k p); lia
    end.
Qed.

Lemma assemble_step_one_step {U : UCD} before current rest i :
  one_step current i (assemble_step before current rest i).
Proof.
  unfold assemble_step, one_step.
  pose proof (speaker_run_forward rest (i + 1) []) as Hrun.
  pose proof (absorb_07_forward rest (index current) i (text current)) as H07.
  pose proof (absorb_forward rest (i + 1) (text current)) as Habs.
  destruct (speaker_run rest (i + 1) []) as [i1 parts].
  destruct (absorb_07 rest (index current) i (text current)) as [i2 t2].
  destruct (absorb rest (i + 1) (text current)) as [j t3].
  cbn [fst] in *.
  repeat match goal with
  | |- context [if ?c then _ else _] => destruct c
  | |- context [match ?x with [] => _ | _ :: _ => _ end] => destruct x
  | |- context [match ?x with Some _ => _ | None => _ end] => destruct x
  end; cbn [fst snd]; (split; [lia|]); try (now left);
  right; eexists; (split; [reflexivity|reflexivity]).
Qed.

Lemma skipn_suffix {A} (l : list A) (i i' : Z) x :
  0 <= i <= i' -> In x (skipn (Z.to_nat i') l) -> In x (skipn (Z.to_nat i) l).
Proof.
  intros H Hx. replace (Z.to_nat i') with (Z.to_nat (i' - i) + Z.to_nat i)%nat in Hx by lia.
  rewrite <- skipn_skipn in Hx. revert Hx. generalize (skipn (Z.to_nat i) l) as s.
  induction (Z.to_nat (i' - i)) as [|n IH]; intros s Hx; [exact Hx|].
  destruct s as [|a s]; [destruct Hx|]. right. now apply IH.
Qed.

Lemma assemble_loop_sorted {U : UCD} (entries : list entry) :
  index_sorted entries ->
  forall fuel i combined,
    0 <= i -> (Z.to_nat (len entries - i) < fuel)%nat ->
    StronglySorted (fun x y => index x <= index y) combined ->
    Forall (fun c => forall x, In x (skipn (Z.to_nat i) entries) -> index c <= index x)
           combined ->
    exists result,
      assemble_loop entries fuel i combined = Some result /\ index_sorted result.
Proof.
  intros Hs. apply index_sorted_strongly in Hs.
  induction fuel as [|fuel IH]; intros i combined H0 Hfuel Hc Hb; [lia|].
  cbn [assemble_loop].
  destruct (i <? len entries) eqn:C;
    [|exists combined; split; [reflexivity|now apply StronglySorted_Sorted]].
  apply Z.ltb_lt in C.
  destruct (skipn (Z.to_nat i) entries) as [|current rest] eqn:Es.
  { exfalso. apply (f_equal (@List.length entry)) in Es.
    rewrite length_skipn in Es. unfold len in C. simpl in Es. lia. }
  pose proof (assemble_step_one_step (rev (firstn (Z.to_nat i) entries)) current rest i)
    as [Hlt Hout].
  destruct (assemble_step _ current rest i) as [i' out]. cbn [fst snd] in *.
  assert (Hsuffix : StronglySorted (fun x y => index x <= index y) (current :: rest)).
  { rewrite <- Es. rewrite <- (firstn_skipn (Z.to_nat i) entries) in Hs.
    now apply StronglySorted_app_r in Hs. }
  assert (Hlater : forall x, In x (skipn (Z.to_nat i') entries) -> In x rest).
  { intros x Hx. apply (skipn_suffix entries (i + 1) i') in Hx; [|lia].
    replace (Z.to_nat (i + 1)) with (1 + Z.to_nat i)%nat in Hx by lia.
    rewrite <- skipn_skipn, Es in Hx. exact Hx. }
  assert (Hb' : Forall (fun c => forall x, In x (skipn (Z.to_nat i') entries) ->
                                  index c <= index x) combined).
  { eapply Forall_impl; [|exact Hb]. intros c Hcx x Hx. apply Hcx.
    right. now apply Hlater. }
  apply IH; try lia.
  - destruct Hout as [->|(e & -> & He)]; [now rewrite app_nil_r|].
    apply StronglySorted_snoc; [exact Hc|].
    eapply Forall_impl; [|exact Hb]. intros c Hcx. rewrite He. apply Hcx. now left.
  - destruct Hout as [->|(e & -> & He)]; [now rewrite app_nil_r|].
    apply Forall_app. split; [exact Hb'|]. constructor; [|constructor].
    intros x Hx. rewrite He. apply StronglySorted_inv in Hsuffix as [_ Hcur].
    rewrite Forall_forall in Hcur. apply Hcur. now apply Hlater.
Qed.

Lemma by_index_then_offset_index l :
  StronglySorted by_index_then_offset l -> index_sorted l.
Proof.
  intros H. apply StronglySorted_Sorted in H. unfold index_sorted.
  induction H as [|x s Hs IH Hx]; constructor; [exact IH|].
  destruct Hx as [|y s' Hxy]; constructor. unfold by_index_then_offset in Hxy. lia.
Qed.

(** The sequence [decompile_full_format] hands to the choice grouping is in
    index order, for every buffer: the merged list is, and the assembler
    keeps the order. *)
Lemma assembled_sequence_sorted {U : UCD} (data : bytes) :
  exists padded compact combined,
    _parse_padded_format data = Some padded /\
    _parse_compact_format data = Some compact /\
    assemble_loop (merge_entries padded compact)
                  (S (List.length (merge_entries padded compact))) 0 [] = Some combined /\
    index_sorted combined.
Proof.
  destruct (padded_format_scanned data) as (padded & p & Ep & Hp).
  destruct (compact_format_scanned data) as (compact & q & Ec & Hc).
  exists padded, compact.
  assert (Hm : index_sorted (merge_entries padded compact)).
  { apply by_index_then_offset_index.
    rewrite merge_entries_sorted; [apply sorted_by_index_then_offset|apply Hp|apply Hc]. }
  destruct (assemble_loop_sorted _ Hm (S (List.length (merge_entries padded compact))) 0 [])
    as (combined & Hr & Hs).
  - lia.
  - rewrite Z.sub_0_r, len_length. lia.
  - constructor.
  - constructor.
  - now exists combined.
Qed.

(** The whole structured pipeline returns, and returns a sequence in index
    order. *)
Lemma decompile_full_format_returns {U : UCD} (data : bytes) :
  exists result, decompile_full_format data = Some result /\ index_sorted result.
Proof.
  destruct (assembled_sequence_sorted data)
    as (padded & compact & combined & Ep & Ec & Ea & Hs).
  destruct (group_related_choices_result combined) as (result & Hr & _ & Hsr).
  exists result. split; [|now apply Hsr].
  unfold decompile_full_format, combine_dialogue_entries.
  now rewrite Ep, Ec, Ea.
Qed.

(** *** What the entries say of the buffer *)

Lemma compact_text_end_bound data : forall n text_end r,
  compact_text_end data n text_end = Some r -> text_end <= r <= text_end + Z.of_nat n.
Proof.
  induction n as [|n IH]; intros te r H; cbn [compact_text_end] in H.
  - injection H as <-. lia.
  - destruct (te <? len data); [|injection H as <-; lia].
    destruct (item data te) as [x|]; [|discriminate].
    assert (Hnext : compact_text_end data n (te + 1) = Some r ->
                    te <= r <= te + Z.of_nat (S n)).
    { intros H'. apply IH in H'. lia. }
    destruct (b2z x =? 0); [|now apply Hnext].
    destruct ((te + 12 <? len data) && (2 <=? null_count data te));
      [injection H as <-; lia|now apply Hnext].
Qed.

Lemma padded_text_end_bound data : forall n text_end r,
  padded_text_end data n text_end = Some r -> text_end <= r <= text_end + Z.of_nat n.
Proof.
  induction n as [|n IH]; intros te r H; cbn [padded_text_end] in H.
  - injection H as <-. lia.
  - destruct (te <? len data); [|injection H as <-; lia].
    destruct (item data te) as [x|]; [|discriminate].
    assert (Hnext : padded_text_end data n (te + 1) = Some r ->
                    te <= r <= te + Z.of_nat (S n)).
    { intros H'. apply IH in H'. lia. }
    destruct (b2z x =? 0); [|now apply Hnext].
    destruct (2 <=? null_count data te); [injection H as <-; lia|now apply Hnext].
Qed.

Lemma add_entry_tail {U : UCD} es entry_index entry_type text entry_size pos :
  add_entry es entry_index entry_type text entry_size pos = es \/
  (text <> [] /\
   add_entry es entry_index entry_type text entry_size pos =
   es ++ [extracted entry_index entry_type text entry_size (Some pos)]).
Proof.
  unfold add_entry. destruct text as [|c t]; [now left|].
  cbn [negb andb]. destruct (_ && _); [right|now left].
  split; [discriminate|reflexivity].
Qed.

(** One pass of the compact parser appends nothing, or one entry that the
    buffer backs. *)
Lemma compact_body_record {U : UCD} data pos es out :
  0 <= pos -> compact_body data pos es = Some out ->
  outcome_entries out = es \/
  exists e, outcome_entries out = es ++ [e] /\ compact_record data e.
Proof.
  intros H0. unfold compact_body.
  destruct (unpack_I (slice data pos (pos + 4))) as [entry_type|] eqn:Et;
    [|intros [= <-]; now left].
  destruct (negb (mem entry_type COMPACT_TYPES)) eqn:Em; [intros [= <-]; now left|].
  apply negb_false_iff, mem_In in Em.
  destruct (unpack_I (slice data (pos + 4) (pos + 8))) as [entry_index|] eqn:Ei;
    [|intros [= <-]; now left].
  destruct (100000 <? entry_index) eqn:Eidx; [intros [= <-]; now left|].
  apply Z.ltb_ge in Eidx.
  destruct (unpack_I (slice data (pos + 8) (pos + 12))) as [entry_size|] eqn:Esz;
    [|intros [= <-]; now left].
  destruct (compact_size data (pos + 12) entry_type entry_size) as [[sz|]|] eqn:Es;
    [|intros [= <-]; now left|intros [= <-]; now left].
  destruct (len data <? pos + 12 + sz) eqn:Eend; [intros [= <-]; now left|].
  apply Z.ltb_ge in Eend.
  set (decoded := utf8_decode (rstrip_nul (slice data (pos + 12) (pos + 12 + sz)))).
  assert (Hrec : decoded <> [] ->
            compact_record data (extracted entry_index entry_type decoded sz (Some pos))).
  { intros Hne. exists pos, sz. cbn [offset size type index text extracted].
    repeat split; try assumption; try lia.
    unfold compact_size in Es. destruct (entry_type =? 16) eqn:E16.
    - destruct (compact_text_end data 500 (pos + 12)) as [text_end|] eqn:Ete;
        [|discriminate].
      apply compact_text_end_bound in Ete.
      destruct (text_end - (pos + 12) <? 1) eqn:E1; [discriminate|].
      apply Z.ltb_ge in E1. injection Es as <-. lia.
    - destruct ((entry_size <? 4) || (10000 <? entry_size)) eqn:E4; [discriminate|].
      injection Es as <-. apply orb_false_iff in E4 as [E4 E5].
      apply Z.ltb_ge in E4, E5. repeat split; [assumption|lia|lia]. }
  destruct (add_entry_tail es entry_index entry_type decoded sz pos) as [Ha|[Hne Ha]];
    rewrite Ha;
    destruct (skip_padding data (S (List.length data)) (pos + 12 + sz)) as [[p|p]|];
    try discriminate; intros [= <-]; cbn [outcome_entries];
    try (now left); right; eexists; (split; [reflexivity|now apply Hrec]).
Qed.

Lemma compact_body_records {U : UCD} data pos es :
  (0 <= pos /\ Forall (compact_record data) es) -> (pos + 12 <=? len data) = true ->
  match compact_body data pos es with
  | Some (Continue pos' es') => pos < pos' /\ (0 <= pos' /\ Forall (compact_record data) es')
  | Some (Break es') => exists p, 0 <= p /\ Forall (compact_record data) es'
  | Some (Raise pos' es') =>
      pos <= pos' /\ (0 <= pos' + 1 /\ Forall (compact_record data) es')
  | None => False
  end.
Proof.
  intros [H0 Hf] C.
  pose proof (compact_body_cases data pos es H0 C) as Hc.
  pose proof (compact_body_record data pos es) as Hr.
  destruct (compact_body data pos es) as [out|]; [|exact Hc].
  specialize (Hr out H0 eq_refl).
  assert (Hout : Forall (compact_record data) (outcome_entries out)).
  { destruct Hr as [->|(e & -> & He)]; [exact Hf|].
    apply Forall_app. split; [exact Hf|]. now constructor. }
  destruct out as [pos' es'|es'|pos' es']; cbn [outcome_entries] in Hout.
  - destruct Hc as [Hlt _]. repeat split; try assumption; lia.
  - exists pos. now split.
  - destruct Hc as [Hle _]. repeat split; try assumption; lia.
Qed.

(** X1: the compact parser returns for every buffer, and every entry it
    returns is backed by the buffer: at the recorded offset stands a header
    with the entry's type, one the parser knows, and its index, at most
    100000; the recorded size is the size word of the header, from 4 to 10000
    (for type 0x10 a size found by search, from 1 to 500); the text bytes lie
    inside the buffer; and the entry's text is their decoding, the zero bytes
    at their end apart, and is not empty. *)
Theorem compact_entries_describe_buffer {U : UCD} (data : bytes) :
  exists es, _parse_compact_format data = Some es /\ Forall (compact_record data) es.
Proof.
  unfold _parse_compact_format.
  destruct (scan_loop_total (fun pos => pos + 12 <=? len data) (compact_body data)
              (len data) (fun pos es => 0 <= pos /\ Forall (compact_record data) es))
    with (fuel := S (List.length data)) (pos := 0) (es := @nil entry)
    as (es & p & He & _ & Hf).
  - intros pos C. apply Z.leb_le in C. lia.
  - intros pos es HI C. now apply compact_body_records.
  - split; [lia|constructor].
  - rewrite Z.sub_0_r, len_length. lia.
  - now exists es.
Qed.

Lemma padded_header_fields data pos padding_offset entry_type entry_index entry_size :
  (pos <? len data - 24) = true ->
  padded_header data pos = Some (padding_offset, entry_type, entry_index, entry_size) ->
  (padding_offset = 4 \/ padding_offset = 8) /\
  (padding_offset = 8 <->
   all_zero data [pos + 4; pos + 5; pos + 6; pos + 7] = Some true) /\
  unpack_I (slice data (pos + padding_offset) (pos + padding_offset + 4)) =
    Some entry_type /\
  unpack_I (slice data (pos + padding_offset + 4) (pos + padding_offset + 8)) =
    Some entry_index /\
  unpack_I (slice data (pos + padding_offset + 8) (pos + padding_offset + 12)) =
    Some entry_size.
Proof.
  intros C. apply Z.ltb_lt in C. unfold padded_header.
  assert (E8 : (pos + 8 <=? len data) = true) by (apply Z.leb_le; lia).
  rewrite E8.
  destruct (all_zero data [pos + 4; pos + 5; pos + 6; pos + 7]) as [eight|];
    [|discriminate].
  destruct (unpack_I (slice data (pos + (if eight then 8 else 4))
                            (pos + (if eight then 8 else 4) + 4))) as [t|] eqn:Et;
    [|discriminate].
  destruct (unpack_I (slice data (pos + (if eight then 8 else 4) + 4)
                            (pos + (if eight then 8 else 4) + 8))) as [i|] eqn:Ei;
    [|discriminate].
  destruct (unpack_I (slice data (pos + (if eight then 8 else 4) + 8)
                            (pos + (if eight then 8 else 4) + 12))) as [s|] eqn:Es;
    [|discriminate].
  intros [= <- <- <- <-].
  destruct eight; repeat split; auto; try lia; try discriminate; intros; congruence.
Qed.

(** One pass of the padded parser appends nothing, or one entry that the
    buffer backs. *)
Lemma padded_body_record {U : UCD} data pos es out :
  0 <= pos -> (pos <? len data - 24) = true ->
  padded_body data pos es = Some out ->
  outcome_entries out = es \/
  exists e, outcome_entries out = es ++ [e] /\ padded_record data e.
Proof.
  intros H0 C. unfold padded_body.
  destruct (all_zero data [pos; pos + 1; pos + 2; pos + 3]) as [[|]|] eqn:Ez;
    [|intros [= <-]; now left|intros [= <-]; now left].
  destruct (padded_header data pos)
    as [[[[padding_offset entry_type] entry_index] entry_size]|] eqn:Eh;
    [|intros [= <-]; now left].
  apply padded_header_fields in Eh as (Hpo & H8 & Et & Ei & Esz); [|exact C].
  destruct (negb (mem entry_type PADDED_TYPES)) eqn:Em; [intros [= <-]; now left|].
  apply negb_false_iff, mem_In in Em.
  destruct (padded_size data (pos + padding_offset + 12) entry_type entry_size)
    as [[sz|]|] eqn:Es; [|intros [= <-]; now left|intros [= <-]; now left].
  destruct (100000 <? entry_index) eqn:Eidx; [intros [= <-]; now left|].
  apply Z.ltb_ge in Eidx.
  destruct (len data <? pos + padding_offset + 12 + sz) eqn:Eend;
    [intros [= <-]; now left|].
  apply Z.ltb_ge in Eend. apply Z.ltb_lt in C.
  set (decoded := utf8_decode (rstrip_nul (slice data (pos + padding_offset + 12)
                                              (pos + padding_offset + 12 + sz)))).
  assert (Hrec : decoded <> [] ->
            padded_record data (extracted entry_index entry_type decoded sz (Some pos))).
  { intros Hne. exists pos, padding_offset, sz.
    cbn [offset size type index text extracted].
    split; [reflexivity|]. split; [reflexivity|]. split; [lia|].
    split; [exact Hpo|]. split; [exact Ez|]. split; [exact H8|].
    split; [lia|]. split; [exact Et|]. split; [exact Em|]. split; [exact Ei|].
    split; [lia|]. split; [|split; [reflexivity|exact Hne]].
    unfold padded_size in Es. destruct (entry_type =? 16) eqn:E16.
    - destruct (padded_text_end data 500 (pos + padding_offset + 12)) as [text_end|] eqn:Ete;
        [|discriminate].
      apply padded_text_end_bound in Ete.
      destruct (text_end - (pos + padding_offset + 12) <? 1) eqn:E1; [discriminate|].
      apply Z.ltb_ge in E1. injection Es as <-. lia.
    - destruct ((entry_size <? 1) || (10000 <? entry_size)) eqn:E4; [discriminate|].
      injection Es as <-. apply orb_false_iff in E4 as [E4 E5].
      apply Z.ltb_ge in E4, E5. repeat split; [assumption|lia|lia]. }
  destruct (add_entry_tail es entry_index entry_type decoded sz pos) as [Ha|[Hne Ha]];
    rewrite Ha;
    destruct (resync data (S (List.length data)) (pos + padding_offset + 12 + sz))
      as [[p|p]|];
    try discriminate; intros [= <-]; cbn [outcome_entries];
    try (now left); right; eexists; (split; [reflexivity|now apply Hrec]).
Qed.

Lemma padded_body_records {U : UCD} data pos es :
  (0 <= pos /\ Forall (padded_record data) es) -> (pos <? len data - 24) = true ->
  match padded_body data pos es with
  | Some (Continue pos' es') => pos < pos' /\ (0 <= pos' /\ Forall (padded_record data) es')
  | Some (Break es') => exists p, 0 <= p /\ Forall (padded_record data) es'
  | Some (Raise pos' es') =>
      pos <= pos' /\ (0 <= pos' + 1 /\ Forall (padded_record data) es')
  | None => False
  end.
Proof.
  intros [H0 Hf] C.
  pose proof (padded_body_cases data pos es H0 C) as Hc.
  pose proof (padded_body_record data pos es) as Hr.
  destruct (padded_body data pos es) as [out|]; [|exact Hc].
  specialize (Hr out H0 C eq_refl).
  assert (Hout : Forall (padded_record data) (outcome_entries out)).
  { destruct Hr as [->|(e & -> & He)]; [exact Hf|].
    apply Forall_app. split; [exact Hf|]. now constructor. }
  destruct out as [pos' es'|es'|pos' es']; cbn [outcome_entries] in Hout.
  - destruct Hc as [Hlt _]. repeat split; try assumption; lia.
  - exists pos. now split.
  - destruct Hc as [Hle _]. repeat split; try assumption; lia.
Qed.

(** X2: the padded parser returns for every buffer, and every entry it
    returns is backed by the buffer: the recorded offset is that of four zero
    bytes, the header stands 8 bytes further when four more zero bytes follow
    and 4 bytes further otherwise, with the entry's type, one the parser
    knows, and its index, at most 100000; the recorded size is the size word
    of the header, from 1 to 10000 (for type 0x10 a size found by search,
    from 1 to 500); the text bytes lie inside the buffer; and the entry's
    text is their decoding, the zero bytes at their end apart, and is not
    empty. *)
Theorem padded_entries_describe_buffer {U : UCD} (data : bytes) :
  exists es, _parse_padded_format data = Some es /\ Forall (padded_record data) es.
Proof.
  unfold _parse_padded_format.
  destruct (scan_loop_total (fun pos => pos <? len data - 24) (padded_body data)
              (len data) (fun pos es => 0 <= pos /\ Forall (padded_record data) es))
    with (fuel := S (List.length data)) (pos := 0) (es := @nil entry)
    as (es & p & He & _ & Hf).
  - intros pos C. apply Z.ltb_lt in C. lia.
  - intros pos es HI C. now apply padded_body_records.
  - split; [lia|constructor].
  - rewrite Z.sub_0_r, len_length. lia.
  - now exists es.
Qed.

(** *** Reading records back *)

Lemma b2z_byte_of z : b2z (byte_of z) = z mod 256.
Proof.
  unfold byte_of, b2z.
  pose proof (Z.mod_pos_bound z 256 ltac:(lia)) as Hm.
  destruct (Byte.of_N (Z.to_N (z mod 256))) as [x|] eqn:E.
  - apply Byte.to_of_N in E. rewrite E. lia.
  - apply Byte.of_N_None_iff in E. lia.
Qed.

(** [struct.unpack] reads back what [struct.pack] wrote. *)
Lemma unpack_pack_I n : 0 <= n < 4294967296 -> unpack_I (pack_I n) = Some n.
Proof.
  intros Hn. unfold pack_I. rewrite unpack_I_four, !b2z_byte_of. f_equal.
  pose proof (Z.div_mod n 256 ltac:(lia)).
  pose proof (Z.div_mod (n / 256) 256 ltac:(lia)).
  pose proof (Z.div_mod (n / 256 / 256) 256 ltac:(lia)).
  pose proof (Z.mod_pos_bound n 256 ltac:(lia)).
  pose proof (Z.mod_pos_bound (n / 256) 256 ltac:(lia)).
  pose proof (Z.mod_pos_bound (n / 256 / 256) 256 ltac:(lia)).
  replace (n / 65536) with (n / 256 / 256) by (now rewrite Z.div_div by lia).
  replace (n / 16777216) with (n / 256 / 256 / 256) by (now rewrite !Z.div_div by lia).
  assert (0 <= n / 256 / 256 / 256 < 256).
  { split; [repeat apply Z.div_pos; lia|].
    rewrite !Z.div_div by lia. apply Z.div_lt_upper_bound; lia. }
  rewrite (Z.mod_small (n / 256 / 256 / 256)) by lia. lia.
Qed.

Lemma len_app {A} (l1 l2 : list A) : len (l1 ++ l2) = len l1 + len l2.
Proof. unfold len. rewrite length_app. lia. Qed.

Lemma len_pack_I n : len (pack_I n) = 4.
Proof. reflexivity. Qed.

Lemma len_nonneg {A} (l : list A) : 0 <= len l.
Proof. unfold len. lia. Qed.

(** A slice that cuts out the middle of three parts. *)
Lemma slice_middle {A} (pre mid post : list A) lo hi :
  lo = len pre -> hi = lo + len mid -> slice (pre ++ mid ++ post) lo hi = mid.
Proof.
  intros -> ->. unfold slice.
  replace (Z.to_nat (len pre)) with (List.length pre) by (unfold len; lia).
  replace (Z.to_nat (len pre + len mid - len pre)) with (List.length mid + 0)%nat
    by (unfold len; lia).
  rewrite skipn_app, skipn_all, Nat.sub_diag. cbn [skipn app].
  rewrite firstn_app_2. cbn [firstn]. apply app_nil_r.
Qed.

Lemma item_after {A} (pre : list A) x post pos :
  pos = len pre -> item (pre ++ x :: post) pos = Some x.
Proof.
  intros ->. unfold item.
  destruct (len pre <? 0) eqn:E; [apply Z.ltb_lt in E; pose proof (len_nonneg pre); lia|].
  replace (Z.to_nat (len pre)) with (List.length pre) by (unfold len; lia).
  rewrite nth_error_app2 by lia. now rewrite Nat.sub_diag.
Qed.

Lemma compact_type_byte t : In t COMPACT_TYPES -> b2z (byte_of t) <> 0.
Proof.
  intros H. rewrite b2z_byte_of. simpl in H.
  repeat (destruct H as [<-|H]; [discriminate|]). contradiction.
Qed.

Lemma compact_type_word t : In t COMPACT_TYPES -> 0 <= t < 4294967296.
Proof.
  intros H. simpl in H. repeat (destruct H as [<-|H]; [lia|]). contradiction.
Qed.

(** After a record the cursor stays where the next record starts: no zero
    byte is there to skip. *)
Lemma skip_padding_at_record pre rs fuel :
  Forall compact_header_ok rs ->
  skip_padding (pre ++ List.concat (map compact_bytes rs)) (S fuel) (len pre) =
  Some (Synced (len pre)).
Proof.
  intros Hok. cbn [skip_padding].
  destruct (len pre <? len (pre ++ List.concat (map compact_bytes rs)) - 16) eqn:C;
    [|reflexivity].
  destruct rs as [|[[t i] s] rs'].
  { apply Z.ltb_lt in C. cbn [map List.concat] in C. rewrite app_nil_r in C. lia. }
  apply Forall_inv in Hok. destruct Hok as (Ht & _).
  cbn [map List.concat compact_bytes]. unfold pack_I at 1. cbn [app].
  rewrite item_after by reflexivity.
  apply compact_type_byte, Z.eqb_neq in Ht. now rewrite Ht.
Qed.

(** One pass over a well-formed record: the record is read and the cursor
    moves to its end. *)
Lemma compact_body_reads_record {U : UCD} pre t i s rs es :
  compact_header_ok (t, i, s) -> Forall compact_header_ok rs ->
  let data := pre ++ List.concat (map compact_bytes ((t, i, s) :: rs)) in
  compact_body data (len pre) es =
  Some (Continue (len pre + 12 + len s)
          (add_entry es i t (utf8_decode (rstrip_nul s)) (len s) (len pre))).
Proof.
  intros (Ht & Hn & Hi & Hs) Hok data.
  set (rest := List.concat (map compact_bytes rs)).
  assert (Hdata : data = pre ++ pack_I t ++ pack_I i ++ pack_I (len s) ++ s ++ rest).
  { unfold data. cbn [map List.concat compact_bytes]. now rewrite <- !app_assoc. }
  assert (Et : unpack_I (slice data (len pre) (len pre + 4)) = Some t).
  { rewrite Hdata, slice_middle by (rewrite ?len_pack_I; reflexivity).
    apply unpack_pack_I. now apply compact_type_word. }
  assert (Ei : unpack_I (slice data (len pre + 4) (len pre + 8)) = Some i).
  { rewrite Hdata, (app_assoc pre).
    rewrite slice_middle by (rewrite ?len_app, ?len_pack_I; lia).
    apply unpack_pack_I. lia. }
  assert (Es : unpack_I (slice data (len pre + 8) (len pre + 12)) = Some (len s)).
  { rewrite Hdata, (app_assoc pre), (app_assoc (pre ++ _)).
    rewrite slice_middle by (rewrite ?len_app, ?len_pack_I; lia).
    apply unpack_pack_I. lia. }
  assert (Etext : slice data (len pre + 12) (len pre + 12 + len s) = s).
  { rewrite Hdata, (app_assoc pre), (app_assoc (pre ++ _)), (app_assoc ((pre ++ _) ++ _)).
    apply slice_middle; rewrite ?len_app, ?len_pack_I; lia. }
  assert (Elen : len data = len pre + 12 + len s + len rest).
  { rewrite Hdata, !len_app, !len_pack_I. lia. }
  unfold compact_body. rewrite Et.
  apply mem_In in Ht. rewrite Ht. cbn [negb]. rewrite Ei.
  assert (E1 : (100000 <? i) = false) by (apply Z.ltb_ge; lia).
  rewrite E1, Es. unfold compact_size.
  apply Z.eqb_neq in Hn. rewrite Hn.
  assert (E2 : (len s <? 4) || (10000 <? len s) = false).
  { apply orb_false_iff. split; apply Z.ltb_ge; lia. }
  rewrite E2.
  assert (E3 : (len data <? len pre + 12 + len s) = false).
  { apply Z.ltb_ge. pose proof (len_nonneg rest). lia. }
  rewrite E3, Etext.
  assert (Eskip : skip_padding data (S (List.length data)) (len pre + 12 + len s) =
                  Some (Synced (len pre + 12 + len s))).
  { replace data with ((pre ++ compact_bytes (t, i, s)) ++ List.concat (map compact_bytes rs)).
    - replace (len pre + 12 + len s) with (len (pre ++ compact_bytes (t, i, s))).
      + now apply skip_padding_at_record.
      + cbn [compact_bytes]. rewrite !len_app, !len_pack_I. lia.
    - unfold data. cbn [map List.concat]. now rewrite <- app_assoc. }
  now rewrite Eskip.
Qed.

Lemma add_entry_app {U : UCD} es i t text sz o :
  add_entry es i t text sz o =
  es ++ (if negb (len text =? 0) && _is_valid_text text
         then [extracted i t text sz (Some o)] else []).
Proof.
  unfold add_entry. destruct (_ && _); [reflexivity|now rewrite app_nil_r].
Qed.

Lemma compact_scan_records {U : UCD} : forall rs pre es fuel,
  Forall compact_header_ok rs -> (List.length rs < fuel)%nat ->
  let data := pre ++ List.concat (map compact_bytes rs) in
  scan_loop (fun pos => pos + 12 <=? len data) (compact_body data) fuel (len pre) es =
  Some (es ++ records_at (len pre) rs).
Proof.
  induction rs as [|[[t i] s] rs IH]; intros pre es fuel Hok Hfuel data;
    (destruct fuel as [|fuel]; [simpl in Hfuel; lia|]); cbn [scan_loop].
  - subst data. cbn [map List.concat]. rewrite !app_nil_r.
    assert (C : (len pre + 12 <=? len pre) = false) by (apply Z.leb_gt; lia).
    now rewrite C.
  - pose proof (Forall_inv Hok) as Hr. pose proof (Forall_inv_tail Hok) as Hrs.
    assert (C : (len pre + 12 <=? len data) = true).
    { apply Z.leb_le. unfold data. cbn [map List.concat compact_bytes].
      rewrite !len_app, !len_pack_I.
      pose proof (len_nonneg s). pose proof (len_nonneg (List.concat (map compact_bytes rs))).
      lia. }
    rewrite C. unfold data.
    rewrite (compact_body_reads_record pre t i s rs es Hr Hrs).
    cbn [records_at]. rewrite add_entry_app.
    set (e := if _ && _ then _ else _).
    specialize (IH (pre ++ compact_bytes (t, i, s)) (es ++ e) fuel Hrs
                   ltac:(simpl in Hfuel; lia)).
    cbn zeta in IH.
    replace (len (pre ++ compact_bytes (t, i, s))) with (len pre + 12 + len s) in IH
      by (cbn [compact_bytes]; rewrite !len_app, !len_pack_I; lia).
    cbn [map List.concat]. rewrite <- app_assoc in IH.
    rewrite IH. now rewrite <- app_assoc.
Qed.

(** X3: a round trip.  Take records of a type the compact parser knows
    other than 0x10, an index from 0 to 100000 and a text of 4 to 10000
    bytes, and lay them end to end, each as three little endian words (type,
    index, size) followed by its text.  The parser reads the buffer back
    record by record: it returns, in order, one entry for every record whose
    decoded text is not empty and passes [_is_valid_text], with the record's
    index, type and size and the offset of its header. *)
Theorem compact_records_read_back {U : UCD} (rs : list (Z * Z * bytes)) :
  Forall compact_header_ok rs ->
  _parse_compact_format (List.concat (map compact_bytes rs)) = Some (records_at 0 rs).
Proof.
  intros Hok. unfold _parse_compact_format.
  pose proof (compact_scan_records rs [] [] (S (List.length (List.concat (map compact_bytes rs))))
                Hok) as H.
  cbn [app] in H. apply H.
  clear H. induction Hok as [|[[t i] s] rs Hr Hok IH]; [simpl; lia|].
  cbn [map List.concat compact_bytes List.length]. rewrite !length_app.
  cbn [pack_I List.length]. lia.
Qed.

Lemma compact_records_read_back_witness :
  @_parse_compact_format ascii_jp
    (List.concat (map compact_bytes [(4, 1, b "Hello there!"); (2, 1, b "Pearl"); (4, 2, b "ab12")])) =
  Some [extracted 1 4 (u "Hello there!") 12 (Some 0);
        extracted 1 2 (u "Pearl") 5 (Some 24)].
Proof.
  apply (@compact_records_read_back ascii_jp
           [(4, 1, b "Hello there!"); (2, 1, b "Pearl"); (4, 2, b "ab12")]).
  repeat (apply Forall_cons || apply Forall_nil);
    (split; [simpl; auto 20|]); (split; [discriminate|]); vm_compute;
    repeat split; discriminate.
Defined.

(** *** Trimming *)

Lemma lstrip_by_spec p s :
  exists pre, s = pre ++ lstrip_by p s /\ Forall (fun c => p c = true) pre /\
              match lstrip_by p s with [] => True | c :: _ => p c = false end.
Proof.
  induction s as [|a s IH]; simpl.
  - exists []. repeat split. constructor.
  - destruct (p a) eqn:E.
    + destruct IH as (pre & E1 & F & H). exists (a :: pre). simpl.
      repeat split; [now f_equal|now constructor|exact H].
    + exists []. repeat split; [constructor|exact E].
Qed.

Lemma lstrip_by_fixed p s :
  match s with [] => True | c :: _ => p c = false end -> lstrip_by p s = s.
Proof. destruct s as [|c s]; simpl; [reflexivity|]. now intros ->. Qed.

Lemma rstrip_by_spec p s :
  exists suf, s = rstrip_by p s ++ suf /\ Forall (fun c => p c = true) suf /\
              match rev (rstrip_by p s) with [] => True | c :: _ => p c = false end.
Proof.
  unfold rstrip_by. destruct (lstrip_by_spec p (rev s)) as (pre & E & F & H).
  exists (rev pre). rewrite rev_involutive. repeat split; [| |exact H].
  - apply (f_equal (@rev Z)) in E. now rewrite rev_involutive, rev_app_distr in E.
  - now apply Forall_rev.
Qed.

Lemma rstrip_by_fixed p s :
  match rev s with [] => True | c :: _ => p c = false end -> rstrip_by p s = s.
Proof.
  intros H. unfold rstrip_by. rewrite lstrip_by_fixed by exact H. apply rev_involutive.
Qed.

Lemma lstrip_by_keeps_last p c : forall y,
  p c = false -> exists x, lstrip_by p (y ++ [c]) = x ++ [c].
Proof.
  induction y as [|a y IH]; intros Hc; simpl.
  - rewrite Hc. now exists [].
  - destruct (p a); [now apply IH|]. now exists (a :: y).
Qed.

(** A trimmed text begins and ends with a character that is not trimmed. *)
Lemma strip_by_ends p s :
  match strip_by p s with [] => True | c :: _ => p c = false end /\
  match rev (strip_by p s) with [] => True | c :: _ => p c = false end.
Proof.
  unfold strip_by. split;
    [|destruct (rstrip_by_spec p (lstrip_by p s)) as (_ & _ & _ & H); exact H].
  destruct (lstrip_by_spec p s) as (_ & _ & _ & H).
  destruct (lstrip_by p s) as [|c l]; [exact I|].
  unfold rstrip_by. change (rev (c :: l)) with (rev l ++ [c]).
  destruct (lstrip_by_keeps_last p c (rev l) H) as [x ->].
  now rewrite rev_app_distr.
Qed.

Lemma strip_by_idempotent p s : strip_by p (strip_by p s) = strip_by p s.
Proof.
  destruct (strip_by_ends p s) as [Hh Hl].
  unfold strip_by at 1. rewrite (lstrip_by_fixed p _ Hh). now apply rstrip_by_fixed.
Qed.

Lemma strip_by_parts p s :
  exists pre suf, s = pre ++ strip_by p s ++ suf /\
    Forall (fun c => p c = true) pre /\ Forall (fun c => p c = true) suf.
Proof.
  destruct (lstrip_by_spec p s) as (pre & E1 & F1 & _).
  destruct (rstrip_by_spec p (lstrip_by p s)) as (suf & E2 & F2 & _).
  exists pre, suf. unfold strip_by. repeat split; [|exact F1|exact F2].
  now rewrite <- E2.
Qed.

Lemma strip_by_nothing p s :
  Forall (fun c => p c = false) s -> strip_by p s = s.
Proof.
  intros H. unfold strip_by. rewrite lstrip_by_fixed.
  - apply rstrip_by_fixed. apply Forall_rev in H.
    destruct (rev s); [exact I|now apply Forall_inv in H].
  - destruct s; [exact I|now apply Forall_inv in H].
Qed.

Lemma str_eqb_eq x y : str_eqb x y = true <-> x = y.
Proof.
  revert y. induction x as [|a x IH]; intros [|c y]; simpl; split; intros H;
    try reflexivity; try discriminate.
  - apply andb_true_iff in H as [H1 H2]. apply Z.eqb_eq in H1. apply IH in H2. congruence.
  - injection H as -> ->. rewrite Z.eqb_refl. now apply IH.
Qed.

Lemma in_set_In s words : in_set s words = true <-> In s words.
Proof.
  unfold in_set. rewrite existsb_exists. split.
  - intros (w & Hw & E). apply str_eqb_eq in E. now subst.
  - intros H. exists s. split; [exact H|now apply str_eqb_eq].
Qed.

(** *** Literals and repetitions of a character class *)

Lemma last_seen_cons p a kw : last_seen p (a :: kw) = last_seen (Some a) kw.
Proof.
  unfold last_seen. simpl. destruct (rev kw) as [|c r] eqn:E; reflexivity.
Qed.

Lemma lit_matches {U : UCD} (kw : str) : forall s prev k,
  rmatch false (lit kw) prev s k = true <->
  exists rest, s = kw ++ rest /\ k (last_seen prev kw) rest = true.
Proof.
  induction kw as [|a kw IH]; intros s prev k.
  - cbn [lit rmatch]. split; [intros H; now exists s|now intros (rest & -> & H)].
  - rewrite lit_cons. cbn [rmatch]. unfold chr_match. rewrite last_seen_cons.
    destruct s as [|x s'].
    + split; [discriminate|]. intros (rest & E & _). discriminate E.
    + rewrite andb_true_iff, IH, Z.eqb_eq. split.
      * intros (-> & rest & -> & H). now exists rest.
      * intros (rest & E & H). injection E as -> ->. split; [reflexivity|now exists rest].
Qed.

Lemma rmatch_Cat {U : UCD} ic r1 r2 prev s k :
  rmatch ic (Cat r1 r2) prev s k =
  rmatch ic r1 prev s (fun p' s' => rmatch ic r2 p' s' k).
Proof. reflexivity. Qed.

Lemma rmatch_Bol_start {U : UCD} ic s k : rmatch ic Bol None s k = k None s.
Proof. reflexivity. Qed.

Lemma rmatch_Rep {U : UCD} ic r lo hi prev s k :
  rmatch ic (Rep r lo hi) prev s k = rep_loop ic r lo hi k (List.length s) 0 prev s.
Proof. reflexivity. Qed.

Lemma rep_loop_class {U : UCD} ic items lo k : forall fuel n p s0,
  (List.length s0 <= fuel)%nat ->
  rep_loop ic (In_ items) lo None k fuel n p s0 = true <->
  exists ds rest, s0 = ds ++ rest /\
    Forall (fun x => set_match ic items x = true) ds /\
    (lo <= n + List.length ds)%nat /\ k (last_seen p ds) rest = true.
Proof.
  induction fuel as [|fuel IH]; intros n p s0 Hfuel; cbn [rep_loop].
  - destruct s0; [|simpl in Hfuel; lia]. rewrite orb_false_r, andb_true_iff. split.
    + intros [H1 H2]. exists [], []. apply Nat.leb_le in H1.
      repeat split; [constructor|simpl; lia|exact H2].
    + intros (ds & rest & E & _ & H1 & H2). symmetry in E.
      apply app_eq_nil in E as [-> ->]. split; [apply Nat.leb_le; simpl in H1; lia|exact H2].
  - rewrite orb_true_iff, andb_true_iff. cbn [andb rmatch]. split.
    + intros [[H1 H2]|H].
      * exists [], s0. apply Nat.leb_le in H1.
        repeat split; [constructor|simpl; lia|exact H2].
      * destruct s0 as [|x s']; [discriminate|].
        apply andb_true_iff in H as [Hx H]. apply andb_true_iff in H as [_ H].
        apply IH in H as (ds & rest & -> & Hds & Hlo & Hk); [|simpl in Hfuel; lia].
        exists (x :: ds), rest. rewrite last_seen_cons.
        repeat split; [now constructor|simpl; lia|exact Hk].
    + intros (ds & rest & -> & Hds & Hlo & Hk). destruct ds as [|x ds].
      * left. split; [apply Nat.leb_le; simpl in Hlo; lia|exact Hk].
      * right. cbn [app]. apply Forall_inv in Hds as Hx. apply Forall_inv_tail in Hds.
        rewrite Hx. cbn [andb].
        apply andb_true_iff. split; [apply Nat.ltb_lt; simpl; lia|].
        apply IH; [simpl in Hfuel; lia|]. exists ds, rest.
        rewrite last_seen_cons in Hk.
        repeat split; [exact Hds|simpl in Hlo; lia|exact Hk].
Qed.

Lemma digit_class x : set_match false [rng "0" "9"] x = true <-> is_digit x.
Proof.
  unfold set_match, is_digit. cbn [existsb item_in rng andb orb].
  rewrite !orb_false_r. unfold between. rewrite andb_true_iff, !Z.leb_le.
  reflexivity.
Qed.

(** [^#Name\[[0-9]+\]$] matches [#Name[], some digits and []], with or
    without a line feed after them. *)
Lemma name_indicator_matches {U : UCD} (s : str) :
  re_match false NAME_INDICATOR s = true <->
  exists ds, ds <> [] /\ Forall is_digit ds /\
    (s = u "#Name[" ++ ds ++ u "]" \/ s = u "#Name[" ++ ds ++ u "]" ++ [10]).
Proof.
  unfold re_match, NAME_INDICATOR. cbn [cat].
  rewrite rmatch_Cat, rmatch_Bol_start, rmatch_Cat. unfold txt at 1.
  rewrite lit_matches. unfold Plus. split.
  - intros (rest & -> & H). rewrite rmatch_Cat, rmatch_Rep in H.
    apply rep_loop_class in H as (ds & rest' & -> & Hds & Hlo & Hk); [|lia].
    change (txt "]") with (Chr 93) in Hk. cbn [rmatch] in Hk. unfold chr_match in Hk.
    destruct rest' as [|x r]; [discriminate|].
    apply andb_true_iff in Hk as [Hx Hk]. apply Z.eqb_eq in Hx. subst x.
    exists ds. split; [destruct ds; [simpl in Hlo; lia|discriminate]|].
    split; [eapply Forall_impl; [|exact Hds]; intros a; apply digit_class|].
    destruct r as [|c [|c' r]]; [now left| |discriminate].
    apply andb_true_iff in Hk as [Hc _]. apply Z.eqb_eq in Hc. subst c. now right.
  - intros (ds & Hne & Hds & Hs).
    assert (Hlo : (1 <= 0 + List.length ds)%nat) by (destruct ds; [contradiction|simpl; lia]).
    assert (Hcl : Forall (fun x => set_match false [rng "0" "9"] x = true) ds).
    { eapply Forall_impl; [|exact Hds]. intros a; apply digit_class. }
    destruct Hs as [->| ->].
    + exists (ds ++ u "]"). split; [reflexivity|]. rewrite rmatch_Cat, rmatch_Rep.
      apply rep_loop_class; [lia|]. exists ds, (u "]"). repeat split; assumption.
    + exists (ds ++ u "]" ++ [10]). split; [reflexivity|]. rewrite rmatch_Cat, rmatch_Rep.
      apply rep_loop_class; [lia|]. exists ds, (u "]" ++ [10]). repeat split; assumption.
Qed.

Lemma strip_not_ending_in_space s l c :
  strip s = l ++ [c] -> isspace c = false.
Proof.
  intros E. destruct (strip_by_ends isspace s) as [_ H].
  fold strip in H. rewrite E, rev_app_distr in H. exact H.
Qed.

(** X4: [is_name_indicator] accepts exactly the texts whose trimmed form
    is [#Name[], then one or more of the digits 0 to 9, then the closing
    bracket.  (The [$] of the pattern also allows a line feed at the end;
    trimming has removed it.) *)
Theorem name_indicator_shape {U : UCD} (t : str) :
  is_name_indicator t = true <->
  exists ds, ds <> [] /\ Forall is_digit ds /\ strip t = u "#Name[" ++ ds ++ u "]".
Proof.
  unfold is_name_indicator. rewrite name_indicator_matches. split.
  - intros (ds & Hne & Hds & [E|E]); [now exists ds|].
    exfalso. rewrite !app_assoc in E. apply strip_not_ending_in_space in E. discriminate E.
  - intros (ds & Hne & Hds & E). exists ds. auto.
Qed.

(** *** Speaker names *)

Lemma speaker_name_parts (t : str) :
  is_speaker_name t = true ->
  exists pre n1 K n2 suf,
    t = pre ++ (n1 ++ K ++ n2) ++ suf /\ strip t = n1 ++ K ++ n2 /\
    Forall (fun c => isspace c = true) pre /\ Forall (fun c => isspace c = true) suf /\
    Forall (fun c => c = 0) n1 /\ Forall (fun c => c = 0) n2 /\
    In (lower K) SPEAKER_NAMES.
Proof.
  unfold is_speaker_name. intros H. apply in_set_In in H.
  destruct (strip_by_parts isspace t) as (pre & suf & Et & Fp & Fs).
  fold strip in Et.
  destruct (strip_by_parts (fun c => existsb (Z.eqb c) [0]) (strip t))
    as (n1 & n2 & Es & F1 & F2).
  fold (strip_chars [0]) in Es.
  assert (Hz : forall l, Forall (fun c => existsb (Z.eqb c) [0] = true) l ->
                         Forall (fun c => c = 0) l).
  { intros l. apply Forall_impl. intros c Hc. simpl in Hc.
    rewrite orb_false_r in Hc. now apply Z.eqb_eq in Hc. }
  exists pre, n1, (strip_chars [0] (strip t)), n2, suf.
  rewrite <- Es. repeat split; auto.
Qed.

Lemma name_letters K : In (lower K) SPEAKER_NAMES -> Forall (fun c => name_letter c = true) K.
Proof.
  intros H. apply Forall_forall. intros c Hc. unfold name_letter.
  apply existsb_exists. exists (lower_char c). split; [|apply Z.eqb_refl].
  apply in_concat. exists (lower K). split; [exact H|]. unfold lower. now apply in_map.
Qed.

Lemma name_length K : In (lower K) SPEAKER_NAMES -> 2 <= len K.
Proof.
  intros H. replace (len K) with (len (lower K))
    by (unfold len, lower; now rewrite length_map).
  revert H. generalize (lower K). intros w H. simpl in H.
  repeat (destruct H as [<-|H]; [vm_compute; discriminate|]). contradiction.
Qed.

(** No name has a commercial at, a replacement character or a zero in it, in
    either letter case. *)
Lemma name_letter_plain c :
  name_letter c = true -> c <> 0x40 /\ c <> REPLACEMENT /\ c <> 0.
Proof.
  intros H. repeat split; intros ->; vm_compute in H; discriminate H.
Qed.

Lemma speaker_name_plain (t : str) c :
  is_speaker_name t = true -> In c t -> c <> 0x40 /\ c <> REPLACEMENT.
Proof.
  intros H Hc.
  destruct (speaker_name_parts t H) as (pre & n1 & K & n2 & suf & -> & _ & Fp & Fs & F1 & F2 & HK).
  apply name_letters in HK. rewrite Forall_forall in *.
  repeat (apply in_app_or in Hc as [Hc|Hc]).
  - apply Fp in Hc. split; intros ->; discriminate Hc.
  - apply F1 in Hc. subst c. split; discriminate.
  - apply HK, name_letter_plain in Hc. tauto.
  - apply F2 in Hc. subst c. split; discriminate.
  - apply Fs in Hc. split; intros ->; discriminate Hc.
Qed.

Lemma contains_char_In c : forall t, contains [c] t = true -> In c t.
Proof.
  induction t as [|x t IH]; simpl; [discriminate|].
  intros H. apply orb_true_iff in H as [H|H].
  - apply andb_true_iff in H as [H _]. apply Z.eqb_eq in H. now left.
  - right. now apply IH.
Qed.

Lemma count_char_absent c t : ~ In c t -> count_char c t = 0.
Proof.
  intros H. unfold count_char. rewrite filter_none; [reflexivity|].
  intros x Hx. apply Z.eqb_neq. intros ->. contradiction.
Qed.

Lemma is_speaker_name_strip t : is_speaker_name (strip t) = is_speaker_name t.
Proof. unfold is_speaker_name, strip. now rewrite strip_by_idempotent. Qed.

(** X5: a text that [is_speaker_name] recognises passes the admission
    filter [_is_valid_text], provided that at most a quarter of its
    characters are control characters (the zero characters around a name,
    which [is_speaker_name] strips, count among them). *)
Theorem speaker_name_is_admitted {U : UCD} (t : str) :
  is_speaker_name t = true ->
  4 * len (filter is_control t) <= len t ->
  _is_valid_text t = true.
Proof.
  intros Hname Hctl.
  pose proof (speaker_name_plain t) as Hplain.
  destruct (speaker_name_parts t Hname)
    as (pre & n1 & K & n2 & suf & Et & Es & _ & _ & _ & _ & HK).
  unfold _is_valid_text.
  destruct t as [|c0 t0] eqn:Ec; [discriminate Hname|]. rewrite <- Ec in *.
  assert (E1 : (len (strip t) <? 2) = false).
  { apply Z.ltb_ge. rewrite Es, !len_app.
    pose proof (name_length K HK). pose proof (len_nonneg n1). pose proof (len_nonneg n2). lia. }
  rewrite E1.
  assert (E2 : contains [REPLACEMENT] t = false).
  { destruct (contains [REPLACEMENT] t) eqn:E; [|reflexivity].
    apply contains_char_In in E. now destruct (Hplain _ Hname E). }
  rewrite E2.
  assert (E3 : (len t <? 4 * len (filter is_control t)) = false) by (apply Z.ltb_ge; lia).
  rewrite E3.
  assert (E4 : startswith t (u "@") = false).
  { rewrite Ec. change (u "@") with [64]. cbn [startswith].
    destruct (c0 =? 64) eqn:E; [|reflexivity]. apply Z.eqb_eq in E.
    destruct (Hplain c0 Hname); [rewrite Ec; now left|]. contradiction. }
  rewrite E4. cbn [andb].
  assert (E5 : count_char (ch "@") t = 0).
  { apply count_char_absent. intros Hin. now destruct (Hplain _ Hname Hin). }
  rewrite E5.
  assert (E6 : (len t <? 10 * 0) = false).
  { apply Z.ltb_ge. pose proof (len_nonneg t). lia. }
  rewrite E6, andb_false_r.
  now rewrite is_speaker_name_strip, Hname.
Qed.

Lemma speaker_name_is_admitted_witness :
  @_is_valid_text ascii_jp ([0] ++ u "RICHIE" ++ u "  ") = true.
Proof.
  apply (@speaker_name_is_admitted ascii_jp ([0] ++ u "RICHIE" ++ u "  ")).
  - vm_compute. reflexivity.
  - vm_compute. discriminate.
Defined.

(** With more zero characters around it the same name is refused. *)
Example crowded_speaker_name_is_refused :
  is_speaker_name ([0; 0] ++ u "Zara") = true /\
  @_is_valid_text ascii_jp ([0; 0] ++ u "Zara") = false.
Proof. split; vm_compute; reflexivity. Qed.

(** *** Speaker names and choices *)

Lemma words_forall (P : Z -> bool) (words : list str) (w : str) :
  forallb (forallb P) words = true -> In w words -> Forall (fun c => P c = true) w.
Proof.
  intros H Hw. rewrite forallb_forall in H. apply H in Hw.
  rewrite forallb_forall in Hw. now apply Forall_forall.
Qed.

Lemma lower_nonzero s w :
  lower s = w -> Forall (fun c => c <> 0) w -> Forall (fun c => c <> 0) s.
Proof.
  intros <-. unfold lower. rewrite Forall_map. apply Forall_impl.
  intros c H ->. now apply H.
Qed.

Lemma choice_word_no_name s :
  In (lower s) ENGLISH_CHOICE_WORDS -> ~ In (lower (strip_chars [0] s)) SPEAKER_NAMES.
Proof.
  intros H Hn.
  assert (Hz : Forall (fun c => c <> 0) s).
  { apply (lower_nonzero s (lower s) eq_refl).
    apply (words_forall (fun c => negb (c =? 0)) ENGLISH_CHOICE_WORDS) in H;
      [|vm_compute; reflexivity].
    eapply Forall_impl; [|exact H]. intros c Hc. apply negb_true_iff in Hc.
    now apply Z.eqb_neq. }
  unfold strip_chars in Hn. rewrite strip_by_nothing in Hn.
  - revert H Hn. generalize (lower s). intros w H Hn. simpl in H.
    repeat (destruct H as [<-|H];
            [simpl in Hn; repeat (destruct Hn as [Hn|Hn]; [discriminate Hn|]); contradiction|]).
    contradiction.
  - eapply Forall_impl; [|exact Hz]. intros c Hc. simpl.
    rewrite orb_false_r. now apply Z.eqb_neq.
Qed.

(** X6: an entry whose text is a speaker name is never a choice
    candidate, whatever its type. *)
Theorem speaker_name_is_no_choice {U : UCD} (e : entry) :
  is_speaker_name (text e) = true -> is_choice_candidate e = false.
Proof.
  intros H. unfold is_choice_candidate.
  destruct ((len (strip (text e)) <? 2) || (10 <? len (strip (text e)))); [reflexivity|].
  destruct ((type e =? 2) && negb (any_japanese (strip (text e)))).
  - destruct (in_set (lower (strip (text e))) ENGLISH_CHOICE_WORDS) eqn:E; [|reflexivity].
    exfalso. apply in_set_In in E. apply choice_word_no_name in E. apply E.
    apply in_set_In. exact H.
  - destruct (negb (any_japanese (strip (text e)))); [reflexivity|].
    now rewrite is_speaker_name_strip, H.
Qed.

Lemma speaker_name_is_no_choice_witness :
  @is_choice_candidate ascii_jp (assembled 3 (u "パール") [] 0x02) = false.
Proof.
  apply (@speaker_name_is_no_choice ascii_jp (assembled 3 (u "パール") [] 0x02)).
  vm_compute. reflexivity.
Defined.

(** *** What the grouping pass keeps, for any sequence *)

Lemma concat_filter_length {A} (p : list A -> bool) (bs : list (list A)) :
  (List.length (List.concat (filter p bs)) +
   List.length (List.concat (filter (fun g => negb (p g)) bs)) =
   List.length (List.concat bs))%nat.
Proof.
  induction bs as [|g bs IH]; [reflexivity|].
  cbn [filter List.concat]. destruct (p g); cbn [negb List.concat];
    rewrite !length_app; lia.
Qed.

Lemma convertible_blocks_length {A} (bs : list (list A)) :
  (List.length (filter convertible bs) <= List.length (List.concat (filter convertible bs)))%nat.
Proof.
  induction bs as [|g bs IH]; [simpl; lia|].
  cbn [filter]. destruct (convertible g) eqn:E; [|exact IH].
  cbn [List.concat List.length]. rewrite length_app.
  unfold convertible in E. apply andb_true_iff in E as [E _]. apply Z.leb_le in E.
  unfold len in E. lia.
Qed.

Lemma filter_length_split {A} (p : A -> bool) (l : list A) :
  (List.length (filter p l) + List.length (filter (fun x => negb (p x)) l) =
   List.length l)%nat.
Proof.
  induction l as [|x l IH]; [reflexivity|].
  cbn [filter]. destruct (p x); cbn [negb List.length]; lia.
Qed.

Lemma choice_of_is_choice_entry (g : list entry) :
  convertible g = true -> is_choice_entry (choice_of g).
Proof.
  intros H. unfold is_choice_entry, choice_of. cbn.
  repeat split. exists (map option_text g). rewrite len_map.
  unfold convertible in H. apply andb_true_iff in H as [H1 H2].
  apply Z.leb_le in H1, H2. repeat split; lia.
Qed.

Lemma cluster_members {U : UCD} (entries : list entry) g e :
  In g (choice_clusters entries) -> In e g -> In e entries.
Proof.
  intros Hg He.
  assert (H : In e (List.concat (choice_clusters entries)))
    by (apply in_concat; now exists g).
  unfold choice_clusters in H. rewrite clusters_concat in H.
  now apply filter_In in H.
Qed.

Lemma group_related_choices_bounds {U : UCD} (entries : list entry) :
  exists result,
    group_related_choices entries = Some result /\
    len result <= len entries /\
    (forall e, In e entries -> is_choice_candidate e = false -> In e result) /\
    (forall r, In r result -> In r entries \/ is_choice_entry r) /\
    (forall r, In r result -> In (index r) (map index entries)).
Proof.
  destruct (group_related_choices_result entries) as (result & Hr & Hp & _).
  exists result. split; [exact Hr|].
  set (cl := choice_clusters entries) in *.
  assert (Hmem : forall r, In r result ->
            In r entries \/ exists g, In g cl /\ convertible g = true /\ r = choice_of g).
  { intros r Hin. apply (Permutation_in _ Hp) in Hin.
    apply in_app_or in Hin as [Hin|Hin]; [left; now apply filter_In in Hin|].
    apply in_app_or in Hin as [Hin|Hin].
    - left. apply in_concat in Hin as (g & Hg & Hin). apply filter_In in Hg as [Hg _].
      now apply (cluster_members entries g).
    - right. apply in_map_iff in Hin as (g & <- & Hg). apply filter_In in Hg as [Hg Hc].
      now exists g. }
  split; [|split; [|split]].
  - apply Permutation_length in Hp. rewrite !length_app, length_map in Hp.
    pose proof (concat_filter_length convertible cl) as H1.
    pose proof (convertible_blocks_length cl) as H2.
    pose proof (filter_length_split is_choice_candidate entries) as H3.
    assert (H4 : List.length (List.concat cl) =
                 List.length (filter is_choice_candidate entries)).
    { unfold cl, choice_clusters. now rewrite clusters_concat. }
    unfold len. lia.
  - intros e He Hc. apply (Permutation_in _ (Permutation_sym Hp)).
    apply in_or_app. left. apply filter_In. split; [exact He|now rewrite Hc].
  - intros r Hin. destruct (Hmem r Hin) as [H|(g & _ & Hc & ->)]; [now left|].
    right. now apply choice_of_is_choice_entry.
  - intros r Hin. destruct (Hmem r Hin) as [H|(g & Hg & Hc & ->)]; [now apply in_map|].
    destruct g as [|first more]; [discriminate Hc|]. cbn.
    apply in_map. apply (cluster_members entries (first :: more)); [exact Hg|now left].
Qed.

(** X7: on any sequence of entries, in index order or not, the grouping
    pass returns.  Its result is no longer than the sequence, holds every
    entry that is not a choice candidate, consists of entries of the sequence
    and of Choice entries (tagged 0x02, with two to five options, their text
    the options joined by [ / ]), and carries indices of the sequence only. *)
Theorem choice_grouping_never_grows {U : UCD} (entries : list entry) :
  exists result,
    group_related_choices entries = Some result /\
    len result <= len entries /\
    (forall e, In e entries -> is_choice_candidate e = false -> In e result) /\
    (forall r, In r result -> In r entries \/ is_choice_entry r) /\
    (forall r, In r result -> In (index r) (map index entries)).
Proof. apply group_related_choices_bounds. Qed.

(** *** What the assembler returns, for any sequence *)

Lemma skipn_head_In {A} (l : list A) n x rest : skipn n l = x :: rest -> In x l.
Proof.
  intros H. rewrite <- (firstn_skipn n l), H. apply in_or_app. right. now left.
Qed.

Lemma assemble_loop_bounds {U : UCD} (entries : list entry) :
  forall fuel i combined,
    0 <= i -> (Z.to_nat (len entries - i) < fuel)%nat ->
    len combined <= Z.min i (len entries) ->
    Forall (fun c => In (index c) (map index entries)) combined ->
    exists result,
      assemble_loop entries fuel i combined = Some result /\
      len result <= len entries /\
      Forall (fun c => In (index c) (map index entries)) result.
Proof.
  induction fuel as [|fuel IH]; intros i combined H0 Hfuel Hlen Hidx; [lia|].
  cbn [assemble_loop].
  destruct (i <? len entries) eqn:C.
  2:{ exists combined. repeat split; [lia|exact Hidx]. }
  apply Z.ltb_lt in C.
  destruct (skipn (Z.to_nat i) entries) as [|current rest] eqn:Es.
  { exfalso. apply (f_equal (@List.length entry)) in Es.
    rewrite length_skipn in Es. unfold len in C. simpl in Es. lia. }
  pose proof (assemble_step_one_step (rev (firstn (Z.to_nat i) entries)) current rest i)
    as [Hlt Hout].
  destruct (assemble_step _ current rest i) as [i' out]. cbn [fst snd] in *.
  apply IH; try lia.
  - destruct Hout as [->|(e & -> & He)]; rewrite ?app_nil_r, ?len_app; [lia|].
    change (len [e]) with 1. lia.
  - destruct Hout as [->|(e & -> & He)]; [now rewrite app_nil_r|].
    apply Forall_app. split; [exact Hidx|]. constructor; [|constructor].
    rewrite He. apply in_map. now apply (skipn_head_In entries (Z.to_nat i) current rest).
Qed.

Lemma combine_dialogue_entries_bounds {U : UCD} (entries : list entry) :
  exists result,
    combine_dialogue_entries entries = Some result /\
    len result <= len entries /\
    (forall r, In r result -> In (index r) (map index entries)).
Proof.
  unfold combine_dialogue_entries.
  destruct (assemble_loop_bounds entries (S (List.length entries)) 0 [])
    as (combined & Hc & Hlen & Hidx).
  - lia.
  - rewrite Z.sub_0_r, len_length. lia.
  - change (len (@nil entry)) with 0. pose proof (len_nonneg entries). lia.
  - constructor.
  - rewrite Hc.
    destruct (group_related_choices_bounds combined) as (result & Hr & Hl & _ & _ & Hi).
    exists result. split; [exact Hr|]. split; [lia|].
    intros r Hin. specialize (Hi r Hin). apply in_map_iff in Hi as (c & E & Hcin).
    rewrite Forall_forall in Hidx. rewrite <- E. now apply Hidx.
Qed.

(** X8: on any sequence of entries the assembler
    [combine_dialogue_entries] returns, with no more entries than it was
    given, each under the index of an entry it was given. *)
Theorem assembly_returns_and_is_bounded {U : UCD} (entries : list entry) :
  exists result,
    combine_dialogue_entries entries = Some result /\
    len result <= len entries /\
    (forall r, In r result -> In (index r) (map index entries)).
Proof. apply combine_dialogue_entries_bounds. Qed.

(** *** Speaker names and bytecode *)

Lemma lower_char_cases c :
  lower_char c = c \/ (0x41 <= c <= 0x5A /\ lower_char c = c + 32) \/
  (c = 0x212A /\ lower_char c = 0x6B).
Proof.
  unfold lower_char, between.
  destruct ((65 <=? c) && (c <=? 90)) eqn:E1.
  - right. left. to_prop. lia.
  - destruct (c =? 8490) eqn:E2; [|now left]. right. right. apply Z.eqb_eq in E2. now subst.
Qed.

Lemma chr_match_lower l x : chr_match true l (lower_char x) = chr_match true l x.
Proof. unfold chr_match. now rewrite fold_case_lower. Qed.

Lemma set_match_lower items x :
  existsb (item_in 0x212A) items = false ->
  set_match true items (lower_char x) = set_match true items x.
Proof.
  intros HK. unfold set_match. cbn [andb]. rewrite fold_case_lower.
  destruct (lower_char_cases x) as [->|[[Hx ->]|[-> ->]]]; [reflexivity| |].
  - assert (Ef : fold_case x = x + 32).
    { unfold fold_case, between.
      replace ((65 <=? x) && (x <=? 90)) with true; [reflexivity|].
      symmetry. apply andb_true_iff. split; apply Z.leb_le; lia. }
    assert (Eu : upper_ascii (x + 32) = x).
    { unfold upper_ascii, between.
      replace ((97 <=? x + 32) && (x + 32 <=? 122)) with true; [lia|].
      symmetry. apply andb_true_iff. split; apply Z.leb_le; lia. }
    rewrite Ef, Eu.
    destruct (existsb (item_in x) items), (existsb (item_in (x + 32)) items); reflexivity.
  - rewrite HK. change (fold_case 8490) with 107.
    destruct (existsb (item_in 107) items); reflexivity.
Qed.

Lemma lower_char_newline c : (lower_char c =? 10) = (c =? 10).
Proof.
  destruct (lower_char_cases c) as [->|[[Hx ->]|[-> ->]]]; [reflexivity| |reflexivity].
  destruct (c =? 10) eqn:E; to_prop; [lia|]. apply Z.eqb_neq. lia.
Qed.

Lemma rep_loop_lower {U : UCD} r lo hi k k' :
  (forall prev s k k',
     (forall p s', k p s' = k' (option_map lower_char p) (lower s')) ->
     rmatch true r prev s k = rmatch true r (option_map lower_char prev) (lower s) k') ->
  (forall p s', k p s' = k' (option_map lower_char p) (lower s')) ->
  forall fuel n p s0,
    rep_loop true r lo hi k fuel n p s0 =
    rep_loop true r lo hi k' fuel n (option_map lower_char p) (lower s0).
Proof.
  intros Hr Hk. induction fuel as [|fuel IH]; intros n p s0; cbn [rep_loop].
  - now rewrite Hk.
  - rewrite Hk. f_equal. f_equal. apply Hr. intros p' s'.
    unfold lower. rewrite !length_map. f_equal. apply IH.
Qed.

(** Matching a case-closed pattern without regard to case gives the same
    answer on a text and on its lower case. *)
Lemma rmatch_lower {U : UCD} (r : re) :
  case_closed r = true ->
  forall prev s k k',
    (forall p s', k p s' = k' (option_map lower_char p) (lower s')) ->
    rmatch true r prev s k = rmatch true r (option_map lower_char prev) (lower s) k'.
Proof.
  induction r as [|c|items| | | | |r1 IH1 r2 IH2|r1 IH1 r2 IH2|r IH lo hi];
    intros Hc prev s k k' Hk; cbn [case_closed] in Hc; try discriminate Hc.
  - cbn [rmatch]. apply Hk.
  - cbn [rmatch]. destruct s as [|x s']; [reflexivity|]. cbn [lower map].
    rewrite chr_match_lower. f_equal. apply (Hk (Some x)).
  - cbn [rmatch]. destruct s as [|x s']; [reflexivity|]. cbn [lower map].
    apply negb_true_iff in Hc. rewrite (set_match_lower _ _ Hc). f_equal.
    apply (Hk (Some x)).
  - cbn [rmatch]. destruct prev; [reflexivity|]. apply Hk.
  - cbn [rmatch]. destruct s as [|c [|c' s']]; cbn [lower map].
    + apply Hk.
    + rewrite lower_char_newline. f_equal. apply (Hk prev [c]).
    + reflexivity.
  - apply andb_true_iff in Hc as [Hc1 Hc2]. rewrite !rmatch_Cat.
    apply IH1; [exact Hc1|]. intros p s'. now apply IH2.
  - apply andb_true_iff in Hc as [Hc1 Hc2]. cbn [rmatch].
    f_equal; [now apply IH1|now apply IH2].
  - rewrite !rmatch_Rep. unfold lower at 1. rewrite length_map.
    apply rep_loop_lower; [|exact Hk]. intros. now apply IH.
Qed.

Lemma re_match_lower {U : UCD} (r : re) (s : str) :
  case_closed r = true -> re_match true r s = re_match true r (lower s).
Proof.
  intros Hc. unfold re_match.
  apply (rmatch_lower r Hc None s); reflexivity.
Qed.

Lemma zeros_lower n : Forall (fun c => c = 0) n -> lower n = n.
Proof.
  induction 1 as [|c n -> _ IH]; [reflexivity|]. cbn [lower map]. unfold lower in IH.
  now rewrite IH.
Qed.

Lemma zeros_cases n : Forall (fun c => c = 0) n -> n = [] \/ exists n', n = 0 :: n'.
Proof. intros [|c n' -> _]; [now left|right; now exists n']. Qed.

(** No pattern of the bytecode list matches a name, whatever zero
    characters stand around it. *)
Lemma no_pattern_matches_name {U : UCD} (w n1 n2 : str) :
  In w SPEAKER_NAMES -> Forall (fun c => c = 0) n1 -> Forall (fun c => c = 0) n2 ->
  existsb (fun pattern => re_match true pattern (n1 ++ w ++ n2)) BYTECODE_PATTERNS = false.
Proof.
  intros Hw H1 H2.
  destruct (zeros_cases n1 H1) as [->|[n1' ->]];
    [|cbn [app BYTECODE_PATTERNS existsb]; lazy; reflexivity].
  cbn [app]. simpl in Hw.
  destruct (zeros_cases n2 H2) as [->|[n2' ->]];
    repeat (destruct Hw as [<-|Hw]; [lazy; reflexivity|]); contradiction.
Qed.

Lemma isspace_lower_char c : isspace c = true -> lower_char c = c.
Proof.
  intros H. destruct (lower_char_cases c) as [E|[[Hx _]|[-> _]]]; [exact E| |discriminate H].
  exfalso. unfold isspace, between in H.
  repeat (apply orb_true_iff in H as [H|H]); to_prop; lia.
Qed.

Lemma name_letter_no_space c : name_letter c = true -> isspace c = false.
Proof.
  intros H. destruct (isspace c) eqn:E; [|reflexivity].
  unfold name_letter in H. rewrite (isspace_lower_char c E) in H.
  apply existsb_exists in H as (x & Hx & Hc). apply Z.eqb_eq in Hc. subst x.
  assert (Hall : forallb (fun x => negb (isspace x)) (List.concat SPEAKER_NAMES) = true)
    by (vm_compute; reflexivity).
  rewrite forallb_forall in Hall. apply Hall in Hx. now rewrite E in Hx.
Qed.

Lemma split_acc_one_word : forall s word,
  Forall (fun c => isspace c = false) s -> (List.length (split_acc word s) <= 1)%nat.
Proof.
  induction s as [|c s IH]; intros word H; cbn [split_acc].
  - destruct word; simpl; lia.
  - apply Forall_inv in H as Hc. apply Forall_inv_tail in H. rewrite Hc. now apply IH.
Qed.

Lemma existsb_ext_in {A} (f g : A -> bool) (l : list A) :
  (forall x, In x l -> f x = g x) -> existsb f l = existsb g l.
Proof.
  induction l as [|x l IH]; intros H; [reflexivity|]. cbn [existsb].
  rewrite (H x (or_introl eq_refl)), IH; [reflexivity|].
  intros y Hy. apply H. now right.
Qed.

Lemma speaker_name_not_bytecode {U : UCD} (t : str) :
  is_speaker_name t = true -> is_bytecode t = false.
Proof.
  intros H.
  destruct (speaker_name_parts t H) as (pre & n1 & K & n2 & suf & _ & Es & _ & _ & F1 & F2 & HK).
  unfold is_bytecode. rewrite Es.
  destruct (in_set (lower (n1 ++ K ++ n2)) ENGLISH_CHOICE_WORDS); [reflexivity|].
  assert (Hpat : existsb (fun pattern => re_match true pattern (n1 ++ K ++ n2))
                   BYTECODE_PATTERNS = false).
  { rewrite (existsb_ext_in _ (fun pattern => re_match true pattern (n1 ++ lower K ++ n2))).
    - now apply no_pattern_matches_name.
    - intros r Hr. rewrite re_match_lower.
      + unfold lower. rewrite !map_app. fold (lower n1) (lower K) (lower n2).
        now rewrite (zeros_lower n1 F1), (zeros_lower n2 F2).
      + assert (Hall : forallb case_closed BYTECODE_PATTERNS = true)
          by (vm_compute; reflexivity).
        rewrite forallb_forall in Hall. now apply Hall. }
  rewrite Hpat.
  assert (Hw : (List.length (split (n1 ++ K ++ n2)) <= 1)%nat).
  { apply split_acc_one_word. apply Forall_app. split; [|apply Forall_app; split].
    - eapply Forall_impl; [|exact F1]. now intros c ->.
    - eapply Forall_impl; [|exact (name_letters K HK)]. intros c. apply name_letter_no_space.
    - eapply Forall_impl; [|exact F2]. now intros c ->. }
  assert (E5 : (5 <? len (split (n1 ++ K ++ n2))) = false)
    by (apply Z.ltb_ge; unfold len; lia).
  now rewrite E5.
Qed.

(** X9: a text that [is_speaker_name] recognises is never classified as
    bytecode: no pattern of the bytecode list matches a name of the cast. *)
Theorem speaker_name_is_no_bytecode {U : UCD} (t : str) :
  is_speaker_name t = true -> is_bytecode t = false.
Proof. apply speaker_name_not_bytecode. Qed.

Lemma speaker_name_is_no_bytecode_witness :
  @is_bytecode ascii_jp (u " ZARA" ++ [0]) = false.
Proof.
  apply (@speaker_name_is_no_bytecode ascii_jp (u " ZARA" ++ [0])).
  vm_compute. reflexivity.
Defined.

(** The pattern that keeps character codes out does match the name followed
    by a number. *)
Example character_code_is_bytecode :
  is_speaker_name (u "zara01") = false /\ @is_bytecode ascii_jp (u "zara01") = true.
Proof. split; vm_compute; reflexivity. Qed.

(** *** A sequence of bytecode *)

Lemma lower_no_space s :
  Forall (fun c => isspace c = false) (lower s) -> Forall (fun c => isspace c = false) s.
Proof.
  unfold lower. rewrite Forall_map. apply Forall_impl. intros c H.
  destruct (isspace c) eqn:E; [|reflexivity]. rewrite (isspace_lower_char c E) in H. congruence.
Qed.

Lemma choice_word_not_bytecode {U : UCD} (t : str) :
  in_set (lower t) ENGLISH_CHOICE_WORDS = true -> is_bytecode t = false.
Proof.
  intros H. unfold is_bytecode.
  assert (Es : strip t = t).
  { apply strip_by_nothing. apply lower_no_space. apply in_set_In in H.
    apply (words_forall (fun c => negb (isspace c)) ENGLISH_CHOICE_WORDS) in H;
      [|vm_compute; reflexivity].
    eapply Forall_impl; [|exact H]. intros c. apply negb_true_iff. }
  now rewrite Es, H.
Qed.

Lemma assemble_step_bytecode {U : UCD} before current rest i :
  is_bytecode (text current) = true ->
  assemble_step before current rest i = (i + 1, []).
Proof.
  intros Hb. unfold assemble_step. rewrite Hb. cbn [negb andb].
  assert (Hn : is_speaker_name (text current) = false).
  { destruct (is_speaker_name (text current)) eqn:E; [|reflexivity].
    apply speaker_name_not_bytecode in E. congruence. }
  assert (Hw : in_set (lower (text current)) ENGLISH_CHOICE_WORDS = false).
  { destruct (in_set (lower (text current)) ENGLISH_CHOICE_WORDS) eqn:E; [|reflexivity].
    apply choice_word_not_bytecode in E. congruence. }
  rewrite Hn, Hw, !andb_false_r. cbn [negb].
  repeat match goal with
  | |- context [if ?c then _ else _] => destruct c
  end; reflexivity.
Qed.

Lemma assemble_loop_bytecode {U : UCD} (entries : list entry) :
  Forall (fun e => is_bytecode (text e) = true) entries ->
  forall fuel i combined,
    0 <= i -> (Z.to_nat (len entries - i) < fuel)%nat ->
    assemble_loop entries fuel i combined = Some combined.
Proof.
  intros Hall. induction fuel as [|fuel IH]; intros i combined H0 Hfuel; [lia|].
  cbn [assemble_loop]. destruct (i <? len entries) eqn:C; [|reflexivity].
  apply Z.ltb_lt in C.
  destruct (skipn (Z.to_nat i) entries) as [|current rest] eqn:Es.
  { exfalso. apply (f_equal (@List.length entry)) in Es.
    rewrite length_skipn in Es. unfold len in C. simpl in Es. lia. }
  rewrite assemble_step_bytecode.
  - rewrite app_nil_r. apply IH; lia.
  - rewrite Forall_forall in Hall. apply Hall.
    now apply (skipn_head_In entries (Z.to_nat i) current rest).
Qed.

(** X10: when the text of every entry is bytecode, the assembler returns
    the empty list. *)
Theorem bytecode_assembles_to_nothing {U : UCD} (entries : list entry) :
  Forall (fun e => is_bytecode (text e) = true) entries ->
  combine_dialogue_entries entries = Some [].
Proof.
  intros Hall. unfold combine_dialogue_entries.
  rewrite assemble_loop_bytecode; [reflexivity|exact Hall|lia|].
  rewrite Z.sub_0_r, len_length. lia.
Qed.

Lemma bytecode_assembles_to_nothing_witness :
  @combine_dialogue_entries ascii_jp
    [extracted 1 2 (u "@bgm_stop") 9 (Some 0);
     extracted 2 4 (u "switch") 6 (Some 21);
     extracted 3 7 (u "bg012") 5 (Some 39);
     extracted 4 18 (u "zk3") 3 (Some 56)] = Some [].
Proof.
  apply (@bytecode_assembles_to_nothing ascii_jp).
  repeat constructor.
Defined.

(** *** The decoder *)

(** Bytes that are not zero decode to characters that are not zero. *)
Lemma utf8_decode_nonzero : forall n s,
  (List.length s <= n)%nat -> Forall (fun x => b2z x <> 0) s ->
  Forall (fun c => c <> 0) (utf8_decode s).
Proof.
  induction n as [|n IH]; intros s Hn Hs.
  - destruct s; [constructor|simpl in Hn; lia].
  - destruct s as [|x0 s1]; [constructor|].
    cbn [utf8_decode]. cbv zeta. unfold is_continuation, between, REPLACEMENT.
    decode_cases;
      repeat match goal with
      | H : Forall _ (_ :: _) |- _ =>
          let Hx := fresh "Hx" in
          pose proof (Forall_inv H) as Hx; apply Forall_inv_tail in H
      end;
      (constructor;
       [ cbv beta in *; to_prop;
         repeat match goal with
                | H : context [if ?c then _ else _] |- _ => destruct c eqn:?
                end;
         to_prop;
         repeat match goal with x : byte |- _ => pose proof (b2z_range x); revert x end;
         intros; lia
       | first [ apply Forall_nil
               | apply IH; [simpl in Hn |- *; lia|];
                 repeat (first [assumption | constructor; [assumption|]]) ] ]).
Qed.

Lemma until_nul_nonzero s : Forall (fun x => b2z x <> 0) (until_nul s).
Proof.
  induction s as [|x s IH]; cbn [until_nul]; [constructor|].
  destruct (b2z x =? 0) eqn:E; [constructor|]. constructor; [now apply Z.eqb_neq|exact IH].
Qed.

Lemma until_nul_length s : (List.length (until_nul s) <= List.length s)%nat.
Proof.
  induction s as [|x s IH]; cbn [until_nul]; [lia|].
  destruct (b2z x =? 0); simpl; lia.
Qed.

Lemma decode_utf8_string_spec (data : bytes) (start : Z) :
  0 <= start <= len data ->
  let (text, bytes_consumed) := decode_utf8_string data start in
  ~ In 0 text /\
  1 <= bytes_consumed /\ start + bytes_consumed <= len data + 1 /\
  text = utf8_decode (slice data start (start + bytes_consumed - 1)) /\
  Forall (fun x => b2z x <> 0) (slice data start (start + bytes_consumed - 1)) /\
  (start + bytes_consumed <= len data ->
   exists x, item data (start + bytes_consumed - 1) = Some x /\ b2z x = 0).
Proof.
  intros Hs. unfold decode_utf8_string.
  set (tail := skipn (Z.to_nat start) data).
  assert (Hslice : slice data start (start + (len (until_nul tail) + 1) - 1) = until_nul tail).
  { unfold slice. fold tail.
    replace (Z.to_nat (start + (len (until_nul tail) + 1) - 1 - start))
      with (List.length (until_nul tail)) by (unfold len; lia).
    clear. induction tail as [|x t IH]; [reflexivity|]. cbn [until_nul].
    destruct (b2z x =? 0); [reflexivity|]. cbn [List.length firstn]. now rewrite IH. }
  pose proof (until_nul_length tail) as Hl.
  assert (Htl : List.length tail = (List.length data - Z.to_nat start)%nat)
    by (unfold tail; apply length_skipn).
  rewrite Hslice.
  split; [|split; [|split; [|split; [|split]]]].
  - pose proof (utf8_decode_nonzero _ _ (le_n _) (until_nul_nonzero tail)) as H.
    rewrite Forall_forall in H. intros Hin. now apply (H 0).
  - unfold len. lia.
  - unfold len in *. lia.
  - reflexivity.
  - apply until_nul_nonzero.
  - intros Hfit.
    assert (Hnth : nth_error tail (List.length (until_nul tail)) =
                   nth_error data (Z.to_nat (start + (len (until_nul tail) + 1) - 1))).
    { unfold tail. rewrite nth_error_skipn. f_equal. unfold len. lia. }
    unfold item.
    destruct (start + (len (until_nul tail) + 1) - 1 <? 0) eqn:E;
      [apply Z.ltb_lt in E; unfold len in E; lia|].
    rewrite <- Hnth.
    assert (Hlt : (List.length (until_nul tail) < List.length tail)%nat)
      by (unfold len in *; lia).
    clear - Hlt. induction tail as [|x t IH]; [simpl in Hlt; lia|].
    cbn [until_nul] in *. destruct (b2z x =? 0) eqn:E.
    + exists x. split; [reflexivity|now apply Z.eqb_eq].
    + cbn [List.length nth_error] in *. apply IH. lia.
Qed.

(** X11: for a start inside the buffer or at its end,
    [decode_utf8_string] returns a text without zero character and a count
    of consumed bytes of at least one.  The text is the decoding of the bytes
    from the start up to the last consumed one, not included, none of which
    is zero; the consumed bytes end at most one past the end of the buffer,
    and when they end inside it the last of them is a zero byte. *)
Theorem decode_utf8_string_contract (data : bytes) (start : Z) :
  0 <= start <= len data ->
  let (text, bytes_consumed) := decode_utf8_string data start in
  ~ In 0 text /\
  1 <= bytes_consumed /\ start + bytes_consumed <= len data + 1 /\
  text = utf8_decode (slice data start (start + bytes_consumed - 1)) /\
  Forall (fun x => b2z x <> 0) (slice data start (start + bytes_consumed - 1)) /\
  (start + bytes_consumed <= len data ->
   exists x, item data (start + bytes_consumed - 1) = Some x /\ b2z x = 0).
Proof. apply decode_utf8_string_spec. Qed.

Lemma decode_utf8_string_contract_witness :
  let (text, bytes_consumed) := decode_utf8_string (b "ab" ++ [x00] ++ b "cd") 0 in
  ~ In 0 text /\ 1 <= bytes_consumed /\ 0 + bytes_consumed <= 5 + 1.
Proof.
  pose proof (decode_utf8_string_contract (b "ab" ++ [x00] ++ b "cd") 0) as H.
  assert (H0 : 0 <= 0 <= len (b "ab" ++ [x00] ++ b "cd")) by (vm_compute; split; discriminate).
  specialize (H H0).
  destruct (decode_utf8_string (b "ab" ++ [x00] ++ b "cd") 0) as [text n].
  destruct H as (H1 & H2 & H3 & _). repeat split; assumption.
Defined.

(** *** The legacy scan *)

Lemma numbered_snoc es e :
  numbered_from_0 es -> index e = len es -> numbered_from_0 (es ++ [e]).
Proof.
  unfold numbered_from_0, len. intros H He.
  rewrite map_app, length_app, seq_app, map_app, H. cbn. now rewrite He.
Qed.

Lemma legacy_loop_entries data : forall fuel pos es,
  (Z.to_nat (len data - pos) < fuel)%nat -> 0 <= pos ->
  numbered_from_0 es -> Forall legacy_entry es ->
  exists es', legacy_loop data fuel pos (len es) es = Some es' /\
              numbered_from_0 es' /\ Forall legacy_entry es'.
Proof.
  induction fuel as [|fuel IH]; intros pos es Hfuel H0 Hn Hf; [lia|].
  cbn [legacy_loop].
  destruct (pos <? len data - 4) eqn:C; [|now exists es].
  apply Z.ltb_lt in C.
  destruct (item data pos) as [x|]; [|apply IH; auto; lia].
  destruct ((b2z x =? 0) || (b2z x =? 255)); [apply IH; auto; lia|].
  pose proof (decode_utf8_string_spec data pos ltac:(lia)) as Hd.
  destruct (decode_utf8_string data pos) as [text n].
  destruct Hd as (Hnz & Hn1 & _).
  destruct (2 <=? len text) eqn:E2; [|apply IH; auto; lia].
  apply Z.leb_le in E2.
  set (e := extracted (len es) (if is_speaker_name text then 2 else 4) text
              (utf8_len text) None).
  replace (len es + 1) with (len (es ++ [e])) by (rewrite len_app; reflexivity).
  apply IH; [lia|lia| |].
  - now apply numbered_snoc.
  - apply Forall_app. split; [exact Hf|]. constructor; [|constructor].
    unfold legacy_entry, e. cbn. repeat split; assumption.
Qed.

(** X12: the legacy scan returns for every buffer.  Its entries are
    numbered 0, 1, 2, ... in order, and each has a text of two characters or
    more without zero character, the tag 0x02 when the text is a speaker name
    and 0x04 otherwise, the length of the text's UTF-8 encoding as size, and
    no offset. *)
Theorem legacy_scan_entries (data : bytes) :
  exists es, _parse_legacy_utf8 data = Some es /\
             numbered_from_0 es /\ Forall legacy_entry es.
Proof.
  unfold _parse_legacy_utf8.
  pose proof (find_code_start_positive data) as Hs.
  apply (legacy_loop_entries data (S (List.length data)) (_find_code_start data) []).
  - rewrite <- (len_length data). lia.
  - lia.
  - reflexivity.
  - constructor.
Qed.

(** *** The formatted text *)

















Example format_text_example :
  format_text (u "  First line#n#n#nsecond line #n") =
  u "First line" ++ [10] ++ u "second line".
Proof. vm_compute. reflexivity. Qed.

(** *** The dialogue format *)

Lemma item_some {A} (l : list A) k : 0 <= k < len l -> exists x, item l k = Some x.
Proof.
  intros H. unfold item. destruct (k <? 0) eqn:E; [apply Z.ltb_lt in E; lia|].
  destruct (nth_error l (Z.to_nat k)) as [x|] eqn:En; [now exists x|].
  apply nth_error_None in En. unfold len in H. lia.
Qed.

Lemma slice_length {A} (l : list A) lo hi :
  0 <= lo <= hi -> hi <= len l -> List.length (slice l lo hi) = Z.to_nat (hi - lo).
Proof.
  intros H1 H2. unfold slice. rewrite length_firstn, length_skipn. unfold len in H2. lia.
Qed.

Lemma slice_nth {A} (l : list A) lo hi j :
  0 <= lo -> (j < List.length (slice l lo hi))%nat ->
  nth_error (slice l lo hi) j = item l (lo + Z.of_nat j).
Proof.
  intros H0 Hj. unfold slice in *. rewrite nth_error_firstn.
  rewrite length_firstn in Hj.
  assert (E : (j <? Z.to_nat (hi - lo))%nat = true) by (apply Nat.ltb_lt; lia).
  rewrite E, nth_error_skipn. unfold item.
  destruct (lo + Z.of_nat j <? 0) eqn:E0; [apply Z.ltb_lt in E0; lia|].
  f_equal. lia.
Qed.

Lemma slice_two {A} (data : list A) i :
  0 <= i -> i + 2 <= len data ->
  exists x0 x1, slice data i (i + 2) = [x0; x1] /\
                item data i = Some x0 /\ item data (i + 1) = Some x1.
Proof.
  intros H0 H2.
  pose proof (slice_length data i (i + 2) ltac:(lia) H2) as Hl.
  replace (Z.to_nat (i + 2 - i)) with 2%nat in Hl by lia.
  pose proof (slice_nth data i (i + 2) 0 H0) as N0.
  pose proof (slice_nth data i (i + 2) 1 H0) as N1.
  destruct (slice data i (i + 2)) as [|x0 [|x1 [|x2 r]]]; try discriminate Hl.
  exists x0, x1. split; [reflexivity|]. split.
  - rewrite <- (Z.add_0_r i). symmetry. apply N0. simpl. lia.
  - symmetry. apply N1. simpl. lia.
Qed.

Lemma all_zero_two (data : bytes) p q :
  all_zero data [p; q] = Some true ->
  exists x y, item data p = Some x /\ b2z x = 0 /\ item data q = Some y /\ b2z y = 0.
Proof.
  cbn [all_zero]. destruct (item data p) as [x|]; [|discriminate].
  destruct (b2z x =? 0) eqn:Ex; [|discriminate].
  destruct (item data q) as [y|]; [|discriminate].
  destruct (b2z y =? 0) eqn:Ey; [|discriminate].
  intros _. exists x, y. apply Z.eqb_eq in Ex, Ey. auto.
Qed.

Lemma prefix_bytes p :
  In p SPEAKER_PREFIXES ->
  exists p0 p1 rest, p = p0 :: p1 :: rest /\
    b2z p0 <> 0 /\ b2z p0 <> 255 /\ b2z p1 <> 0.
Proof.
  intros H. simpl in H.
  repeat (destruct H as [<-|H];
          [do 3 eexists; split; [reflexivity|]; repeat split; discriminate|]).
  contradiction.
Qed.

(** What stands at a header offset. *)
Lemma header_fields data max_entries o :
  header_offset data max_entries o ->
  exists x0 x1 x2 x3 p0 p1,
    slice data o (o + 2) = [x0; x1] /\ slice data (o + 2) (o + 4) = [x2; x3] /\
    b2z x1 = 0 /\ b2z x3 = 0 /\
    1 <= b2z x0 <= 100 /\ 1 <= b2z x2 <= max_entries /\
    item data (o + 1) = Some x1 /\ item data (o + 2) = Some x2 /\
    item data (o + 3) = Some x3 /\
    item data (o + 4) = Some p0 /\ item data (o + 5) = Some p1 /\
    b2z p0 <> 0 /\ b2z p0 <> 255 /\ b2z p1 <> 0.
Proof.
  intros [Ho H]. unfold entry_header_at in H.
  destruct (all_zero data [o + 1; o + 3]) as [[|]|] eqn:Ez; try discriminate H.
  apply all_zero_two in Ez as (z1 & z3 & I1 & Z1 & I3 & Z3).
  destruct (slice_two data o ltac:(lia) ltac:(lia)) as (x0 & x1 & S0 & I0 & I1').
  destruct (slice_two data (o + 2) ltac:(lia) ltac:(lia)) as (x2 & x3 & S2 & I2 & I3').
  replace (o + 2 + 2) with (o + 4) in S2 by lia.
  replace (o + 2 + 1) with (o + 3) in I3' by lia.
  rewrite S0, S2 in H. cbn [unpack_H] in H.
  assert (x1 = z1) by congruence. assert (x3 = z3) by congruence. subst z1 z3.
  rewrite Z1, Z3 in H.
  destruct ((1 <=? b2z x0 + 256 * 0) && (b2z x0 + 256 * 0 <=? 100) &&
            (1 <=? b2z x2 + 256 * 0) && (b2z x2 + 256 * 0 <=? max_entries)) eqn:Er;
    [|discriminate H].
  destruct (o + 9 <? len data) eqn:E9; [|discriminate H].
  assert (H' : existsb (bytes_eqb (slice data (o + 4) (o + 9))) SPEAKER_PREFIXES = true)
    by (injection H as H; exact H).
  apply existsb_exists in H' as (p & Hp & E).
  apply bytes_eqb_eq in E.
  destruct (prefix_bytes p Hp) as (p0 & p1 & rest & -> & N0 & N255 & N1).
  pose proof (slice_nth data (o + 4) (o + 9) 0 ltac:(lia)) as Q0.
  pose proof (slice_nth data (o + 4) (o + 9) 1 ltac:(lia)) as Q1.
  rewrite E in Q0, Q1. cbn [nth_error List.length] in Q0, Q1.
  replace (o + 4 + Z.of_nat 0) with (o + 4) in Q0 by lia.
  replace (o + 4 + Z.of_nat 1) with (o + 5) in Q1 by lia.
  exists x0, x1, x2, x3, p0, p1. to_prop.
  repeat split; try assumption; try lia;
    symmetry; first [apply Q0 | apply Q1]; lia.
Qed.

(** Two header offsets are at least five bytes apart. *)
Lemma header_gap data max_entries o n :
  header_offset data max_entries o -> header_offset data max_entries n ->
  o < n -> o + 5 <= n.
Proof.
  intros Ho Hn Hlt.
  destruct (header_fields _ _ _ Ho)
    as (x0 & x1 & x2 & x3 & p0 & p1 & _ & _ & _ & _ & _ & Hx2 & _ & I2 & _ & I4 & I5 & N0 & _ & N1).
  destruct (header_fields _ _ _ Hn)
    as (y0 & y1 & y2 & y3 & q0 & q1 & _ & _ & Z1 & Z3 & _ & _ & J1 & _ & J3 & _).
  destruct (Z_lt_le_dec n (o + 5)) as [Hc|Hc]; [exfalso|exact Hc].
  assert (Hd : n = o + 1 \/ n = o + 2 \/ n = o + 3 \/ n = o + 4) by lia.
  destruct Hd as [-> | [-> | [-> | ->]]].
  - replace (o + 1 + 1) with (o + 2) in J1 by lia.
    assert (y1 = x2) by congruence. subst. lia.
  - replace (o + 2 + 3) with (o + 5) in J3 by lia.
    assert (y3 = p1) by congruence. subst. contradiction.
  - replace (o + 3 + 1) with (o + 4) in J1 by lia.
    assert (y1 = p0) by congruence. subst. contradiction.
  - replace (o + 4 + 1) with (o + 5) in J1 by lia.
    assert (y1 = p1) by congruence. subst. contradiction.
Qed.

Lemma entry_header_at_total data max_entries i :
  0 <= i -> i + 4 < len data ->
  exists found, entry_header_at data max_entries i = Some found.
Proof.
  intros H0 H4. unfold entry_header_at. cbn [all_zero].
  destruct (item_some data (i + 1) ltac:(lia)) as [z1 ->].
  destruct (b2z z1 =? 0); [|now exists false].
  destruct (item_some data (i + 3) ltac:(lia)) as [z3 ->].
  destruct (b2z z3 =? 0); [|now exists false].
  destruct (slice_two data i ltac:(lia) ltac:(lia)) as (x0 & x1 & -> & _).
  destruct (slice_two data (i + 2) ltac:(lia) ltac:(lia)) as (x2 & x3 & S2 & _).
  replace (i + 2 + 2) with (i + 4) in S2 by lia. rewrite S2. cbn [unpack_H].
  destruct (_ && _); [|now exists false].
  destruct (i + 9 <? len data); eexists; reflexivity.
Qed.

Lemma find_entry_offsets_ok data max_entries : forall n i entry_offsets,
  0 <= i -> (n = 0%nat \/ i + Z.of_nat n = len data - 12) ->
  Forall (header_offset data max_entries) entry_offsets ->
  StronglySorted Z.lt entry_offsets -> Forall (fun o => o < i) entry_offsets ->
  exists result,
    find_entry_offsets data max_entries n i entry_offsets = Some result /\
    Forall (header_offset data max_entries) result /\ StronglySorted Z.lt result.
Proof.
  induction n as [|n IH]; intros i offs H0 Hn Hh Hs Hb; cbn [find_entry_offsets].
  - now exists offs.
  - destruct Hn as [Hn|Hn]; [discriminate Hn|].
    assert (E4 : (len data <=? i + 4) = false) by (apply Z.leb_gt; lia).
    rewrite E4.
    assert (Hnext : n = 0%nat \/ i + 1 + Z.of_nat n = len data - 12) by lia.
    assert (Hb' : Forall (fun o => o < i + 1) offs).
    { eapply Forall_impl; [|exact Hb]. intros o Ho. cbv beta in Ho. lia. }
    assert (Hi4 : i + 4 < len data) by lia.
    destruct (entry_header_at_total data max_entries i H0 Hi4) as [found E].
    rewrite E. destruct found.
    + apply IH; [lia|exact Hnext| | |].
      * apply Forall_app. split; [exact Hh|]. constructor; [|constructor].
        split; [lia|exact E].
      * apply StronglySorted_snoc; [exact Hs|exact Hb].
      * apply Forall_app. split; [exact Hb'|]. constructor; [lia|constructor].
    + apply IH; auto. lia.
Qed.

Lemma sorted_set_increasing l : StronglySorted Z.lt l -> sorted_set l = l.
Proof.
  intros H. unfold sorted_set.
  assert (Hnd : NoDup l).
  { induction H as [|x l Hs IH Hx]; constructor; [|exact IH].
    intros Hin. rewrite Forall_forall in Hx. specialize (Hx x Hin). lia. }
  rewrite (nodup_fixed_point Z.eq_dec Hnd). apply sort_by_sorted_id.
  apply StronglySorted_Sorted in H. clear Hnd.
  induction H as [|x s Hs IH Hx]; [apply Sorted_nil|].
  apply Sorted_cons; [exact IH|].
  destruct Hx as [|y s' Hxy]; constructor. unfold holds. apply Z.leb_le. lia.
Qed.

Lemma skip_fill_total data next_offset : forall fuel search_pos,
  0 <= search_pos -> next_offset <= len data ->
  (Z.to_nat (next_offset - search_pos) < fuel)%nat ->
  exists p, skip_fill data next_offset fuel search_pos = Some p /\ search_pos <= p.
Proof.
  induction fuel as [|fuel IH]; intros pos H0 Hn Hfuel; [lia|].
  cbn [skip_fill]. destruct (pos <? next_offset) eqn:C; [|exists pos; split; [reflexivity|lia]].
  apply Z.ltb_lt in C.
  destruct (item_some data pos ltac:(lia)) as [x ->].
  destruct ((b2z x =? 0) || (b2z x =? 255)); [|exists pos; split; [reflexivity|lia]].
  destruct (IH (pos + 1)) as (p & Hp & Hle); try lia.
  exists p. split; [exact Hp|lia].
Qed.

Lemma segment_end_total data next_offset : forall fuel text_end_local,
  0 <= text_end_local -> next_offset <= len data ->
  (Z.to_nat (next_offset - text_end_local) < fuel)%nat ->
  exists p, segment_end data next_offset fuel text_end_local = Some p /\
            text_end_local <= p.
Proof.
  induction fuel as [|fuel IH]; intros pos H0 Hn Hfuel; [lia|].
  cbn [segment_end]. destruct (pos <? next_offset) eqn:C; [|exists pos; split; [reflexivity|lia]].
  apply Z.ltb_lt in C.
  destruct (item_some data pos ltac:(lia)) as [x ->].
  destruct ((b2z x =? 0) || (b2z x =? 255)); [exists pos; split; [reflexivity|lia]|].
  destruct (IH (pos + 1)) as (p & Hp & Hle); try lia.
  exists p. split; [exact Hp|lia].
Qed.

Lemma collect_segments_total data next_offset : forall fuel search_pos text_segments,
  0 <= search_pos -> next_offset <= len data ->
  (Z.to_nat (next_offset - search_pos) < fuel)%nat ->
  Forall (fun s => keep_segment s = true) text_segments ->
  exists result,
    collect_segments data next_offset fuel search_pos text_segments = Some result /\
    Forall (fun s => keep_segment s = true) result.
Proof.
  induction fuel as [|fuel IH]; intros pos segs H0 Hn Hfuel Hk; [lia|].
  cbn [collect_segments]. destruct (pos <? next_offset) eqn:C; [|now exists segs].
  apply Z.ltb_lt in C.
  destruct (skip_fill_total data next_offset (S (List.length data)) pos H0 Hn)
    as (p & -> & Hp).
  { rewrite <- (len_length data). lia. }
  destruct (next_offset <=? p) eqn:Cp; [now exists segs|].
  apply Z.leb_gt in Cp.
  destruct (segment_end_total data next_offset (S (List.length data)) p ltac:(lia) Hn)
    as (q & -> & Hq).
  { rewrite <- (len_length data). lia. }
  apply IH; [lia|exact Hn|lia|].
  destruct (p + 1 <? q); [|exact Hk].
  destruct (keep_segment (utf8_decode (slice data p q))) eqn:Ek; [|exact Hk].
  apply Forall_app. split; [exact Hk|]. now constructor.
Qed.

Lemma startswith_one_app (t x : str) c :
  t <> [] -> startswith (t ++ x) [c] = startswith t [c].
Proof. destruct t as [|a t]; [contradiction|reflexivity]. Qed.

Lemma segments_text_shape text_segments :
  Forall (fun s => keep_segment s = true) text_segments ->
  segments_text text_segments = [] \/
  (2 < len (segments_text text_segments) /\
   startswith (segments_text text_segments) (u "@") = false /\
   startswith (segments_text text_segments) (u "#") = false).
Proof.
  intros Hk. unfold segments_text.
  assert (Hs : Forall (fun s => keep_segment s = true)
                 (sort_by (fun x y => len y <=? len x) text_segments)).
  { rewrite Forall_forall in *. intros s Hin. apply Hk.
    eapply Permutation_in; [apply sort_by_perm|exact Hin]. }
  destruct (sort_by (fun x y => len y <=? len x) text_segments) as [|text others];
    [now left|]. right.
  apply Forall_inv in Hs. unfold keep_segment in Hs.
  apply andb_true_iff in Hs as [Hs H3]. apply andb_true_iff in Hs as [Hs H2].
  apply andb_true_iff in Hs as [H1 _].
  apply Z.ltb_lt in H1. apply negb_true_iff in H2, H3.
  assert (Hne : text <> []) by (intros ->; discriminate H1).
  destruct (filter _ others) as [|n ns]; [auto|].
  change (u "@") with [64] in *. change (u "#") with [35] in *.
  rewrite !startswith_one_app by exact Hne. rewrite len_app.
  pose proof (len_nonneg (u " [" ++ join (u ", ") (n :: ns) ++ u "]")). auto with zarith.
Qed.

Lemma find_after_head (x : byte) (s : bytes) :
  b2z x <> 0 -> find (x :: s) [x00] = -1 \/ 1 <= find (x :: s) [x00].
Proof.
  intros Hx. unfold find. cbn [find_from bytes_startswith].
  destruct (Byte.eqb x x00) eqn:E.
  - apply Byte.byte_dec_bl in E. subst x. now contradiction Hx.
  - cbn [andb]. pose proof (find_from_range [x00] s (0 + 1)) as H.
    assert (Hg : forall s pos, find_from [x00] s pos = -1 \/ pos <= find_from [x00] s pos).
    { clear. induction s as [|y s IH]; intros pos; cbn [find_from bytes_startswith].
      - now left.
      - destruct (Byte.eqb y x00 && true); [right; lia|].
        destruct (IH (pos + 1)) as [->|H]; [now left|right; lia]. }
    destruct (Hg s (0 + 1)) as [->|Hle]; [now left|right; lia].
Qed.

Lemma lstrip_byte_keeps_last z x : forall y,
  b2z x <> z -> lstrip_byte z (y ++ [x]) <> [].
Proof.
  induction y as [|a y IH]; intros Hx; cbn [app lstrip_byte].
  - apply Z.eqb_neq in Hx. rewrite Hx. discriminate.
  - destruct (b2z a =? z); [now apply IH|discriminate].
Qed.

Lemma rstrip_byte_head z x s : b2z x <> z -> rstrip_byte z (x :: s) <> [].
Proof.
  intros Hx. unfold rstrip_byte. cbn [rev].
  pose proof (lstrip_byte_keeps_last z x (rev s) Hx) as H.
  destruct (lstrip_byte z (rev s ++ [x])); [contradiction|].
  cbn [rev]. intros E. now apply app_eq_nil in E as [_ E].
Qed.

Lemma parse_dialogue_entries_ok data max_entries : forall entry_offsets entries,
  Forall (header_offset data max_entries) entry_offsets ->
  StronglySorted Z.lt entry_offsets ->
  Forall (dialogue_entry max_entries) entries ->
  exists result,
    parse_dialogue_entries data entry_offsets entries = Some result /\
    Forall (dialogue_entry max_entries) result /\
    List.length result = (List.length entries + List.length entry_offsets)%nat.
Proof.
  induction entry_offsets as [|o later IH]; intros entries Hh Hs He;
    cbn [parse_dialogue_entries].
  - exists entries. repeat split; [exact He|simpl; lia].
  - pose proof (Forall_inv Hh) as Ho. pose proof (Forall_inv_tail Hh) as Hl.
    apply StronglySorted_inv in Hs as [Hs Hlt].
    destruct (header_fields _ _ _ Ho)
      as (x0 & x1 & x2 & x3 & p0 & p1 & S0 & S2 & Z1 & Z3 & Ht & Hi & _ & _ & _ & I4 & _ & N0 & N255 & _).
    destruct Ho as [Hrange Hhead].
    assert (E8 : (len data <? o + 8) = false) by (apply Z.ltb_ge; lia).
    rewrite E8, S0, S2. cbn [unpack_H].
    set (next_offset := match later with next :: _ => next | [] => len data end).
    assert (Hnext : o + 5 <= next_offset <= len data).
    { unfold next_offset. destruct later as [|n later']; [lia|].
      pose proof (Forall_inv Hl) as Hn. pose proof (Forall_inv Hlt) as Hon.
      pose proof (header_gap _ _ _ _ (conj Hrange Hhead) Hn Hon).
      destruct Hn as [Hn _]. lia. }
    assert (Hsd : exists sd, slice data (o + 4) next_offset = p0 :: sd).
    { pose proof (slice_length data (o + 4) next_offset ltac:(lia) ltac:(lia)) as Hlen.
      pose proof (slice_nth data (o + 4) next_offset 0 ltac:(lia)) as Hn0.
      destruct (slice data (o + 4) next_offset) as [|y sd]; [simpl in Hlen; lia|].
      specialize (Hn0 ltac:(simpl; lia)). cbn [nth_error] in Hn0.
      replace (o + 4 + Z.of_nat 0) with (o + 4) in Hn0 by lia.
      exists sd. congruence. }
    destruct Hsd as [sd ->].
    set (null_pos := find (p0 :: sd) [x00]).
    assert (Hsp : exists speaker text_start,
              (if 0 <=? null_pos
               then (ascii_decode (slice (p0 :: sd) 0 null_pos), o + 4 + null_pos + 1)
               else (ascii_decode (rstrip_byte 255 (p0 :: sd)),
                     o + 4 + len (ascii_decode (rstrip_byte 255 (p0 :: sd))) + 1)) =
              (speaker, text_start) /\ speaker <> [] /\ 0 <= text_start).
    { destruct (0 <=? null_pos) eqn:En.
      - do 2 eexists. split; [reflexivity|]. apply Z.leb_le in En.
        destruct (find_after_head p0 sd N0) as [Hf|Hf]; fold null_pos in Hf; [lia|].
        split; [|lia]. unfold slice. cbn [skipn Z.to_nat].
        replace (Z.to_nat (null_pos - 0)) with (S (Z.to_nat (null_pos - 1))) by lia.
        discriminate.
      - do 2 eexists. split; [reflexivity|]. split.
        + pose proof (rstrip_byte_head 255 p0 sd N255) as Hr.
          destruct (rstrip_byte 255 (p0 :: sd)); [contradiction|discriminate].
        + pose proof (len_nonneg (ascii_decode (rstrip_byte 255 (p0 :: sd)))). lia. }
    destruct Hsp as (who & text_start & -> & Hne & Hts).
    destruct (collect_segments_total data next_offset (S (List.length data)) text_start []
                Hts ltac:(lia)) as (segs & -> & Hk); [|constructor|].
    { rewrite <- (len_length data). lia. }
    assert (Elen : (len who =? 0) = false).
    { apply Z.eqb_neq. destruct who; [contradiction|]. unfold len. simpl. lia. }
    rewrite Elen. cbn [negb orb].
    destruct (IH (entries ++ [assembled (b2z x2 + 256 * b2z x3) (segments_text segs)
                                who (b2z x0 + 256 * b2z x1)]) Hl Hs)
      as (result & Hr & Hf & Hlen).
    + apply Forall_app. split; [exact He|]. constructor; [|constructor].
      unfold dialogue_entry. cbn [type index text speaker size offset assembled].
      pose proof (b2z_range x2).
      repeat split; try lia.
      * now exists who.
      * now apply segments_text_shape.
    + exists result. repeat split; [exact Hr|exact Hf|].
      rewrite Hlen, length_app. simpl. lia.
Qed.

Lemma unpack_I_total data lo :
  0 <= lo -> lo + 4 <= len data -> exists n, unpack_I (slice data lo (lo + 4)) = Some n.
Proof.
  intros H0 H4.
  pose proof (slice_length data lo (lo + 4) ltac:(lia) H4) as Hl.
  replace (Z.to_nat (lo + 4 - lo)) with 4%nat in Hl by lia.
  destruct (slice data lo (lo + 4)) as [|b0 [|b1 [|b2 [|b3 [|b4 r]]]]];
    try discriminate Hl.
  eexists. reflexivity.
Qed.

Lemma decompile_dialogue_format_ok (data : bytes) :
  exists entries,
    decompile_dialogue_format data = Some entries /\
    (len data <= 12 -> entries = []) /\
    (forall entry_count,
       unpack_I (slice data 0 4) = Some entry_count ->
       Forall (dialogue_entry entry_count) entries).
Proof.
  unfold decompile_dialogue_format.
  destruct (len data <? 8) eqn:E8.
  { exists []. repeat split; constructor. }
  apply Z.ltb_ge in E8.
  destruct (unpack_I_total data 0 ltac:(lia) ltac:(lia)) as [entry_count Ec].
  destruct (unpack_I_total data 4 ltac:(lia) ltac:(lia)) as [header Eh].
  change (0 + 4) with 4 in Ec. change (4 + 4) with 8 in Eh. rewrite Ec, Eh.
  assert (Hn : Z.to_nat (len data - 12) = 0%nat \/
               0 + Z.of_nat (Z.to_nat (len data - 12)) = len data - 12) by lia.
  destruct (find_entry_offsets_ok data entry_count (Z.to_nat (len data - 12)) 0 []
              (Z.le_refl 0) Hn (Forall_nil _) (SSorted_nil _) (Forall_nil _))
    as (offs & -> & Hh & Hs).
  rewrite (sorted_set_increasing offs Hs).
  destruct (parse_dialogue_entries_ok data entry_count offs [] Hh Hs)
    as (entries & -> & Hf & Hlen); [constructor|].
  exists entries. split; [reflexivity|]. split.
  - intros H12. destruct offs as [|o offs'].
    + destruct entries; [reflexivity|discriminate Hlen].
    + apply Forall_inv in Hh. destruct Hh as [Hr _]. lia.
  - intros c Hc. assert (c = entry_count) by congruence. now subst.
Qed.

(** X14: [decompile_dialogue_format] returns for every buffer, and returns
    nothing for a buffer of 12 bytes or less.  Every entry it returns has a
    type from 1 to 100, an index from 1 to the entry count in the first word
    of the buffer that fits one byte, a speaker that is not empty, and a text
    that is empty or has more than two characters and begins with neither
    [@] nor [#]; it has no size and no offset. *)
Theorem dialogue_format_entries (data : bytes) :
  exists entries,
    decompile_dialogue_format data = Some entries /\
    (len data <= 12 -> entries = []) /\
    (forall entry_count,
       unpack_I (slice data 0 4) = Some entry_count ->
       Forall (dialogue_entry entry_count) entries).
Proof. apply decompile_dialogue_format_ok. Qed.

(** The small file: the longest segment is the text, the other one a note;
    bytes above 0x7F in a speaker name are replaced. *)
Example dialogue_buffer_entries :
  decompile_dialogue_format dialogue_buffer =
  Some [ assembled 2 (u "a longer note [Hello there]") (u "yougo_a") 1;
         assembled 3 [] (u "tiara" ++ [REPLACEMENT; REPLACEMENT; REPLACEMENT]) 2 ].
Proof. vm_compute. reflexivity. Qed.

(** *** The entry point *)

(** X15: [decompile] returns for every file: the empty list when the file
    cannot be read, what [decompile_full_format] returns when the file begins
    with the magic tag, and what [decompile_dialogue_format] returns in every
    other case, whether the format is detected as dialogue or as unknown. *)
Theorem decompile_returns {U : UCD} (file : option bytes) :
  exists entries,
    decompile file = Some entries /\
    (file = None -> entries = []) /\
    (forall data, file = Some data ->
       (begins_with MAGIC data -> decompile_full_format data = Some entries) /\
       (~ begins_with MAGIC data -> decompile_dialogue_format data = Some entries)).
Proof.
  destruct file as [data|].
  2:{ exists []. repeat split; try reflexivity; intros; discriminate. }
  cbn [decompile].
  destruct (decompile_dialogue_format_ok data) as (dl & Hd & _).
  destruct (decompile_full_format_returns data) as (fl & Hf & _).
  assert (Hcases : (detect_format data = Some full /\ begins_with MAGIC data) \/
                   ((detect_format data = Some dialogue \/ detect_format data = Some unknown) /\
                    ~ begins_with MAGIC data)).
  { unfold detect_format. destruct data as [|x data'] eqn:Ed.
    - right. split; [now right|]. intros [rest E]. discriminate E.
    - rewrite <- Ed. destruct (bytes_eqb (slice data 0 6) MAGIC) eqn:Em.
      + left. split; [reflexivity|]. now apply magic_slice.
      + right. split.
        * destruct (8 <=? len data) eqn:E8; [|now right].
          apply Z.leb_le in E8.
          destruct (unpack_I_total data 0 ltac:(lia) ltac:(lia)) as [c Ec].
          change (0 + 4) with 4 in Ec. rewrite Ec.
          destruct (c <? 10000); [now left|now right].
        * intros Hb. apply magic_slice in Hb. congruence. }
  destruct Hcases as [[-> Hb]|[[->| ->] Hb]].
  - exists fl. split; [exact Hf|]. split; [discriminate|].
    intros d [= <-]. split; [auto|contradiction].
  - exists dl. split; [exact Hd|]. split; [discriminate|].
    intros d [= <-]. split; [contradiction|auto].
  - exists dl. split; [exact Hd|]. split; [discriminate|].
    intros d [= <-]. split; [contradiction|auto].
Qed.

(** *** The structured pipeline, end to end *)

Lemma merge_entries_members {U : UCD} (padded compact : list entry) (e : entry) :
  In e (merge_entries padded compact) -> In e (compact ++ padded).
Proof.
  unfold merge_entries. intros H. apply filter_In in H as [H _].
  apply (Permutation_in _ (sort_by_perm _ _)) in H.
  apply in_app_or in H as [H|H]; apply in_or_app; [now left|right].
  now apply filter_In in H.
Qed.

Lemma filter_length_le {A} (p : A -> bool) (l : list A) :
  (List.length (filter p l) <= List.length l)%nat.
Proof. induction l as [|x l IH]; simpl; [lia|]. destruct (p x); simpl; lia. Qed.

Lemma merge_entries_length {U : UCD} (padded compact : list entry) :
  len (merge_entries padded compact) <= len padded + len compact.
Proof.
  unfold merge_entries, len.
  pose proof (filter_length_le (fun e => _is_valid_text (text e))
                (sort_by index_offset_le
                   (compact ++ filter (fun e => negb (mem (index e) (map index compact)))
                                 padded))) as H1.
  pose proof (Permutation_length
                (sort_by_perm index_offset_le
                   (compact ++ filter (fun e => negb (mem (index e) (map index compact)))
                                 padded))) as H2.
  rewrite length_app in H2.
  pose proof (filter_length_le (fun e => negb (mem (index e) (map index compact))) padded).
  lia.
Qed.

(** X16: for every buffer the structured pipeline [decompile_full_format]
    returns.  Its result is in index order, has no more entries than the two
    parsers found together, and every index in it is the index of an entry
    that one of the parsers found. *)
Theorem full_format_result {U : UCD} (data : bytes) :
  exists padded compact result,
    _parse_padded_format data = Some padded /\
    _parse_compact_format data = Some compact /\
    decompile_full_format data = Some result /\
    index_sorted result /\
    len result <= len padded + len compact /\
    (forall r, In r result -> exists e, In e (compact ++ padded) /\ index r = index e).
Proof.
  destruct (assembled_sequence_sorted data) as (padded & compact & _ & Ep & Ec & _).
  destruct (decompile_full_format_returns data) as (result & Er & Hs).
  exists padded, compact, result. repeat split; try assumption.
  - unfold decompile_full_format in Er. rewrite Ep, Ec in Er.
    destruct (combine_dialogue_entries_bounds (merge_entries padded compact))
      as (result' & Er' & Hl & _).
    assert (result' = result) by congruence. subst result'.
    pose proof (merge_entries_length padded compact). lia.
  - intros r Hin. unfold decompile_full_format in Er. rewrite Ep, Ec in Er.
    destruct (combine_dialogue_entries_bounds (merge_entries padded compact))
      as (result' & Er' & _ & Hi).
    assert (result' = result) by congruence. subst result'.
    specialize (Hi r Hin). apply in_map_iff in Hi as (e & E & He).
    exists e. split; [now apply merge_entries_members|now symmetry].
Qed.
